(** * qtranscoder: the transcoding pipeline of [transcoder.cpp]

    A shallow embedding of [Transcoder] (transcoder.h, transcoder.cpp) and of
    [main] (main.cpp).  The libav* libraries the program drives are external
    collaborators: every call into them is answered by an oracle that is part
    of the environment ([InputFile], [OutputFile], [Env]), and the program's
    reaction to the answer is transcribed branch by branch.  Program state
    that outlives a call (the global [pts], the demuxer position, the audio
    FIFO) is threaded through a state monad together with a trace of the
    observable actions (resources acquired and released, diagnostics, frames
    decoded, stored, loaded and sent to the encoder). *)

From Stdlib Require Import ZArith List Bool Lia.
From Stdlib Require String.
Import String.StringSyntax.
Delimit Scope string_scope with string.
Import ListNotations.
Local Open Scope Z_scope.

(** ** libavutil error codes (libavutil/error.h, errno.h) *)

Module Av.

(** [MKTAG(a,b,c,d)]: four ASCII codes packed little-endian. *)
Definition MKTAG (a b c d : Z) : Z :=
  Z.lor a (Z.lor (Z.shiftl b 8) (Z.lor (Z.shiftl c 16) (Z.shiftl d 24))).

Definition FFERRTAG (a b c d : Z) : Z := - MKTAG a b c d.

Definition ENOMEM : Z := 12.
Definition EAGAIN : Z := 11.
Definition EINVAL : Z := 22.

(** [AVERROR(e)] for a POSIX error number. *)
Definition AVERROR (e : Z) : Z := - e.

(** [FFERRTAG('E','O','F',' ')] *)
Definition AVERROR_EOF : Z := Eval cbv in FFERRTAG 69 79 70 32.

(** [FFERRTAG('E','X','I','T')] *)
Definition AVERROR_EXIT : Z := Eval cbv in FFERRTAG 69 88 73 84.

(** [FFMIN] *)
Definition FFMIN (a b : Z) : Z := if b <? a then b else a.

End Av.
Import Av.

(** transcoder.h *)
Definition OUTPUT_BIT_RATE : Z := 96000.
Definition OUTPUT_CHANNELS : Z := 2.

(** [int64_t] arithmetic: the value of a sum reduced to 64 bits, two's
    complement. *)
Definition wrap64 (z : Z) : Z := (z + 2 ^ 63) mod 2 ^ 64 - 2 ^ 63.

(** ** Data *)

(** [enum AVMediaType], as far as the inputs of interest go. *)
Inductive MediaType := MediaAudio | MediaVideo | MediaSubtitle | MediaData.

(** One entry of [AVFormatContext::streams]: the media type recorded in its
    [codecpar], and whether [avcodec_find_decoder] knows its [codec_id]. *)
Record Stream := mkStream {
  codec_type : MediaType;
  has_decoder : bool
}.

(** The fields of [AVCodecContext] the program reads or writes. *)
Record CodecContext := mkCodecContext {
  channels : Z;
  sample_rate : Z;
  bit_rate : Z;
  experimental : bool;      (* strict_std_compliance = FF_COMPLIANCE_EXPERIMENTAL *)
  global_header : bool;     (* flags & AV_CODEC_FLAG_GLOBAL_HEADER *)
  frame_size : Z
}.

(** What the libraries answer during one call of [readDecodeConvertAndStore],
    in the order the calls are made. *)
Record DecodeCall := mkDecodeCall {
  frame_alloc : bool;       (* av_frame_alloc returned a frame *)
  packet_alloc : bool;      (* av_packet_alloc returned a packet *)
  read_frame : Z;           (* av_read_frame, while packets remain *)
  send_packet : Z;          (* avcodec_send_packet *)
  receive_frame : Z;        (* avcodec_receive_frame *)
  nb_samples : Z;           (* nb_samples of the frame received *)
  pointers_alloc : bool;    (* calloc of the channel pointers *)
  samples_alloc : Z;        (* av_samples_alloc *)
  swr_convert : Z;          (* swr_convert *)
  fifo_realloc : Z          (* av_audio_fifo_realloc *)
}.

(** What the libraries answer during one call of [encodeAudioFrame] (and of
    the [initOutputFrame] before it, when there is one). *)
Record EncodeCall := mkEncodeCall {
  out_frame_alloc : bool;   (* av_frame_alloc *)
  get_buffer : Z;           (* av_frame_get_buffer *)
  out_packet_alloc : bool;  (* av_packet_alloc *)
  send_frame : Z;           (* avcodec_send_frame *)
  receive_packet : Z;       (* avcodec_receive_packet *)
  write_frame : Z           (* av_write_frame *)
}.

(** The input path as libavformat and libavcodec see it.  The file holds
    finitely many packets; once they are read [av_read_frame] answers
    [AVERROR_EOF], and the remaining answers of that call are those of
    [at_eof] (whose [read_frame] is not consulted). *)
Record InputFile := mkInputFile {
  open_input : Z;               (* avformat_open_input *)
  find_stream_info : Z;         (* avformat_find_stream_info *)
  streams : list Stream;
  alloc_context : bool;         (* avcodec_alloc_context3 *)
  parameters_to_context : Z;    (* avcodec_parameters_to_context *)
  codec_open : Z;               (* avcodec_open2 *)
  decoder_context : CodecContext;
  file_packets : list DecodeCall;
  at_eof : DecodeCall
}.

(** The output path and the AAC encoder. *)
Record OutputFile := mkOutputFile {
  avio_open : Z;
  alloc_format_context : bool;  (* avformat_alloc_context *)
  guess_format : bool;          (* av_guess_format found a container *)
  strdup_url : bool;            (* av_strdup *)
  find_encoder : bool;          (* avcodec_find_encoder(AV_CODEC_ID_AAC) *)
  new_stream : bool;            (* avformat_new_stream *)
  alloc_encoder_context : bool; (* avcodec_alloc_context3 *)
  wants_global_header : bool;   (* oformat->flags & AVFMT_GLOBALHEADER *)
  encoder_open : Z;             (* avcodec_open2 *)
  encoder_frame_size : Z;       (* frame_size the opened encoder announces *)
  parameters_from_context : Z;  (* avcodec_parameters_from_context *)
  write_header : Z;             (* avformat_write_header *)
  write_trailer : Z;            (* av_write_trailer *)
  encoder : nat -> EncodeCall   (* answers to the n-th encodeAudioFrame *)
}.

Record Env := mkEnv {
  input : InputFile;
  output : OutputFile;
  swr_alloc : bool;             (* swr_alloc_set_opts *)
  swr_init : Z;
  fifo_alloc : bool             (* av_audio_fifo_alloc *)
}.

(** Objects the program owns through a pointer. *)
Inductive Resource :=
| InputFormatContext
| InputCodecContext
| OutputIOContext
| OutputFormatContext
| OutputCodecContext
| ResampleContext
| AudioFifo
| PacketBuf
| FrameBuf
| SamplePointers
| SampleData.

(** A frame as [avcodec_send_frame] receives it. *)
Record Frame := mkFrame {
  frame_pts : Z;
  frame_samples : Z
}.

Inductive Event :=
| Acquire (r : Resource)
| Release (r : Resource)
| Diagnostic (msg : String.string)         (* fprintf(stderr, ...) *)
| Info (msg : String.string)          (* qDebug() *)
| Finished                          (* *finished = 1 *)
| FrameDecoded (n : Z)              (* avcodec_receive_frame gave n samples *)
| FifoWrite (n : Z)                 (* n samples entered the FIFO *)
| FifoRead (n : Z)                  (* n samples left the FIFO *)
| SendFrame (f : option Frame)      (* avcodec_send_frame; None is the flush *)
| WritePacket                       (* av_write_frame *)
| WriteHeader
| WriteTrailer.
Arguments Diagnostic msg%_string.
Arguments Info msg%_string.

(** The texts of the diagnostics. *)
Module Msg.

Definition no_open_input_file : String.string := "Could not open input file '%s' (error '%d')"%string.
Definition no_open_find_stream_info : String.string := "Could not open find stream info (error '%d')"%string.
Definition expected_one_audio_input_stream : String.string := "Expected one audio input stream, but found %d"%string.
Definition no_find_input_codec : String.string := "Could not find input codec"%string.
Definition no_allocate_a_decoding_context : String.string := "Could not allocate a decoding context"%string.
Definition no_open_input_codec : String.string := "Could not open input codec (error '%d')"%string.
Definition no_open_output_file : String.string := "Could not open output file '%s' (error '%d')"%string.
Definition no_allocate_output_format_context : String.string := "Could not allocate output format context"%string.
Definition no_find_output_file_format : String.string := "Could not find output file format"%string.
Definition no_allocate_url : String.string := "Could not allocate url."%string.
Definition no_find_an_aac_encoder : String.string := "Could not find an AAC encoder."%string.
Definition no_create_new_stream : String.string := "Could not create new stream"%string.
Definition no_allocate_an_encoding_context : String.string := "Could not allocate an encoding context"%string.
Definition no_open_output_codec : String.string := "Could not open output codec (error '%d')"%string.
Definition no_initialize_stream_parameters : String.string := "Could not initialize stream parameters"%string.
Definition no_allocate_packet : String.string := "Could not allocate packet"%string.
Definition no_allocate_input_frame : String.string := "Could not allocate input frame"%string.
Definition no_allocate_resample_context : String.string := "Could not allocate resample context"%string.
Definition no_open_resample_context : String.string := "Could not open resample context"%string.
Definition no_allocate_fifo : String.string := "Could not allocate FIFO"%string.
Definition no_write_output_file_header : String.string := "Could not write output file header (error '%d')"%string.
Definition no_read_frame : String.string := "Could not read frame (error '%d')"%string.
Definition no_send_packet_for_decoding : String.string := "Could not send packet for decoding (error '%d')"%string.
Definition no_decode_frame : String.string := "Could not decode frame (error '%d')"%string.
Definition no_allocate_converted_input_pointers : String.string := "Could not allocate converted input sample pointers"%string.
Definition no_allocate_converted_input_samples : String.string := "Could not allocate converted input samples (error '%d')"%string.
Definition no_convert_input_samples : String.string := "Could not convert input samples (error '%d')"%string.
Definition no_reallocate_fifo : String.string := "Could not reallocate FIFO"%string.
Definition no_write_data_to_fifo : String.string := "Could not write data to FIFO"%string.
Definition no_allocate_output_frame : String.string := "Could not allocate output frame"%string.
Definition no_allocate_output_frame_samples : String.string := "Could not allocate output frame samples (error '%d')"%string.
Definition no_send_packet_for_encoding : String.string := "Could not send packet for encoding (error '%d')"%string.
Definition no_encode_frame : String.string := "Could not encode frame (error '%d')"%string.
Definition no_write_frame : String.string := "Could not write frame (error '%d')"%string.
Definition no_read_data_from_fifo : String.string := "Could not read data from FIFO"%string.
Definition no_write_output_file_trailer : String.string := "Could not write output file trailer (error '%d')"%string.
Definition file_has_been_created_successfully : String.string := "File has been created successfully -> "%string.
Definition usage_input_file_output_file : String.string := "Usage: %s <input file> <output file>"%string.
Definition usage_example : String.string := "Example: ./qtranscoder /tmp/1.mp3 /tmp/test.mp4"%string.

End Msg.

(** ** State *)

Record State := mkState {
  pts : Z;                        (* static int64_t pts *)
  packets : list DecodeCall;      (* packets the demuxer has not yet read *)
  encoder_calls : nat;            (* encodeAudioFrame calls so far *)
  fifo_samples : Z;               (* av_audio_fifo_size *)
  trace : list Event
}.

(** The state of a process that has just started: [pts = 0]. *)
Definition process_start : State := mkState 0 [] 0 0 [].

Definition St (A : Type) : Type := State -> A * State.

Definition ret {A} (a : A) : St A := fun s => (a, s).

Definition bind {A B} (m : St A) (k : A -> St B) : St B :=
  fun s => let (a, s') := m s in k a s'.

Declare Scope st_scope.
Delimit Scope st_scope with st.
Notation "x <- m ;; k" := (bind m (fun x => k))
  (at level 61, m at next level, right associativity) : st_scope.
Notation "' p <- m ;; k" := (bind m (fun x => match x with p => k end))
  (at level 61, p pattern, m at next level, right associativity) : st_scope.
Notation "m ;; k" := (bind m (fun _ => k))
  (at level 61, right associativity) : st_scope.
Local Open Scope st_scope.

Definition emit (e : Event) : St unit :=
  fun s => (tt, mkState (pts s) (packets s) (encoder_calls s) (fifo_samples s)
                        (trace s ++ [e])).

Definition acquire (r : Resource) : St unit := emit (Acquire r).
Definition release (r : Resource) : St unit := emit (Release r).
Definition diag (msg : String.string) : St unit := emit (Diagnostic msg).
Arguments diag msg%_string.

Definition get_pts : St Z := fun s => (pts s, s).
Definition set_pts (p : Z) : St unit :=
  fun s => (tt, mkState p (packets s) (encoder_calls s) (fifo_samples s) (trace s)).

Definition set_packets (l : list DecodeCall) : St unit :=
  fun s => (tt, mkState (pts s) l (encoder_calls s) (fifo_samples s) (trace s)).

Definition set_encoder_calls (n : nat) : St unit :=
  fun s => (tt, mkState (pts s) (packets s) n (fifo_samples s) (trace s)).

Definition set_fifo_samples (n : Z) : St unit :=
  fun s => (tt, mkState (pts s) (packets s) (encoder_calls s) n (trace s)).

(** [if (p) free(p)]-style releases of a pointer that may be null. *)
Definition release_if (p : bool) (r : Resource) : St unit :=
  if p then release r else ret tt.

(** ** libavutil's audio FIFO and libavformat's demuxer position *)

Definition av_audio_fifo_size : St Z := fun s => (fifo_samples s, s).

(** [av_audio_fifo_write]: stores all [n] samples and answers [n]. *)
Definition av_audio_fifo_write (n : Z) : St Z :=
  if n <? 0 then ret (AVERROR EINVAL)
  else
    size <- av_audio_fifo_size ;;
    set_fifo_samples (size + n) ;;
    emit (FifoWrite n) ;;
    ret n.

(** [av_audio_fifo_read]: hands out [min(n, size)] samples and answers how
    many. *)
Definition av_audio_fifo_read (n : Z) : St Z :=
  if n <? 0 then ret (AVERROR EINVAL)
  else
    size <- av_audio_fifo_size ;;
    let k := FFMIN n size in
    set_fifo_samples (size - k) ;;
    emit (FifoRead k) ;;
    ret k.

(** The answers for the decode call that comes next. *)
Definition current_call (f : InputFile) : St DecodeCall :=
  fun s => (match packets s with c :: _ => c | [] => at_eof f end, s).

(** [av_read_frame]: takes the next packet off the file, or reports the end
    of the file. *)
Definition av_read_frame (c : DecodeCall) : St Z :=
  fun s =>
    match packets s with
    | [] => (AVERROR_EOF, s)
    | _ :: rest =>
        (read_frame c,
         mkState (pts s) rest (encoder_calls s) (fifo_samples s) (trace s))
    end.

(** ** transcoder.cpp *)

(** A call either returns to its caller or ends in [abort()] (a failed
    [av_assert0]). *)
Inductive Outcome (A : Type) :=
| Returned (a : A)
| Aborted.
Arguments Returned {A} a.
Arguments Aborted {A}.

(** [Transcoder::openInputFile].  The result is the error code, whether
    [*inputFormatContext] is non-null on return, and [*inputCodecContext]
    ([icc] is its value on entry). *)
Definition openInputFile (f : InputFile) (icc : option CodecContext)
  : St (Z * bool * option CodecContext) :=
  let error := open_input f in
  if error <? 0 then
    diag Msg.no_open_input_file ;;
    ret (error, false, icc)
  else
    acquire InputFormatContext ;;
    (* the demuxer stands at the first packet of the file *)
    set_packets (file_packets f) ;;
    let error := find_stream_info f in
    if error <? 0 then
      diag Msg.no_open_find_stream_info ;;
      release InputFormatContext ;;
      ret (error, false, icc)
    else if negb (Z.of_nat (length (streams f)) =? 1) then
      diag Msg.expected_one_audio_input_stream ;;
      release InputFormatContext ;;
      ret (AVERROR_EXIT, false, icc)
    else if negb (match streams f with
                  | st :: _ => has_decoder st
                  | [] => false
                  end) then
      diag Msg.no_find_input_codec ;;
      release InputFormatContext ;;
      ret (AVERROR_EXIT, false, icc)
    else if negb (alloc_context f) then
      diag Msg.no_allocate_a_decoding_context ;;
      release InputFormatContext ;;
      ret (AVERROR ENOMEM, false, icc)
    else
      acquire InputCodecContext ;;
      let error := parameters_to_context f in
      if error <? 0 then
        release InputFormatContext ;;
        release InputCodecContext ;;
        ret (error, false, icc)
      else
        let error := codec_open f in
        if error <? 0 then
          diag Msg.no_open_input_codec ;;
          release InputCodecContext ;;
          release InputFormatContext ;;
          ret (error, false, icc)
        else
          ret (0, true, Some (decoder_context f)).

(** The [cleanup:] label of [openOutputFile]; [avctx] tells whether the
    encoder context has been allocated. *)
Definition openOutputFile_cleanup (avctx : bool) (error : Z)
    (occ : option CodecContext) : St (Z * bool * option CodecContext) :=
  release_if avctx OutputCodecContext ;;
  release OutputIOContext ;;
  release OutputFormatContext ;;
  ret (if error <? 0 then error else AVERROR_EXIT, false, occ).

(** [Transcoder::openOutputFile].  [ofc] and [occ] are the values of
    [*ouputFormatContext] (non-null or not) and [*ouputCodecContext] on
    entry; the result carries their values on return. *)
Definition openOutputFile (o : OutputFile) (inputCodecContext : CodecContext)
    (ofc : bool) (occ : option CodecContext)
  : St (Z * bool * option CodecContext) :=
  let error := avio_open o in
  if error <? 0 then
    diag Msg.no_open_output_file ;;
    ret (error, ofc, occ)
  else
    acquire OutputIOContext ;;
    if negb (alloc_format_context o) then
      diag Msg.no_allocate_output_format_context ;;
      ret (AVERROR ENOMEM, false, occ)
    else
      acquire OutputFormatContext ;;
      if negb (guess_format o) then
        diag Msg.no_find_output_file_format ;;
        openOutputFile_cleanup false error occ
      else if negb (strdup_url o) then
        diag Msg.no_allocate_url ;;
        openOutputFile_cleanup false (AVERROR ENOMEM) occ
      else if negb (find_encoder o) then
        diag Msg.no_find_an_aac_encoder ;;
        openOutputFile_cleanup false error occ
      else if negb (new_stream o) then
        diag Msg.no_create_new_stream ;;
        openOutputFile_cleanup false (AVERROR ENOMEM) occ
      else if negb (alloc_encoder_context o) then
        diag Msg.no_allocate_an_encoding_context ;;
        openOutputFile_cleanup false (AVERROR ENOMEM) occ
      else
        acquire OutputCodecContext ;;
        (* a new encoder: its answers are counted from its first call *)
        set_encoder_calls 0 ;;
        let avctx :=
          mkCodecContext OUTPUT_CHANNELS
                         (sample_rate inputCodecContext)
                         OUTPUT_BIT_RATE
                         true
                         (wants_global_header o)
                         0 in
        let error := encoder_open o in
        if error <? 0 then
          diag Msg.no_open_output_codec ;;
          openOutputFile_cleanup true error occ
        else
          (* the opened encoder announces its frame size *)
          let avctx :=
            mkCodecContext (channels avctx) (sample_rate avctx)
                           (bit_rate avctx) (experimental avctx)
                           (global_header avctx) (encoder_frame_size o) in
          let error := parameters_from_context o in
          if error <? 0 then
            diag Msg.no_initialize_stream_parameters ;;
            openOutputFile_cleanup true error occ
          else
            ret (0, true, Some avctx).

(** [Transcoder::initPacket] *)
Definition initPacket (ok : bool) : St (Z * bool) :=
  if negb ok then
    diag Msg.no_allocate_packet ;;
    ret (AVERROR ENOMEM, false)
  else
    acquire PacketBuf ;;
    ret (0, true).

(** [Transcoder::initInputFrame] *)
Definition initInputFrame (ok : bool) : St (Z * bool) :=
  if negb ok then
    diag Msg.no_allocate_input_frame ;;
    ret (AVERROR ENOMEM, false)
  else
    acquire FrameBuf ;;
    ret (0, true).

(** [Transcoder::initResampler].  The result is the error code and whether
    [*resampleContext] is non-null on return. *)
Definition initResampler (e : Env) (inputCodecContext outputCodecContext : CodecContext)
  : St (Outcome (Z * bool)) :=
  if negb (swr_alloc e) then
    diag Msg.no_allocate_resample_context ;;
    ret (Returned (AVERROR ENOMEM, false))
  else
    acquire ResampleContext ;;
    (* av_assert0 *)
    if negb (sample_rate outputCodecContext =? sample_rate inputCodecContext) then
      ret Aborted
    else
      let error := swr_init e in
      if error <? 0 then
        diag Msg.no_open_resample_context ;;
        release ResampleContext ;;
        ret (Returned (error, false))
      else
        ret (Returned (0, true)).

(** [Transcoder::initFifo] *)
Definition initFifo (e : Env) : St (Z * bool) :=
  if negb (fifo_alloc e) then
    diag Msg.no_allocate_fifo ;;
    ret (AVERROR ENOMEM, false)
  else
    acquire AudioFifo ;;
    set_fifo_samples 0 ;;
    ret (0, true).

(** [Transcoder::writeOutputFileHeader] *)
Definition writeOutputFileHeader (o : OutputFile) : St Z :=
  emit WriteHeader ;;
  let error := write_header o in
  if error <? 0 then
    diag Msg.no_write_output_file_header ;;
    ret error
  else
    ret 0.

(** [Transcoder::decodeAudioFrame].  [dataPresent] and [finished] are the
    values of the out-parameters on entry; the result carries their values on
    return. *)
Definition decodeAudioFrame (c : DecodeCall) (dataPresent finished : bool)
  : St (Z * bool * bool) :=
  '(error, inputPacket) <- initPacket (packet_alloc c) ;;
  if error <? 0 then
    ret (error, dataPresent, finished)
  else
    error <- av_read_frame c ;;
    if (error <? 0) && negb (error =? AVERROR_EOF) then
      diag Msg.no_read_frame ;;
      release PacketBuf ;;
      ret (error, dataPresent, finished)
    else
      finished <- (if error <? 0 then emit Finished ;; ret true
                   else ret finished) ;;
      let error := send_packet c in
      if error <? 0 then
        diag Msg.no_send_packet_for_decoding ;;
        release PacketBuf ;;
        ret (error, dataPresent, finished)
      else
        let error := receive_frame c in
        if error =? AVERROR EAGAIN then
          release PacketBuf ;;
          ret (0, dataPresent, finished)
        else if error =? AVERROR_EOF then
          emit Finished ;;
          release PacketBuf ;;
          ret (0, dataPresent, true)
        else if error <? 0 then
          diag Msg.no_decode_frame ;;
          release PacketBuf ;;
          ret (error, dataPresent, finished)
        else
          emit (FrameDecoded (nb_samples c)) ;;
          release PacketBuf ;;
          ret (error, true, finished).

(** [Transcoder::initConvertedSamples].  The result is the error code,
    whether [*convertedInputSamples] is non-null on return (it is left
    dangling when the samples cannot be allocated) and whether the block of
    samples is held. *)
Definition initConvertedSamples (c : DecodeCall) : St (Z * bool * bool) :=
  if negb (pointers_alloc c) then
    diag Msg.no_allocate_converted_input_pointers ;;
    ret (AVERROR ENOMEM, false, false)
  else
    acquire SamplePointers ;;
    let error := samples_alloc c in
    if error <? 0 then
      diag Msg.no_allocate_converted_input_samples ;;
      release SamplePointers ;;
      ret (error, true, false)
    else
      acquire SampleData ;;
      ret (0, true, true).

(** [Transcoder::convertSamples] *)
Definition convertSamples (c : DecodeCall) : St Z :=
  let error := swr_convert c in
  if error <? 0 then
    diag Msg.no_convert_input_samples ;;
    ret error
  else
    ret 0.

(** [Transcoder::addSamplesToFifo] *)
Definition addSamplesToFifo (c : DecodeCall) (frameSize : Z) : St Z :=
  let error := fifo_realloc c in
  if error <? 0 then
    diag Msg.no_reallocate_fifo ;;
    ret error
  else
    written <- av_audio_fifo_write frameSize ;;
    if written <? frameSize then
      diag Msg.no_write_data_to_fifo ;;
      ret AVERROR_EXIT
    else
      ret 0.

(** The [cleanup:] label of [readDecodeConvertAndStore]: the channel pointers
    are freed, the block of samples behind them is not. *)
Definition readDecodeConvertAndStore_cleanup
    (convertedInputSamples inputFrame : bool) (r : Z) (finished : bool)
  : St (Z * bool) :=
  release_if convertedInputSamples SamplePointers ;;
  release_if inputFrame FrameBuf ;;
  ret (r, finished).

(** [Transcoder::readDecodeConvertAndStore]; [finished] is [*finished] on
    entry, the result carries it on return. *)
Definition readDecodeConvertAndStore (f : InputFile) (finished : bool)
  : St (Z * bool) :=
  c <- current_call f ;;
  '(error, inputFrame) <- initInputFrame (frame_alloc c) ;;
  if negb (error =? 0) then
    readDecodeConvertAndStore_cleanup false inputFrame AVERROR_EXIT finished
  else
    '(error, dataPresent, finished) <- decodeAudioFrame c false finished ;;
    if negb (error =? 0) then
      readDecodeConvertAndStore_cleanup false inputFrame AVERROR_EXIT finished
    else if finished then
      readDecodeConvertAndStore_cleanup false inputFrame 0 finished
    else if dataPresent then
      '(error, convertedInputSamples, _) <- initConvertedSamples c ;;
      if negb (error =? 0) then
        readDecodeConvertAndStore_cleanup convertedInputSamples inputFrame
                                          AVERROR_EXIT finished
      else
        error <- convertSamples c ;;
        if negb (error =? 0) then
          readDecodeConvertAndStore_cleanup convertedInputSamples inputFrame
                                            AVERROR_EXIT finished
        else
          error <- addSamplesToFifo c (nb_samples c) ;;
          if negb (error =? 0) then
            readDecodeConvertAndStore_cleanup convertedInputSamples inputFrame
                                              AVERROR_EXIT finished
          else
            readDecodeConvertAndStore_cleanup convertedInputSamples inputFrame
                                              0 finished
    else
      readDecodeConvertAndStore_cleanup false inputFrame 0 finished.

(** [Transcoder::initOutputFrame] *)
Definition initOutputFrame (e : EncodeCall) (frameSize : Z) : St (Z * bool) :=
  if negb (out_frame_alloc e) then
    diag Msg.no_allocate_output_frame ;;
    ret (AVERROR_EXIT, false)
  else
    acquire FrameBuf ;;
    let error := get_buffer e in
    if error <? 0 then
      diag Msg.no_allocate_output_frame_samples ;;
      release FrameBuf ;;
      ret (error, false)
    else
      ret (0, true).

(** The answers for the encode call that comes next. *)
Definition current_encode_call (o : OutputFile) : St EncodeCall :=
  fun s => (encoder o (encoder_calls s), s).

(** [Transcoder::encodeAudioFrame].  [frame] is [None] for a null frame and
    otherwise the frame's [nb_samples]; [dataPresent] is [*dataPresent] on
    entry, the result carries it on return. *)
Definition encodeAudioFrame (o : OutputFile) (frame : option Z) (dataPresent : bool)
  : St (Z * bool) :=
  e <- current_encode_call o ;;
  n <- (fun s => (encoder_calls s, s)) ;;
  set_encoder_calls (S n) ;;
  '(error, outputPacket) <- initPacket (out_packet_alloc e) ;;
  if error <? 0 then
    ret (error, dataPresent)
  else
    match frame with
    | Some nb =>
        p <- get_pts ;;
        set_pts (wrap64 (p + nb)) ;;
        emit (SendFrame (Some (mkFrame p nb)))
    | None =>
        emit (SendFrame None)
    end ;;
    let error := send_frame e in
    if error =? AVERROR_EOF then
      release PacketBuf ;;
      ret (0, dataPresent)
    else if error <? 0 then
      diag Msg.no_send_packet_for_encoding ;;
      release PacketBuf ;;
      ret (error, dataPresent)
    else
      let error := receive_packet e in
      if error =? AVERROR EAGAIN then
        release PacketBuf ;;
        ret (0, dataPresent)
      else if error =? AVERROR_EOF then
        release PacketBuf ;;
        ret (0, dataPresent)
      else if error <? 0 then
        diag Msg.no_encode_frame ;;
        release PacketBuf ;;
        ret (error, dataPresent)
      else
        emit WritePacket ;;
        let error := write_frame e in
        if error <? 0 then
          diag Msg.no_write_frame ;;
          release PacketBuf ;;
          ret (error, true)
        else
          release PacketBuf ;;
          ret (error, true).

(** [Transcoder::loadEncodeAndWrite].  ([dataWritten] is passed
    uninitialised; its value is only ever overwritten.) *)
Definition loadEncodeAndWrite (o : OutputFile) (outputCodecContext : CodecContext)
  : St Z :=
  size <- av_audio_fifo_size ;;
  let frame_size := FFMIN size (frame_size outputCodecContext) in
  e <- current_encode_call o ;;
  '(error, outputFrame) <- initOutputFrame e frame_size ;;
  if negb (error =? 0) then
    ret AVERROR_EXIT
  else
    got <- av_audio_fifo_read frame_size ;;
    if got <? frame_size then
      diag Msg.no_read_data_from_fifo ;;
      release FrameBuf ;;
      ret AVERROR_EXIT
    else
      '(error, dataWritten) <- encodeAudioFrame o (Some frame_size) false ;;
      if negb (error =? 0) then
        release FrameBuf ;;
        ret AVERROR_EXIT
      else
        release FrameBuf ;;
        ret 0.

(** [Transcoder::writeOutputFileTrailer] *)
Definition writeOutputFileTrailer (o : OutputFile) : St Z :=
  emit WriteTrailer ;;
  let error := write_trailer o in
  if error <? 0 then
    diag Msg.no_write_output_file_trailer ;;
    ret error
  else
    ret 0.

(** *** The loops of [processInput]

    Each loop takes fuel; [None] means the fuel ran out before the loop
    ended.  A loop's result is [0] when it ended by its condition or a
    [break], and the non-zero code of the failed call when it left through
    [goto cleanup]. *)

(** [while (av_audio_fifo_size(fifo) < output_frame_size)] *)
Fixpoint fill_loop (fuel : nat) (f : InputFile) (output_frame_size : Z)
    (finished : bool) (s : State) : option (Z * bool * State) :=
  match fuel with
  | O => None
  | S fuel' =>
      if fifo_samples s <? output_frame_size then
        let '(r, finished, s) := readDecodeConvertAndStore f finished s in
        if negb (r =? 0) then Some (r, finished, s)
        else if finished then Some (0, finished, s)
        else fill_loop fuel' f output_frame_size finished s
      else Some (0, finished, s)
  end.

(** [while (av_audio_fifo_size(fifo) >= output_frame_size ||
           (finished && av_audio_fifo_size(fifo) > 0))] *)
Definition drain_condition (output_frame_size : Z) (finished : bool)
    (s : State) : bool :=
  (output_frame_size <=? fifo_samples s) || (finished && (0 <? fifo_samples s)).

Fixpoint drain_loop (fuel : nat) (o : OutputFile) (occ : CodecContext)
    (output_frame_size : Z) (finished : bool) (s : State)
  : option (Z * State) :=
  match fuel with
  | O => None
  | S fuel' =>
      if drain_condition output_frame_size finished s then
        let '(r, s) := loadEncodeAndWrite o occ s in
        if negb (r =? 0) then Some (r, s)
        else drain_loop fuel' o occ output_frame_size finished s
      else Some (0, s)
  end.

(** [do { data_written = 0; ... } while (data_written);] *)
Fixpoint flush_loop (fuel : nat) (o : OutputFile) (s : State)
  : option (Z * State) :=
  match fuel with
  | O => None
  | S fuel' =>
      let '(r, data_written, s) := encodeAudioFrame o None false s in
      if negb (r =? 0) then Some (r, s)
      else if data_written then flush_loop fuel' o s
      else Some (0, s)
  end.

(** [while (1)] *)
Fixpoint main_loop (fuel : nat) (e : Env) (occ : CodecContext) (s : State)
  : option (Z * State) :=
  match fuel with
  | O => None
  | S fuel' =>
      let output_frame_size := frame_size occ in
      match fill_loop fuel' (input e) output_frame_size false s with
      | None => None
      | Some (r, finished, s) =>
          if negb (r =? 0) then Some (r, s)
          else
            match drain_loop fuel' (output e) occ output_frame_size finished s with
            | None => None
            | Some (r, s) =>
                if negb (r =? 0) then Some (r, s)
                else if finished then flush_loop fuel' (output e) s
                else main_loop fuel' e occ s
            end
      end
  end.

Definition is_set {A} (p : option A) : bool :=
  match p with Some _ => true | None => false end.

(** The [cleanup:] label of [processInput]. *)
Definition processInput_cleanup (fifo resampleContext : bool)
    (outputCodecContext : option CodecContext) (outputFormatContext : bool)
    (inputCodecContext : option CodecContext) (inputFormatContext : bool)
    (r : Z) : St Z :=
  release_if fifo AudioFifo ;;
  release_if resampleContext ResampleContext ;;
  release_if (is_set outputCodecContext) OutputCodecContext ;;
  (if outputFormatContext then
     release OutputIOContext ;;
     release OutputFormatContext
   else ret tt) ;;
  release_if (is_set inputCodecContext) InputCodecContext ;;
  release_if inputFormatContext InputFormatContext ;;
  ret r.

Definition returned {A} (x : A * State) : option (Outcome A * State) :=
  Some (Returned (fst x), snd x).

(** [Transcoder::processInput].  A null codec context is never dereferenced
    (see [openInputFile_spec] and [openOutputFile_spec]: a return of 0 comes
    with the context set); the branches that would do so are marked
    [Aborted]. *)
Definition processInput (fuel : nat) (e : Env) (s : State)
  : option (Outcome Z * State) :=
  let '(r, inputFormatContext, icc, s) := openInputFile (input e) None s in
  if negb (r =? 0) then
    returned (processInput_cleanup false false None false
                                   icc inputFormatContext AVERROR_EXIT s)
  else
  match icc with
  | None => Some (Aborted, s)
  | Some inputCodecContext =>
  let '(r, outputFormatContext, occ, s) :=
    openOutputFile (output e) inputCodecContext false None s in
  if negb (r =? 0) then
    returned (processInput_cleanup false false occ outputFormatContext
                                   icc inputFormatContext AVERROR_EXIT s)
  else
  match occ with
  | None => Some (Aborted, s)
  | Some outputCodecContext =>
  match initResampler e inputCodecContext outputCodecContext s with
  | (Aborted, s) => Some (Aborted, s)
  | (Returned (r, resampleContext), s) =>
  if negb (r =? 0) then
    returned (processInput_cleanup false resampleContext occ outputFormatContext
                                   icc inputFormatContext AVERROR_EXIT s)
  else
  let '(r, fifo, s) := initFifo e s in
  if negb (r =? 0) then
    returned (processInput_cleanup fifo resampleContext occ outputFormatContext
                                   icc inputFormatContext AVERROR_EXIT s)
  else
  let '(r, s) := writeOutputFileHeader (output e) s in
  if negb (r =? 0) then
    returned (processInput_cleanup fifo resampleContext occ outputFormatContext
                                   icc inputFormatContext AVERROR_EXIT s)
  else
  match main_loop fuel e outputCodecContext s with
  | None => None
  | Some (r, s) =>
  if negb (r =? 0) then
    returned (processInput_cleanup fifo resampleContext occ outputFormatContext
                                   icc inputFormatContext AVERROR_EXIT s)
  else
  let '(r, s) := writeOutputFileTrailer (output e) s in
  if negb (r =? 0) then
    returned (processInput_cleanup fifo resampleContext occ outputFormatContext
                                   icc inputFormatContext AVERROR_EXIT s)
  else
    returned (processInput_cleanup fifo resampleContext occ outputFormatContext
                                   icc inputFormatContext 0 s)
  end
  end
  end
  end.

(** How the process ends. *)
Inductive ProcessEnd :=
| ExitCalled (status : Z)       (* exit(status) *)
| MainReturned (status : Z)     (* return from main *)
| AbortCalled.                  (* abort() *)

(** [Transcoder::Transcoder]: [inl] when the constructor ends the process,
    [inr] when it returns. *)
Definition Transcoder_new (fuel : nat) (e : Env) (s : State)
  : option ((ProcessEnd + unit) * State) :=
  match processInput fuel e s with
  | None => None
  | Some (Aborted, s) => Some (inl AbortCalled, s)
  | Some (Returned r, s) =>
      if r =? 0 then
        let '(_, s) := emit (Info Msg.file_has_been_created_successfully) s in
        Some (inl (ExitCalled 0), s)
      else Some (inr tt, s)
  end.

(** [main] (main.cpp), run in a fresh process. *)
Definition main (fuel : nat) (argc : Z) (e : Env) : option (ProcessEnd * State) :=
  if negb (argc =? 3) then
    let '(_, s) := (diag Msg.usage_input_file_output_file ;;
                    diag Msg.usage_example)
                     process_start in
    Some (ExitCalled 1, s)
  else
    match Transcoder_new fuel e process_start with
    | None => None
    | Some (inl stop, s) => Some (stop, s)
    | Some (inr _, s) => Some (MainReturned 0, s)
    end.

(** ** Reading a trace *)

(** The frames handed to [avcodec_send_frame], in order. *)
Definition submitted (evs : list Event) : list Frame :=
  flat_map (fun ev => match ev with SendFrame (Some f) => [f] | _ => [] end) evs.

Definition sum_samples (l : list Frame) : Z :=
  fold_right (fun f acc => frame_samples f + acc) 0 l.

Definition submitted_samples (evs : list Event) : Z := sum_samples (submitted evs).

(** Samples the decoder handed out, samples that entered the FIFO and samples
    that left it. *)
Definition decoded_samples (evs : list Event) : Z :=
  fold_right (fun ev acc => match ev with FrameDecoded n => n + acc | _ => acc end) 0 evs.

Definition stored_samples (evs : list Event) : Z :=
  fold_right (fun ev acc => match ev with FifoWrite n => n + acc | _ => acc end) 0 evs.

Definition loaded_samples (evs : list Event) : Z :=
  fold_right (fun ev acc => match ev with FifoRead n => n + acc | _ => acc end) 0 evs.

(** The trace without the bookkeeping of memory and the diagnostics. *)
Definition is_core (ev : Event) : bool :=
  match ev with
  | Acquire _ | Release _ | Diagnostic _ | Info _ => false
  | _ => true
  end.

Definition core (evs : list Event) : list Event := filter is_core evs.

Definition is_diagnostic (ev : Event) : bool :=
  match ev with Diagnostic _ => true | _ => false end.

Definition diagnostics (evs : list Event) : list Event := filter is_diagnostic evs.

(** The pts chain: each frame carries the running value, which then advances
    by the frame's samples. *)
Fixpoint stamped_from (p : Z) (l : list Frame) : Prop :=
  match l with
  | [] => True
  | f :: l' => frame_pts f = p /\ stamped_from (wrap64 (p + frame_samples f)) l'
  end.

Fixpoint pts_after (p : Z) (l : list Frame) : Z :=
  match l with
  | [] => p
  | f :: l' => pts_after (wrap64 (p + frame_samples f)) l'
  end.

Fixpoint increasing (l : list Z) : Prop :=
  match l with
  | [] => True
  | x :: l' => match l' with [] => True | y :: _ => x < y end /\ increasing l'
  end.

(** *** The ledger of owned objects *)

Definition resource_id (r : Resource) : nat :=
  match r with
  | InputFormatContext => 0
  | InputCodecContext => 1
  | OutputIOContext => 2
  | OutputFormatContext => 3
  | OutputCodecContext => 4
  | ResampleContext => 5
  | AudioFifo => 6
  | PacketBuf => 7
  | FrameBuf => 8
  | SamplePointers => 9
  | SampleData => 10
  end%nat.

Definition same_resource (a b : Resource) : bool :=
  Nat.eqb (resource_id a) (resource_id b).

Fixpoint take_out (r : Resource) (held : list Resource) : option (list Resource) :=
  match held with
  | [] => None
  | h :: held' =>
      if same_resource r h then Some held'
      else match take_out r held' with
           | Some rest => Some (h :: rest)
           | None => None
           end
  end.

(** [owned held evs]: the objects held after [evs], starting from [held];
    [None] when [evs] releases an object that is not held. *)
Fixpoint owned (held : list Resource) (evs : list Event) : option (list Resource) :=
  match evs with
  | [] => Some held
  | Acquire r :: evs' => owned (r :: held) evs'
  | Release r :: evs' =>
      match take_out r held with
      | Some held' => owned held' evs'
      | None => None
      end
  | _ :: evs' => owned held evs'
  end.

(** The releases of a trace, in order. *)
Definition releases (evs : list Event) : list Resource :=
  flat_map (fun ev => match ev with Release r => [r] | _ => [] end) evs.

(** *** Contexts and buffers, apart from the converted samples

    The ledger read without the channel pointers and the block of samples
    behind them, which [readDecodeConvertAndStore] handles on its own. *)

Definition is_sample_buffer (r : Resource) : bool :=
  match r with SamplePointers | SampleData => true | _ => false end.

Definition without_sample_buffers (evs : list Event) : list Event :=
  filter (fun ev => match ev with
                    | Acquire r | Release r => negb (is_sample_buffer r)
                    | _ => true
                    end) evs.

(** What is held after [evs] of the contexts, packets and frames, starting
    from [held]. *)
Definition held_after (held : list Resource) (evs : list Event)
  : option (list Resource) :=
  owned held (without_sample_buffers evs).

(** What [processInput] holds when it reaches its [cleanup:] label, as the
    pointers it tests there tell. *)
Definition held_at_cleanup (fifo resampleContext outputCodecContext
    outputFormatContext inputCodecContext inputFormatContext : bool)
  : list Resource :=
  (if fifo then [AudioFifo] else []) ++
  (if resampleContext then [ResampleContext] else []) ++
  (if outputCodecContext then [OutputCodecContext] else []) ++
  (if outputFormatContext then [OutputFormatContext; OutputIOContext] else []) ++
  (if inputCodecContext then [InputCodecContext] else []) ++
  (if inputFormatContext then [InputFormatContext] else []).

(** The call of the main loop that failed with [r], from [s0] to [s']:
    [readDecodeConvertAndStore], [loadEncodeAndWrite] or the flushing
    [encodeAudioFrame]. *)
Definition failed_call (e : Env) (occ : CodecContext) (r : Z)
    (s0 s' : State) : Prop :=
  (exists fin', readDecodeConvertAndStore (input e) false s0 = (r, fin', s')) \/
  loadEncodeAndWrite (output e) occ s0 = (r, s') \/
  (exists dw, encodeAudioFrame (output e) None false s0 = (r, dw, s')).

(** *** The samples of a file and the level of the FIFO *)

(** The samples of the frames the decoder hands out for the packets [l]: a
    packet brings a frame when [avcodec_receive_frame] answers 0 or more. *)
Definition file_samples (l : list DecodeCall) : Z :=
  fold_right (fun c acc =>
                (if 0 <=? receive_frame c then nb_samples c else 0) + acc) 0 l.

(** A packet that is read without error, whose frame has no negative number
    of samples, and at which the decoder does not announce its end. *)
Definition plain_packet (c : DecodeCall) : Prop :=
  0 <= read_frame c /\ 0 <= nb_samples c /\ receive_frame c <> AVERROR_EOF.

(** The samples in the FIFO after [evs], when it was empty before. *)
Definition fifo_level (evs : list Event) : Z :=
  stored_samples evs - loaded_samples evs.

Definition touches_fifo (ev : Event) : bool :=
  match ev with FifoWrite _ | FifoRead _ => true | _ => false end.

(** [level_within lo hi l evs]: starting from [l] samples, the FIFO holds at
    least [lo] and less than [hi] samples after every event of [evs]. *)
Definition level_within (lo hi l : Z) (evs : list Event) : Prop :=
  forall p q, evs = p ++ q -> lo <= l + fifo_level p < hi.

(** *** What one call does to the state *)

(** The events the filling side of the pipeline leaves in the core trace. *)
Definition is_fill_event (ev : Event) : bool :=
  match ev with Finished | FrameDecoded _ | FifoWrite _ => true | _ => false end.

(** The running pts after a frame of [nb] samples, or after a flush. *)
Definition advance (p : Z) (frame : option Z) : Z :=
  match frame with Some nb => wrap64 (p + nb) | None => p end.

(** [fill_step s evs s']: a step of the filling side.  It adds [evs] to the
    trace, leaves [pts] and the encoder alone, and the FIFO grows by what
    [evs] stores. *)
Definition fill_step (s : State) (evs : list Event) (s' : State) : Prop :=
  trace s' = trace s ++ evs /\
  pts s' = pts s /\
  encoder_calls s' = encoder_calls s /\
  forallb is_fill_event (core evs) = true /\
  fifo_samples s' = fifo_samples s + stored_samples evs /\
  0 <= stored_samples evs.

(** The events the draining side and the flush leave in the core trace. *)
Definition is_drain_event (ev : Event) : bool :=
  match ev with
  | FifoRead _ | SendFrame (Some _) | WritePacket => true
  | _ => false
  end.

Definition is_flush_event (ev : Event) : bool :=
  match ev with SendFrame None | WritePacket => true | _ => false end.

Definition is_loop_event (ev : Event) : bool :=
  is_fill_event ev || is_drain_event ev || is_flush_event ev.

(** The core trace of a flush that ends well: [k] null frames that each
    brought a packet to write, then one that brought none. *)
Definition flush_core (k : nat) : list Event :=
  concat (repeat [SendFrame None; WritePacket] k) ++ [SendFrame None].

(** The frames one run of the draining loop sends: each holds between one
    sample and a full encoder frame, and a frame that is not full is the
    last one and needs [finished]. *)
Fixpoint frames_ok (fs : Z) (finished : bool) (l : list Frame) : Prop :=
  match l with
  | [] => True
  | f :: l' =>
      0 < frame_samples f <= fs /\
      (frame_samples f < fs -> l' = [] /\ finished = true) /\
      frames_ok fs finished l'
  end.

(** [pts_step s evs s']: a step that adds [evs] to the trace, stamps the
    frames it submits with the running pts of [s] onwards, and leaves the
    running pts where the last frame put it. *)
Definition pts_step (s : State) (evs : list Event) (s' : State) : Prop :=
  trace s' = trace s ++ evs /\
  stamped_from (pts s) (submitted evs) /\
  pts s' = pts_after (pts s) (submitted evs).

(** Each frame starts where the one before it ended. *)
Fixpoint contiguous (l : list Frame) : Prop :=
  match l with
  | [] => True
  | f :: l' =>
      match l' with
      | [] => True
      | g :: _ => frame_pts g = frame_pts f + frame_samples f
      end /\ contiguous l'
  end.

(** The state a run of [processInput] ends in ([s] itself when the fuel does
    not suffice). *)
Definition final_state (fuel : nat) (e : Env) (s : State) : State :=
  match processInput fuel e s with
  | Some (_, s') => s'
  | None => s
  end.

(** ** Scenarios *)

Module Scenario.

(** A packet that decodes to a frame of [n] samples. *)
Definition packet_of (n : Z) : DecodeCall :=
  mkDecodeCall true true 0 0 0 n true 0 0 0.

(** A packet the decoder takes while asking for more before it hands out a
    frame. *)
Definition packet_buffered : DecodeCall :=
  mkDecodeCall true true 0 0 (AVERROR EAGAIN) 0 true 0 0 0.

(** At the end of the file: a decoder with nothing left. *)
Definition eof_drained : DecodeCall :=
  mkDecodeCall true true 0 0 AVERROR_EOF 0 true 0 0 0.

(** At the end of the file: a decoder that still holds a frame of [n]
    samples and hands it out when it is flushed. *)
Definition eof_delayed (n : Z) : DecodeCall :=
  mkDecodeCall true true 0 0 0 n true 0 0 0.

(** A packet for which the block of converted samples cannot be allocated. *)
Definition packet_no_samples (n : Z) : DecodeCall :=
  mkDecodeCall true true 0 0 0 n true (AVERROR ENOMEM) 0 0.

(** An encoder call that yields a packet, and one that yields none. *)
Definition encode_packet : EncodeCall := mkEncodeCall true 0 true 0 0 0.
Definition encode_nothing : EncodeCall := mkEncodeCall true 0 true 0 AVERROR_EOF 0.

(** The decoder context of a mono stream at 44100 Hz, frames of 1152 samples. *)
Definition mono_44100 : CodecContext :=
  mkCodecContext 1 44100 128000 false false 1152.

Definition audio_file (pk : list DecodeCall) (eof : DecodeCall) : InputFile :=
  mkInputFile 0 0 [mkStream MediaAudio true] true 0 0 mono_44100 pk eof.

(** A file whose only stream is video, with a decoder at hand. *)
Definition video_file : InputFile :=
  mkInputFile 0 0 [mkStream MediaVideo true] true 0 0 mono_44100 [] eof_drained.

(** A file in which no stream is found. *)
Definition empty_file : InputFile :=
  mkInputFile 0 0 [] true 0 0 mono_44100 [] eof_drained.

(** An audio file whose codec parameters cannot be copied into the decoder
    context. *)
Definition unconfigurable_file : InputFile :=
  mkInputFile 0 0 [mkStream MediaAudio true] true (AVERROR ENOMEM) 0
              mono_44100 [] eof_drained.

(** An MP4 output; the AAC encoder (frame size 1024) yields a packet on each
    of its first [n] calls. *)
Definition mp4_file (n : nat) : OutputFile :=
  mkOutputFile 0 true true true true true true true 0 1024 0 0 0
               (fun k => if Nat.ltb k n then encode_packet else encode_nothing).

(** The same, when the trailer cannot be written. *)
Definition mp4_file_no_trailer (n : nat) : OutputFile :=
  mkOutputFile 0 true true true true true true true 0 1024 0 0 (-5)
               (fun k => if Nat.ltb k n then encode_packet else encode_nothing).

(** The same, when the format context cannot be allocated. *)
Definition mp4_file_no_context : OutputFile :=
  mkOutputFile 0 false true true true true true true 0 1024 0 0 0
               (fun _ => encode_nothing).

Definition environment (i : InputFile) (o : OutputFile) : Env :=
  mkEnv i o true 0 true.

(** Two frames of 1152 samples, transcoded without incident. *)
Definition plain : Env :=
  environment (audio_file [packet_of 1152; packet_of 1152] eof_drained)
              (mp4_file 3).

(** A decoder that runs one packet behind: the first packet yields nothing,
    and the last frame comes out when the decoder is flushed at the end of
    the file. *)
Definition one_behind : Env :=
  environment (audio_file [packet_buffered; packet_of 1152; packet_of 1152]
                          (eof_delayed 1152))
              (mp4_file 3).

Definition no_format_context : Env :=
  environment (audio_file [packet_of 1152] eof_drained) mp4_file_no_context.

Definition no_sample_block : Env :=
  environment (audio_file [packet_no_samples 1152] eof_drained) (mp4_file 3).

Definition silent_failure : Env :=
  environment unconfigurable_file (mp4_file 3).

Definition no_trailer : Env :=
  environment (audio_file [packet_of 1152; packet_of 1152] eof_drained)
              (mp4_file_no_trailer 3).

(** An output whose encoder takes frames of any size (it announces a frame
    size of 0), and for which no frame can be allocated. *)
Definition any_frame_size_file : OutputFile :=
  mkOutputFile 0 true true true true true true true 0 0 0 0 0
               (fun _ => mkEncodeCall false 0 true 0 0 0).

Definition any_frame_size : Env :=
  environment (audio_file [packet_of 1152] eof_drained) any_frame_size_file.

End Scenario.

(** * Properties *)

(** ** Traces *)

Lemma core_app a b : core (a ++ b) = core a ++ core b.
Proof. apply filter_app. Qed.

Lemma submitted_app a b : submitted (a ++ b) = submitted a ++ submitted b.
Proof. apply flat_map_app. Qed.

Lemma stored_samples_app a b :
  stored_samples (a ++ b) = stored_samples a + stored_samples b.
Proof.
  induction a as [|ev a IH]; cbn; [reflexivity|].
  fold (stored_samples (a ++ b)) (stored_samples a).
  destruct ev; lia.
Qed.

Lemma loaded_samples_app a b :
  loaded_samples (a ++ b) = loaded_samples a + loaded_samples b.
Proof.
  induction a as [|ev a IH]; cbn; [reflexivity|].
  fold (loaded_samples (a ++ b)) (loaded_samples a).
  destruct ev; lia.
Qed.

Lemma decoded_samples_app a b :
  decoded_samples (a ++ b) = decoded_samples a + decoded_samples b.
Proof.
  induction a as [|ev a IH]; cbn; [reflexivity|].
  fold (decoded_samples (a ++ b)) (decoded_samples a).
  destruct ev; lia.
Qed.

Lemma sum_samples_app a b : sum_samples (a ++ b) = sum_samples a + sum_samples b.
Proof.
  induction a as [|f a IH]; cbn; [reflexivity|].
  fold (sum_samples (a ++ b)) (sum_samples a). lia.
Qed.

Lemma submitted_core evs : submitted (core evs) = submitted evs.
Proof.
  induction evs as [|ev evs IH]; [reflexivity|].
  destruct ev; cbn; fold (core evs); fold (submitted (core evs));
    fold (submitted evs); rewrite ?IH; reflexivity.
Qed.

Lemma stored_samples_core evs : stored_samples (core evs) = stored_samples evs.
Proof.
  induction evs as [|ev evs IH]; [reflexivity|].
  destruct ev; cbn; fold (core evs); fold (stored_samples (core evs));
    fold (stored_samples evs); rewrite ?IH; reflexivity.
Qed.

Lemma loaded_samples_core evs : loaded_samples (core evs) = loaded_samples evs.
Proof.
  induction evs as [|ev evs IH]; [reflexivity|].
  destruct ev; cbn; fold (core evs); fold (loaded_samples (core evs));
    fold (loaded_samples evs); rewrite ?IH; reflexivity.
Qed.

Lemma in_core ev evs : is_core ev = true -> (In ev (core evs) <-> In ev evs).
Proof.
  intros Hc. unfold core. rewrite filter_In. tauto.
Qed.

Lemma fill_events_submitted evs :
  forallb is_fill_event evs = true -> submitted evs = [].
Proof.
  induction evs as [|ev evs IH]; [reflexivity|].
  cbn. intros H. apply andb_true_iff in H as [He Hr].
  destruct ev; try discriminate; cbn; auto.
Qed.

Lemma fill_events_loaded evs :
  forallb is_fill_event evs = true -> loaded_samples evs = 0.
Proof.
  induction evs as [|ev evs IH]; [reflexivity|].
  cbn. intros H. apply andb_true_iff in H as [He Hr].
  fold (loaded_samples evs). destruct ev; try discriminate; auto.
Qed.

(** ** Arithmetic of the helpers *)

Lemma FFMIN_min a b : FFMIN a b = Z.min a b.
Proof.
  unfold FFMIN.
  destruct (b <? a) eqn:E; [apply Z.ltb_lt in E | apply Z.ltb_ge in E]; lia.
Qed.

Lemma min_absorb a b : Z.min (Z.min a b) a = Z.min a b.
Proof. lia. Qed.

Lemma wrap64_small z : - 2 ^ 63 <= z < 2 ^ 63 -> wrap64 z = z.
Proof.
  intros H. unfold wrap64. rewrite Z.mod_small; lia.
Qed.

(** ** Symbolic execution of the straight-line functions *)

Ltac st_unfold H :=
  cbv [initPacket initInputFrame av_audio_fifo_write av_audio_fifo_read
    av_audio_fifo_size current_call av_read_frame current_encode_call
    release_if acquire release diag get_pts set_pts set_packets
    set_encoder_calls set_fifo_samples emit bind ret
    trace pts packets encoder_calls fifo_samples] in H.

Ltac split_ifs :=
  repeat match goal with
  | H : context [if ?c then _ else _] |- _ => destruct c eqn:?
  | H : context [match ?x with Some _ => _ | None => _ end] |- _ => destruct x eqn:?
  | H : context [match ?x with nil => _ | cons _ _ => _ end] |- _ => destruct x eqn:?
  end.

Ltac to_prop :=
  repeat match goal with
  | H : negb _ = true |- _ => apply negb_true_iff in H
  | H : negb _ = false |- _ => apply negb_false_iff in H
  | H : (_ && _) = true |- _ => apply andb_true_iff in H; destruct H
  | H : (_ || _) = false |- _ => apply orb_false_iff in H; destruct H
  | H : (_ <? _) = true |- _ => apply Z.ltb_lt in H
  | H : (_ <? _) = false |- _ => apply Z.ltb_ge in H
  | H : (_ <=? _) = true |- _ => apply Z.leb_le in H
  | H : (_ <=? _) = false |- _ => apply Z.leb_gt in H
  | H : (_ =? _) = true |- _ => apply Z.eqb_eq in H
  | H : (_ =? _) = false |- _ => apply Z.eqb_neq in H
  end;
  rewrite ?FFMIN_min in *; rewrite ?min_absorb in *;
  unfold AVERROR_EOF, AVERROR_EXIT, AVERROR, ENOMEM, EAGAIN, EINVAL in *.

Ltac finish_path :=
  match goal with
  | H : (_, _) = (_, _) |- _ => inversion H; subst; clear H
  end; cbn [trace pts packets encoder_calls fifo_samples];
  eexists; split; [ rewrite <- ?app_assoc; cbn [app]; reflexivity | ].

Ltac easy_goal :=
  solve [ repeat split; cbn; auto; try lia; try congruence ].

Ltac pick :=
  first [ easy_goal | split; [easy_goal | pick] | left; pick | right; pick ].

Ltac paths := split_ifs; to_prop; try (exfalso; lia); finish_path.

Lemma encodeAudioFrame_spec o frame dp s r dp' s' :
  encodeAudioFrame o frame dp s = (r, dp', s') ->
  exists evs, trace s' = trace s ++ evs /\
    packets s' = packets s /\ fifo_samples s' = fifo_samples s /\
    encoder_calls s' = S (encoder_calls s) /\
    (core evs = [] /\ pts s' = pts s /\ r <> 0 /\ dp' = dp
     \/ core evs = [SendFrame (option_map (mkFrame (pts s)) frame)] /\
        pts s' = advance (pts s) frame /\ dp' = dp
     \/ core evs = [SendFrame (option_map (mkFrame (pts s)) frame); WritePacket] /\
        pts s' = advance (pts s) frame /\ dp' = true /\
        0 <= receive_packet (encoder o (encoder_calls s))).
Proof.
  intros H. unfold encodeAudioFrame in H.
  destruct s as [p0 pk0 ec0 fz0 tr0]. st_unfold H. paths.
  all: do 3 (split; [reflexivity|]); pick.
Qed.

Lemma loadEncodeAndWrite_spec o occ s r s' :
  loadEncodeAndWrite o occ s = (r, s') ->
  0 < frame_size occ -> 0 < fifo_samples s ->
  let n := FFMIN (fifo_samples s) (frame_size occ) in
  exists evs, trace s' = trace s ++ evs /\
    packets s' = packets s /\
    (core evs = [] /\ pts s' = pts s /\ fifo_samples s' = fifo_samples s /\ r <> 0
     \/ fifo_samples s' = fifo_samples s - n /\
        (core evs = [FifoRead n] /\ pts s' = pts s /\ r <> 0
         \/ pts s' = wrap64 (pts s + n) /\
            (core evs = [FifoRead n; SendFrame (Some (mkFrame (pts s) n))]
             \/ core evs = [FifoRead n; SendFrame (Some (mkFrame (pts s) n)); WritePacket]))).
Proof.
  intros H Hfs Hsz.
  unfold loadEncodeAndWrite, encodeAudioFrame, initOutputFrame in H.
  destruct s as [p0 pk0 ec0 fz0 tr0]. st_unfold H.
  cbn [fifo_samples pts trace packets] in *.
  paths; rewrite ?FFMIN_min, ?min_absorb.
  all: split; [reflexivity|]; pick.
Qed.

(** ** The filling side, call by call *)

Lemma fill_step_refl s : fill_step s [] s.
Proof.
  unfold fill_step. rewrite app_nil_r. cbn. repeat split; auto; lia.
Qed.

Lemma fill_step_trans s1 e1 s2 e2 s3 :
  fill_step s1 e1 s2 -> fill_step s2 e2 s3 -> fill_step s1 (e1 ++ e2) s3.
Proof.
  unfold fill_step.
  intros (T1 & P1 & E1 & C1 & F1 & N1) (T2 & P2 & E2 & C2 & F2 & N2).
  rewrite core_app, forallb_app, stored_samples_app, app_assoc.
  repeat split; try congruence; try lia.
  now rewrite C1, C2.
Qed.

Ltac fill_path :=
  match goal with
  | H : (_, _) = (_, _) |- _ => inversion H; subst; clear H
  end;
  eexists; split;
  [ unfold fill_step; cbn [trace pts packets encoder_calls fifo_samples];
    split; [ rewrite <- ?app_assoc; cbn [app]; try reflexivity;
             symmetry; apply app_nil_r
           | repeat split; cbn; auto; try lia ]
  | ].

Lemma initInputFrame_spec ok s r p s' :
  initInputFrame ok s = (r, p, s') ->
  exists evs, fill_step s evs s' /\ packets s' = packets s /\
    core evs = [] /\ (r = 0 \/ p = false).
Proof.
  intros H. destruct s as [p0 pk0 ec0 fz0 tr0]. st_unfold H.
  split_ifs; to_prop; fill_path; repeat split; cbn; auto.
Qed.

Lemma decodeAudioFrame_spec c dp fin s r dp' fin' s' :
  decodeAudioFrame c dp fin s = (r, dp', fin', s') ->
  exists evs, fill_step s evs s' /\
    stored_samples evs = 0 /\
    (fin' = true -> fin = true \/ In Finished evs) /\
    (fin = true -> fin' = true) /\
    (r = 0 -> fin' = false -> exists c0, packets s = c0 :: packets s') /\
    (r = 0 -> dp' = true -> dp = true \/
       decoded_samples evs = nb_samples c /\ 0 <= receive_frame c) /\
    (dp' = false -> decoded_samples evs = 0).
Proof.
  intros H. unfold decodeAudioFrame in H.
  destruct s as [p0 pk0 ec0 fz0 tr0]. st_unfold H.
  split_ifs; to_prop; try (exfalso; lia); fill_path.
  all: cbn [packets]; repeat split; cbn; auto; try lia; try congruence; eauto.
Qed.

Lemma initConvertedSamples_spec c s r p d s' :
  initConvertedSamples c s = (r, p, d, s') ->
  exists evs, fill_step s evs s' /\ packets s' = packets s /\ core evs = [].
Proof.
  intros H. unfold initConvertedSamples in H.
  destruct s as [p0 pk0 ec0 fz0 tr0]. st_unfold H.
  split_ifs; to_prop; fill_path; repeat split; cbn; auto.
Qed.

Lemma convertSamples_spec c s r s' :
  convertSamples c s = (r, s') ->
  exists evs, fill_step s evs s' /\ packets s' = packets s /\ core evs = [].
Proof.
  intros H. unfold convertSamples in H.
  destruct s as [p0 pk0 ec0 fz0 tr0]. st_unfold H.
  split_ifs; to_prop; fill_path; repeat split; cbn; auto.
Qed.

Lemma addSamplesToFifo_spec c n s r s' :
  addSamplesToFifo c n s = (r, s') ->
  exists evs, fill_step s evs s' /\ packets s' = packets s /\
    decoded_samples evs = 0 /\ ~ In Finished evs /\
    (r = 0 -> 0 <= n -> stored_samples evs = n).
Proof.
  intros H. unfold addSamplesToFifo in H.
  destruct s as [p0 pk0 ec0 fz0 tr0]. st_unfold H.
  split_ifs; to_prop; try (exfalso; lia); fill_path.
  all: repeat split; cbn; auto; try lia; try tauto.
  all: intuition discriminate.
Qed.

Lemma readDecodeConvertAndStore_cleanup_spec p q r fin s x s' :
  readDecodeConvertAndStore_cleanup p q r fin s = (x, s') ->
  x = (r, fin) /\
  exists evs, fill_step s evs s' /\ packets s' = packets s /\ core evs = [].
Proof.
  intros H. unfold readDecodeConvertAndStore_cleanup in H.
  destruct s as [p0 pk0 ec0 fz0 tr0]. st_unfold H.
  destruct p, q; inversion H; subst; clear H; (split; [reflexivity|]);
    eexists; (split; [ unfold fill_step; cbn [trace pts packets encoder_calls fifo_samples];
      split; [ rewrite <- ?app_assoc; cbn [app]; try reflexivity;
               symmetry; apply app_nil_r
             | repeat split; cbn; auto; try lia ] | ]); cbn; auto.
Qed.

Lemma decoded_samples_core evs : decoded_samples (core evs) = decoded_samples evs.
Proof.
  induction evs as [|ev evs IH]; [reflexivity|].
  destruct ev; cbn; fold (core evs); fold (decoded_samples (core evs));
    fold (decoded_samples evs); rewrite ?IH; reflexivity.
Qed.

Lemma core_nil_facts evs :
  core evs = [] ->
  decoded_samples evs = 0 /\ stored_samples evs = 0 /\ ~ In Finished evs.
Proof.
  intros H. rewrite <- decoded_samples_core, <- stored_samples_core, H.
  repeat split. intros Hin. apply (in_core Finished evs eq_refl) in Hin.
  rewrite H in Hin. destruct Hin.
Qed.

Ltac rdcas_end :=
  match goal with
  | H : readDecodeConvertAndStore_cleanup _ _ _ _ _ = _ |- _ =>
      let Hx := fresh "Hx" in
      apply readDecodeConvertAndStore_cleanup_spec in H as (Hx & evc & Sc & Kc & Cc);
      apply core_nil_facts in Cc as (Dc & Wc & Fc);
      inversion Hx; subst; clear Hx
  end.

Ltac fill_chain :=
  repeat (eapply fill_step_trans; [eassumption|]); eassumption.

Ltac rdcas_facts :=
  repeat match goal with
  | H : ?a = ?a -> _ |- _ => specialize (H eq_refl)
  | H : exists _, _ |- _ => destruct H
  | H : _ /\ _ |- _ => destruct H
  | H : false = true \/ _ |- _ => destruct H as [H|H]; [discriminate H|]
  end;
  rewrite ?decoded_samples_app, ?stored_samples_app, ?in_app_iff;
  repeat split; intros; try discriminate; try lia; try tauto;
  try solve [intuition (try discriminate; try lia)];
  try (match goal with
       | H : packets _ = ?x :: _ |- exists _, _ => exists x; congruence
       end).

Lemma readDecodeConvertAndStore_spec f fin s r fin' s' :
  readDecodeConvertAndStore f fin s = (r, fin', s') ->
  exists evs, fill_step s evs s' /\
    (fin' = true -> fin = true \/ In Finished evs) /\
    (fin = true -> fin' = true) /\
    (r = 0 -> fin' = false -> exists c, packets s = c :: packets s') /\
    (r = 0 -> fin' = false -> 0 <= decoded_samples evs ->
       stored_samples evs = decoded_samples evs).
Proof.
  intros H. unfold readDecodeConvertAndStore in H.
  cbv [bind ret current_call] in H.
  set (c := match packets s with [] => at_eof f | c :: _ => c end) in *.
  destruct (initInputFrame (frame_alloc c) s) as [[e1 p1] s1] eqn:E1.
  apply initInputFrame_spec in E1 as (ev1 & S1 & K1 & C1 & R1).
  apply core_nil_facts in C1 as (D1 & W1 & F1).
  destruct (negb (e1 =? 0)) eqn:B1.
  { rdcas_end. exists (ev1 ++ evc). split; [fill_chain|].
    unfold AVERROR_EXIT. rdcas_facts. }
  destruct (decodeAudioFrame c false fin s1) as [[[e2 dp] fin2] s2] eqn:E2.
  apply decodeAudioFrame_spec in E2 as (ev2 & S2 & W2 & Fa & Fb & K2 & D2 & D2').
  destruct (negb (e2 =? 0)) eqn:B2.
  { rdcas_end. exists (ev1 ++ ev2 ++ evc). split; [fill_chain|].
    unfold AVERROR_EXIT. rdcas_facts. }
  apply negb_false_iff, Z.eqb_eq in B2. subst e2.
  destruct fin2.
  { rdcas_end. exists (ev1 ++ ev2 ++ evc). split; [fill_chain|]. rdcas_facts. }
  destruct dp.
  2:{ rdcas_end. exists (ev1 ++ ev2 ++ evc). split; [fill_chain|]. rdcas_facts. }
  destruct (initConvertedSamples c s2) as [[[e3 p3] d3] s3] eqn:E3.
  apply initConvertedSamples_spec in E3 as (ev3 & S3 & K3 & C3).
  apply core_nil_facts in C3 as (D3 & W3 & F3).
  destruct (negb (e3 =? 0)) eqn:B3.
  { rdcas_end. exists (ev1 ++ ev2 ++ ev3 ++ evc). split; [fill_chain|].
    unfold AVERROR_EXIT. rdcas_facts. }
  destruct (convertSamples c s3) as [e4 s4] eqn:E4.
  apply convertSamples_spec in E4 as (ev4 & S4 & K4 & C4).
  apply core_nil_facts in C4 as (D4 & W4 & F4).
  destruct (negb (e4 =? 0)) eqn:B4.
  { rdcas_end. exists (ev1 ++ ev2 ++ ev3 ++ ev4 ++ evc). split; [fill_chain|].
    unfold AVERROR_EXIT. rdcas_facts. }
  destruct (addSamplesToFifo c (nb_samples c) s4) as [e5 s5] eqn:E5.
  apply addSamplesToFifo_spec in E5 as (ev5 & S5 & K5 & D5 & F5 & W5).
  destruct (negb (e5 =? 0)) eqn:B5.
  { rdcas_end. exists (ev1 ++ ev2 ++ ev3 ++ ev4 ++ ev5 ++ evc). split; [fill_chain|].
    unfold AVERROR_EXIT. rdcas_facts. }
  apply negb_false_iff, Z.eqb_eq in B5. subst e5.
  rdcas_end. exists (ev1 ++ ev2 ++ ev3 ++ ev4 ++ ev5 ++ evc). split; [fill_chain|].
  rdcas_facts.
Qed.

(** ** Classes of events, pts chains, frames *)

Ltac by_class :=
  let ev := fresh "ev" in let evs := fresh "evs" in let IH := fresh "IH" in
  let H := fresh "H" in let He := fresh "He" in
  intros evs; induction evs as [|ev evs IH]; [cbn; auto|];
  cbn; intros H; apply andb_true_iff in H as [He H];
  destruct ev as [| | | | | | | |[?|]| | |]; try discriminate He; cbn; auto.

Lemma drain_events_stored : forall evs,
  forallb is_drain_event evs = true -> stored_samples evs = 0.
Proof. by_class. Qed.

Lemma flush_events_stored : forall evs,
  forallb is_flush_event evs = true -> stored_samples evs = 0.
Proof. by_class. Qed.

Lemma flush_events_loaded : forall evs,
  forallb is_flush_event evs = true -> loaded_samples evs = 0.
Proof. by_class. Qed.

Lemma flush_events_submitted : forall evs,
  forallb is_flush_event evs = true -> submitted evs = [].
Proof. by_class. Qed.

Lemma fill_events_no_flush : forall evs,
  forallb is_fill_event evs = true -> ~ In (SendFrame None) evs.
Proof. by_class; intuition discriminate. Qed.

Lemma drain_events_no_flush : forall evs,
  forallb is_drain_event evs = true -> ~ In (SendFrame None) evs.
Proof. by_class; intuition discriminate. Qed.

Lemma fill_is_loop : forall evs,
  forallb is_fill_event evs = true -> forallb is_loop_event evs = true.
Proof. by_class. Qed.

Lemma drain_is_loop : forall evs,
  forallb is_drain_event evs = true -> forallb is_loop_event evs = true.
Proof. by_class. Qed.

Lemma flush_is_loop : forall evs,
  forallb is_flush_event evs = true -> forallb is_loop_event evs = true.
Proof. by_class. Qed.

Lemma loop_events_no_trailer : forall evs,
  forallb is_loop_event evs = true ->
  ~ In WriteTrailer evs /\ ~ In WriteHeader evs.
Proof.
  by_class; intuition discriminate.
Qed.

Lemma stamped_from_app l1 : forall p l2,
  stamped_from p (l1 ++ l2) <->
  stamped_from p l1 /\ stamped_from (pts_after p l1) l2.
Proof.
  induction l1 as [|f l1 IH]; intros p l2; cbn; [tauto|].
  rewrite IH. tauto.
Qed.

Lemma pts_after_app l1 : forall p l2,
  pts_after p (l1 ++ l2) = pts_after (pts_after p l1) l2.
Proof.
  induction l1 as [|f l1 IH]; intros p l2; cbn; [reflexivity|]. apply IH.
Qed.

Lemma frames_ok_bounds fs fin l :
  frames_ok fs fin l -> Forall (fun f => 0 < frame_samples f <= fs) l.
Proof.
  induction l as [|f l IH]; cbn; [constructor|].
  intros (B & _ & R). constructor; auto.
Qed.

Lemma frames_ok_full fs l :
  frames_ok fs false l -> Forall (fun f => frame_samples f = fs) l.
Proof.
  induction l as [|f l IH]; cbn; [constructor|].
  intros (B & P & R). constructor; auto.
  destruct (Z.lt_ge_cases (frame_samples f) fs) as [Hlt|Hge]; [|lia].
  destruct (P Hlt) as [_ Hx]. discriminate Hx.
Qed.

(** ** The loops *)

Lemma fill_loop_spec fuel f fs : forall fin s r fin' s',
  fill_loop fuel f fs fin s = Some (r, fin', s') ->
  exists evs, fill_step s evs s' /\
    (fin' = true -> fin = true \/ In Finished evs) /\
    (r = 0 -> fin' = false -> fs <= fifo_samples s') /\
    (r = 0 -> fin' = false ->
       (length (packets s') <= length (packets s))%nat /\
       (fifo_samples s < fs ->
        (length (packets s') < length (packets s))%nat)).
Proof.
  induction fuel as [|fuel IH]; intros fin s r fin' s' H; [discriminate|].
  cbn [fill_loop] in H.
  destruct (fifo_samples s <? fs) eqn:C.
  2:{ inversion H; subst. exists []. split; [apply fill_step_refl|].
      apply Z.ltb_ge in C. repeat split; auto; try lia. }
  apply Z.ltb_lt in C.
  destruct (readDecodeConvertAndStore f fin s) as [[r1 fin1] s1] eqn:E.
  apply readDecodeConvertAndStore_spec in E as (ev1 & S1 & Fa & Fb & K1 & _).
  destruct (negb (r1 =? 0)) eqn:B.
  { inversion H; subst. exists ev1. split; [assumption|].
    apply negb_true_iff, Z.eqb_neq in B.
    repeat split; auto; try lia. }
  apply negb_false_iff, Z.eqb_eq in B. subst r1.
  destruct fin1.
  { inversion H; subst. exists ev1. split; [assumption|].
    repeat split; auto; try discriminate. }
  apply IH in H as (ev2 & S2 & Fa2 & Fc2 & K2).
  exists (ev1 ++ ev2). split; [eapply fill_step_trans; eauto|].
  destruct (K1 eq_refl eq_refl) as [c0 Hc0].
  rewrite in_app_iff.
  repeat split; auto.
  - intros Hf. destruct (Fa2 Hf) as [Hx|Hx]; [discriminate|auto].
  - destruct (K2 H H0) as [Hle _]. rewrite Hc0. cbn. lia.
  - intros _. destruct (K2 H H0) as [Hle _]. rewrite Hc0. cbn. lia.
Qed.

Lemma loadEncodeAndWrite_summary o occ s r s' :
  loadEncodeAndWrite o occ s = (r, s') ->
  0 < frame_size occ -> 0 < fifo_samples s ->
  let n := Z.min (fifo_samples s) (frame_size occ) in
  exists evs, trace s' = trace s ++ evs /\
    packets s' = packets s /\
    forallb is_drain_event (core evs) = true /\
    fifo_samples s' = fifo_samples s - loaded_samples evs /\
    (loaded_samples evs = 0 \/ loaded_samples evs = n) /\
    (submitted evs = [] /\ pts s' = pts s /\ r <> 0
     \/ submitted evs = [mkFrame (pts s) n] /\ pts s' = wrap64 (pts s + n) /\
        loaded_samples evs = n).
Proof.
  intros H Hfs Hsz n.
  apply loadEncodeAndWrite_spec in H; auto.
  rewrite FFMIN_min in H. fold n in H.
  destruct H as (evs & T & K & H). exists evs.
  rewrite <- (submitted_core evs), <- (loaded_samples_core evs).
  split; [assumption|]. split; [assumption|].
  destruct H as [(C & P & F & R)|(F & [(C & P & R)|(P & [C|C])])];
    rewrite C; cbn; repeat split; auto; try lia.
  all: try (left; repeat split; auto; lia).
  all: try (right; repeat split; auto; lia).
Qed.

Lemma drain_loop_spec fuel o occ fin : forall s r s',
  drain_loop fuel o occ (frame_size occ) fin s = Some (r, s') ->
  0 < frame_size occ ->
  exists evs, trace s' = trace s ++ evs /\
    packets s' = packets s /\
    stamped_from (pts s) (submitted evs) /\
    pts s' = pts_after (pts s) (submitted evs) /\
    forallb is_drain_event (core evs) = true /\
    fifo_samples s' = fifo_samples s - loaded_samples evs /\
    (0 <= fifo_samples s -> 0 <= fifo_samples s') /\
    frames_ok (frame_size occ) fin (submitted evs) /\
    (drain_condition (frame_size occ) fin s = false -> evs = []) /\
    (r = 0 -> drain_condition (frame_size occ) fin s' = false /\
              loaded_samples evs = sum_samples (submitted evs)).
Proof.
  induction fuel as [|fuel IH]; intros s r s' H Hfs; [discriminate|].
  cbn [drain_loop] in H.
  destruct (drain_condition (frame_size occ) fin s) eqn:C.
  2:{ inversion H; subst. exists []. rewrite app_nil_r. cbn.
      repeat split; auto; lia. }
  assert (Hsz : 0 < fifo_samples s).
  { unfold drain_condition in C. apply orb_true_iff in C as [C|C].
    - apply Z.leb_le in C. lia.
    - apply andb_true_iff in C as [_ C]. apply Z.ltb_lt in C. lia. }
  assert (Hpart : Z.min (fifo_samples s) (frame_size occ) < frame_size occ ->
                  fin = true).
  { intros Hm. unfold drain_condition in C. apply orb_true_iff in C as [C|C].
    - apply Z.leb_le in C. lia.
    - apply andb_true_iff in C as [C _]. exact C. }
  destruct (loadEncodeAndWrite o occ s) as [r1 s1] eqn:E.
  apply loadEncodeAndWrite_summary in E as (ev1 & T1 & K1 & D1 & F1 & L1 & G1); auto.
  destruct (negb (r1 =? 0)) eqn:B.
  { inversion H; subst. exists ev1.
    apply negb_true_iff, Z.eqb_neq in B.
    destruct G1 as [(G & P & _)|(G & P & L)]; rewrite G; cbn.
    all: repeat split; auto; try lia; try discriminate; try tauto. }
  apply negb_false_iff, Z.eqb_eq in B. subst r1.
  destruct G1 as [(_ & _ & G)|(G & P & L)]; [congruence|].
  apply IH in H as (ev2 & T2 & K2 & S2 & P2 & D2 & F2 & N2 & O2 & Z2 & R2); auto.
  exists (ev1 ++ ev2).
  rewrite submitted_app, core_app, forallb_app, loaded_samples_app, G, D1, D2.
  cbn [app stamped_from pts_after frames_ok frame_pts frame_samples andb].
  rewrite <- P.
  assert (Hlast : Z.min (fifo_samples s) (frame_size occ) < frame_size occ ->
                  submitted ev2 = nil).
  { intros Hm. rewrite Z2; [reflexivity|].
    unfold drain_condition. rewrite F1, L.
    apply orb_false_iff; split.
    - apply Z.leb_gt. lia.
    - apply andb_false_iff; right. apply Z.ltb_ge. lia. }
  repeat split; auto; try lia; try congruence.
  - rewrite T2, T1. symmetry. apply app_assoc.
  - apply R2. assumption.
  - destruct (R2 H) as [_ Hs]. cbn. fold (sum_samples (submitted ev2)). lia.
Qed.

Lemma flush_loop_spec fuel o : forall s r s',
  flush_loop fuel o s = Some (r, s') ->
  exists evs, trace s' = trace s ++ evs /\
    packets s' = packets s /\ fifo_samples s' = fifo_samples s /\
    pts s' = pts s /\
    forallb is_flush_event (core evs) = true /\
    (r = 0 -> exists k, core evs = flush_core k).
Proof.
  induction fuel as [|fuel IH]; intros s r s' H; [discriminate|].
  cbn [flush_loop] in H.
  destruct (encodeAudioFrame o None false s) as [[r1 dw] s1] eqn:E.
  apply encodeAudioFrame_spec in E as (ev1 & T1 & K1 & F1 & _ & G1).
  cbn [option_map advance] in G1.
  destruct (negb (r1 =? 0)) eqn:B.
  { inversion H; subst. exists ev1.
    apply negb_true_iff, Z.eqb_neq in B.
    destruct G1 as [(C & P & _)|[(C & P & _)|(C & P & _)]]; rewrite C; cbn;
      repeat split; auto; intros; contradiction. }
  apply negb_false_iff, Z.eqb_eq in B. subst r1.
  destruct G1 as [(C & P & N & _)|[(C & P & D)|(C & P & D & _)]];
    [contradiction| |]; subst dw.
  - inversion H; subst. exists ev1. rewrite C. cbn.
    repeat split; auto. intros _. exists O. reflexivity.
  - apply IH in H as (ev2 & T2 & K2 & F2 & P2 & C2 & R2).
    exists (ev1 ++ ev2). rewrite core_app, forallb_app, C, C2. cbn [forallb is_flush_event andb].
    repeat split; try congruence.
    + rewrite T2, T1. symmetry. apply app_assoc.
    + intros Hr. destruct (R2 Hr) as [k Hk]. exists (S k). rewrite Hk. reflexivity.
Qed.

Lemma fill_step_facts s evs s' :
  fill_step s evs s' ->
  submitted evs = [] /\ loaded_samples evs = 0 /\
  forallb is_loop_event (core evs) = true /\
  ~ In (SendFrame None) (core evs).
Proof.
  intros (T & P & E & C & F & N).
  rewrite <- submitted_core, <- loaded_samples_core.
  repeat split.
  - apply fill_events_submitted, C.
  - apply fill_events_loaded, C.
  - apply fill_is_loop, C.
  - apply fill_events_no_flush, C.
Qed.

Lemma main_loop_spec fuel e occ : forall s r s',
  main_loop fuel e occ s = Some (r, s') ->
  0 < frame_size occ -> 0 <= fifo_samples s ->
  exists evs, trace s' = trace s ++ evs /\
    stamped_from (pts s) (submitted evs) /\
    pts s' = pts_after (pts s) (submitted evs) /\
    forallb is_loop_event (core evs) = true /\
    fifo_samples s' = fifo_samples s + stored_samples evs - loaded_samples evs /\
    (exists E1 E2, evs = E1 ++ E2 /\
       Forall (fun f => frame_samples f = frame_size occ) (submitted E1) /\
       (submitted E2 = [] \/ In Finished E1) /\
       frames_ok (frame_size occ) true (submitted E2)) /\
    (r = 0 -> exists pre k, core evs = pre ++ flush_core k /\
        In Finished pre /\ ~ In (SendFrame None) pre /\
        fifo_samples s' = 0 /\
        loaded_samples evs = sum_samples (submitted evs)).
Proof.
  induction fuel as [|fuel IH]; intros s r s' H Hfs Hsz; [discriminate|].
  cbn [main_loop] in H.
  destruct (fill_loop fuel (input e) (frame_size occ) false s)
    as [[[r1 fin1] s1]|] eqn:EF; [|discriminate].
  apply fill_loop_spec in EF as (evF & SF & FaF & FcF & _).
  destruct (fill_step_facts _ _ _ SF) as (GF & LF & CF & NF).
  destruct SF as (TF & PF & _ & _ & FF & WF).
  destruct (negb (r1 =? 0)) eqn:B1.
  { inversion H; subst. exists evF.
    apply negb_true_iff, Z.eqb_neq in B1.
    rewrite GF, LF. cbn.
    repeat split; auto; try lia; try contradiction.
    exists evF, []. rewrite app_nil_r, GF. cbn. repeat split; auto. }
  clear B1.
  destruct (drain_loop fuel (output e) occ (frame_size occ) fin1 s1)
    as [[r2 s2]|] eqn:ED; [|discriminate].
  apply drain_loop_spec in ED
    as (evD & TD & _ & SD & PD & CD & FD & ND & OD & _ & RD); auto.
  pose proof (drain_events_stored _ CD) as WD. rewrite stored_samples_core in WD.
  assert (TFD : trace s2 = trace s ++ evF ++ evD).
  { rewrite TD, TF. symmetry. apply app_assoc. }
  destruct (negb (r2 =? 0)) eqn:B2.
  { inversion H; subst. exists (evF ++ evD).
    apply negb_true_iff, Z.eqb_neq in B2.
    rewrite submitted_app, core_app, forallb_app, stored_samples_app,
      loaded_samples_app, GF, LF, CF, WD, (drain_is_loop _ CD), <- PF.
    cbn [app andb].
    repeat split; auto; try lia; try contradiction.
    destruct fin1.
    - exists evF, evD. rewrite GF. repeat split; auto.
      right. destruct (FaF eq_refl) as [Hx|Hx]; [discriminate|exact Hx].
    - exists (evF ++ evD), []. rewrite app_nil_r, submitted_app, GF. cbn.
      repeat split; auto. apply (frames_ok_full _ _ OD). }
  apply negb_false_iff, Z.eqb_eq in B2. subst r2.
  destruct (RD eq_refl) as [CE LD].
  destruct fin1.
  - (* the input is finished: flush *)
    apply flush_loop_spec in H as (evL & TL & _ & FL & PL & CL & RL).
    pose proof (flush_events_stored _ CL) as WL.
    pose proof (flush_events_loaded _ CL) as LL.
    pose proof (flush_events_submitted _ CL) as GL.
    rewrite stored_samples_core in WL. rewrite loaded_samples_core in LL.
    rewrite submitted_core in GL.
    exists (evF ++ evD ++ evL).
    rewrite !submitted_app, !core_app, !forallb_app, !stored_samples_app,
      !loaded_samples_app, GF, GL, LF, LL, CF, WD, WL,
      (drain_is_loop _ CD), (flush_is_loop _ CL), <- PF, app_nil_r.
    cbn [app andb].
    assert (Hz : fifo_samples s2 = 0).
    { unfold drain_condition in CE. apply orb_false_iff in CE as [_ CE].
      cbn in CE. apply Z.ltb_ge in CE. specialize (ND ltac:(lia)). lia. }
    destruct (FaF eq_refl) as [Hx|HinF]; [discriminate|].
    repeat split; auto; try lia; try congruence.
    + rewrite TL, TFD. rewrite <- !app_assoc. reflexivity.
    + exists evF, (evD ++ evL). rewrite submitted_app, GF, GL, app_nil_r.
      repeat split; auto.
    + intros Hr. destruct (RL Hr) as [k Hk].
      exists (core evF ++ core evD), k. rewrite Hk, <- app_assoc.
      repeat split; auto; try lia.
      * apply in_or_app. left. apply in_core; auto.
      * intros Hin. apply in_app_or in Hin as [Hin|Hin];
          [exact (NF Hin) | exact (drain_events_no_flush _ CD Hin)].
  - (* more input: next round *)
    assert (Hs2 : 0 <= fifo_samples s2) by (apply ND; lia).
    apply IH in H as (evR & TR & SR & PR & CR & FR & (E1 & E2 & EE & A1 & A2 & A3) & RR);
      auto.
    exists (evF ++ evD ++ evR).
    rewrite !submitted_app, !core_app, !forallb_app, !stored_samples_app,
      !loaded_samples_app, GF, LF, CF, WD, CR, (drain_is_loop _ CD), <- PF.
    cbn [app andb].
    repeat split; auto; try lia.
    + rewrite TR, TFD. rewrite <- !app_assoc. reflexivity.
    + apply stamped_from_app. split; [assumption|]. rewrite <- PD. assumption.
    + rewrite pts_after_app, <- PD. assumption.
    + exists (evF ++ evD ++ E1), E2. rewrite EE, !submitted_app, GF. cbn [app].
      repeat split; auto.
      * rewrite <- !app_assoc. reflexivity.
      * apply Forall_app. split; [apply (frames_ok_full _ _ OD)|assumption].
      * destruct A2 as [A2|A2]; [left; assumption|right].
        apply in_or_app. right. apply in_or_app. right. assumption.
    + intros Hr. destruct (RR Hr) as (pre & k & Hc & Hf & Hn & Hz & Hl).
      exists (core evF ++ core evD ++ pre), k. rewrite Hc, <- !app_assoc.
      repeat split; auto.
      * apply in_or_app. right. apply in_or_app. right. assumption.
      * intros Hin. apply in_app_or in Hin as [Hin|Hin]; [exact (NF Hin)|].
        apply in_app_or in Hin as [Hin|Hin];
          [exact (drain_events_no_flush _ CD Hin) | exact (Hn Hin)].
      * rewrite sum_samples_app. lia.
Qed.

(** ** Setting up and tearing down *)

Ltac quiet_path :=
  match goal with
  | H : (_, _) = (_, _) |- _ => inversion H; subst; clear H
  end; cbn [trace pts packets encoder_calls fifo_samples];
  eexists; split;
  [ rewrite <- ?app_assoc; cbn [app]; try reflexivity; symmetry; apply app_nil_r | ];
  repeat split; cbn; auto; try lia; try congruence; try discriminate.

Lemma openInputFile_spec f icc s r ifc icc' s' :
  openInputFile f icc s = (r, ifc, icc', s') ->
  exists evs, trace s' = trace s ++ evs /\
    pts s' = pts s /\ core evs = [] /\
    (r = 0 -> icc' = Some (decoder_context f)).
Proof.
  intros H. unfold openInputFile in H.
  destruct s as [p0 pk0 ec0 fz0 tr0]. st_unfold H.
  split_ifs; to_prop; quiet_path.
Qed.

Lemma openOutputFile_spec o ctx ofc occ s r ofc' occ' s' :
  openOutputFile o ctx ofc occ s = (r, ofc', occ', s') ->
  exists evs, trace s' = trace s ++ evs /\
    pts s' = pts s /\ core evs = [] /\
    (r = 0 -> exists c, occ' = Some c /\
       sample_rate c = sample_rate ctx /\
       frame_size c = encoder_frame_size o /\
       channels c = OUTPUT_CHANNELS).
Proof.
  intros H. unfold openOutputFile, openOutputFile_cleanup in H.
  destruct s as [p0 pk0 ec0 fz0 tr0]. st_unfold H.
  split_ifs; to_prop; quiet_path.
  all: try (intros; exfalso; lia).
  eexists; repeat split; reflexivity.
Qed.

Lemma initResampler_spec e icc occ s out s' :
  initResampler e icc occ s = (out, s') ->
  exists evs, trace s' = trace s ++ evs /\
    pts s' = pts s /\ core evs = [] /\
    (sample_rate occ = sample_rate icc -> exists r p, out = Returned (r, p)).
Proof.
  intros H. unfold initResampler in H.
  destruct s as [p0 pk0 ec0 fz0 tr0]. st_unfold H.
  split_ifs; to_prop; quiet_path; eauto.
Qed.

Lemma initFifo_spec e s r p s' :
  initFifo e s = (r, p, s') ->
  exists evs, trace s' = trace s ++ evs /\
    pts s' = pts s /\ core evs = [] /\ (r = 0 -> fifo_samples s' = 0).
Proof.
  intros H. unfold initFifo in H.
  destruct s as [p0 pk0 ec0 fz0 tr0]. st_unfold H.
  split_ifs; to_prop; quiet_path.
Qed.

Lemma writeOutputFileHeader_spec o s r s' :
  writeOutputFileHeader o s = (r, s') ->
  exists evs, trace s' = trace s ++ evs /\
    pts s' = pts s /\ fifo_samples s' = fifo_samples s /\
    core evs = [WriteHeader].
Proof.
  intros H. unfold writeOutputFileHeader in H.
  destruct s as [p0 pk0 ec0 fz0 tr0]. st_unfold H.
  split_ifs; to_prop; quiet_path.
Qed.

Lemma writeOutputFileTrailer_spec o s r s' :
  writeOutputFileTrailer o s = (r, s') ->
  exists evs, trace s' = trace s ++ evs /\
    pts s' = pts s /\ fifo_samples s' = fifo_samples s /\
    core evs = [WriteTrailer] /\ (r = 0 <-> 0 <= write_trailer o).
Proof.
  intros H. unfold writeOutputFileTrailer in H.
  destruct s as [p0 pk0 ec0 fz0 tr0]. st_unfold H.
  split_ifs; to_prop; quiet_path.
Qed.

Lemma processInput_cleanup_spec a b c d e f r s x s' :
  processInput_cleanup a b c d e f r s = (x, s') ->
  x = r /\
  exists evs, trace s' = trace s ++ evs /\
    pts s' = pts s /\ fifo_samples s' = fifo_samples s /\ core evs = [].
Proof.
  intros H. unfold processInput_cleanup in H.
  destruct s as [p0 pk0 ec0 fz0 tr0]. st_unfold H.
  destruct a, b, (is_set c), d, (is_set e), f;
    inversion H; subst; clear H; (split; [reflexivity|]);
    cbn [trace pts packets encoder_calls fifo_samples];
    eexists; (split;
      [ rewrite <- ?app_assoc; cbn [app]; try reflexivity; symmetry; apply app_nil_r | ]);
    repeat split; cbn; auto.
Qed.

(** Whatever the loops do, they only add to the trace. *)
Lemma loadEncodeAndWrite_extends o occ s r s' :
  loadEncodeAndWrite o occ s = (r, s') ->
  exists evs, trace s' = trace s ++ evs.
Proof.
  intros H. unfold loadEncodeAndWrite, encodeAudioFrame, initOutputFrame in H.
  destruct s as [p0 pk0 ec0 fz0 tr0]. st_unfold H.
  split_ifs;
    (match goal with
     | H : (_, _) = (_, _) |- _ => inversion H; subst; clear H
     end; cbn [trace]; eexists;
     rewrite <- ?app_assoc; cbn [app]; reflexivity).
Qed.

Lemma drain_loop_extends fuel o occ fs fin : forall s r s',
  drain_loop fuel o occ fs fin s = Some (r, s') ->
  exists evs, trace s' = trace s ++ evs.
Proof.
  induction fuel as [|fuel IH]; intros s r s' H; [discriminate|].
  cbn [drain_loop] in H.
  destruct (drain_condition fs fin s).
  2:{ inversion H; subst. exists []. symmetry. apply app_nil_r. }
  destruct (loadEncodeAndWrite o occ s) as [r1 s1] eqn:E.
  apply loadEncodeAndWrite_extends in E as (ev1 & T1).
  destruct (negb (r1 =? 0)).
  - inversion H; subst. exists ev1. exact T1.
  - apply IH in H as (ev2 & T2). exists (ev1 ++ ev2).
    rewrite T2, T1. symmetry. apply app_assoc.
Qed.

Lemma main_loop_extends fuel e occ : forall s r s',
  main_loop fuel e occ s = Some (r, s') ->
  exists evs, trace s' = trace s ++ evs.
Proof.
  induction fuel as [|fuel IH]; intros s r s' H; [discriminate|].
  cbn [main_loop] in H.
  destruct (fill_loop fuel (input e) (frame_size occ) false s)
    as [[[r1 fin1] s1]|] eqn:EF; [|discriminate].
  apply fill_loop_spec in EF as (evF & (TF & _) & _).
  destruct (negb (r1 =? 0)).
  { inversion H; subst. exists evF. exact TF. }
  destruct (drain_loop fuel (output e) occ (frame_size occ) fin1 s1)
    as [[r2 s2]|] eqn:ED; [|discriminate].
  apply drain_loop_extends in ED as (evD & TD).
  destruct (negb (r2 =? 0)).
  { inversion H; subst. exists (evF ++ evD).
    rewrite TD, TF. symmetry. apply app_assoc. }
  destruct fin1.
  - apply flush_loop_spec in H as (evL & TL & _).
    exists (evF ++ evD ++ evL). rewrite TL, TD, TF, <- !app_assoc. reflexivity.
  - apply IH in H as (evR & TR).
    exists (evF ++ evD ++ evR). rewrite TR, TD, TF, <- !app_assoc. reflexivity.
Qed.

(** ** [processInput] as a whole *)

Ltac trace_chain :=
  repeat match goal with
  | H : trace ?a = _ |- context [trace ?a] => rewrite H; clear H
  end;
  rewrite <- ?app_assoc; reflexivity.

Ltac cleanup_end H :=
  let Hx := fresh "Hx" in
  unfold returned in H; inversion H; subst; clear H;
  match goal with
  | |- context [processInput_cleanup ?a ?b ?c ?d ?e ?f ?r ?s] =>
      destruct (processInput_cleanup a b c d e f r s) as [x sx] eqn:Hc;
      apply processInput_cleanup_spec in Hc as (Hx & evc & Tc & Pc & Fc & Cc);
      subst x; cbn [fst snd]
  end.

Lemma processInput_inv fuel e s out s' :
  processInput fuel e s = Some (out, s') ->
  exists evs, trace s' = trace s ++ evs /\
   ((core evs = [] \/ core evs = [WriteHeader]) /\ pts s' = pts s /\
    out = Returned AVERROR_EXIT
    \/ exists occ s1 s2 r evL post,
        frame_size occ = encoder_frame_size (output e) /\
        pts s1 = pts s /\ fifo_samples s1 = 0 /\
        main_loop fuel e occ s1 = Some (r, s2) /\
        trace s2 = trace s1 ++ evL /\
        core evs = WriteHeader :: core evL ++ post /\
        pts s' = pts s2 /\ fifo_samples s' = fifo_samples s2 /\
        (r <> 0 /\ post = [] /\ out = Returned AVERROR_EXIT
         \/ r = 0 /\ post = [WriteTrailer] /\
            (out = Returned 0 \/ out = Returned AVERROR_EXIT))).
Proof.
  intros H. unfold processInput in H.
  destruct (openInputFile (input e) None s) as [[[r1 ifc] icc] s1] eqn:E1.
  apply openInputFile_spec in E1 as (ev1 & T1 & P1 & C1 & R1).
  destruct (negb (r1 =? 0)) eqn:B1.
  { cleanup_end H. eexists. split; [trace_chain|].
    left. rewrite !core_app, C1, Cc. split; [left; reflexivity|].
    split; [congruence|reflexivity]. }
  apply negb_false_iff, Z.eqb_eq in B1. specialize (R1 B1). subst icc r1.
  destruct (openOutputFile (output e) (decoder_context (input e)) false None s1)
    as [[[r2 ofc] occ] s2] eqn:E2.
  apply openOutputFile_spec in E2 as (ev2 & T2 & P2 & C2 & R2).
  destruct (negb (r2 =? 0)) eqn:B2.
  { cleanup_end H. eexists. split; [trace_chain|].
    left. rewrite !core_app, C1, C2, Cc. split; [left; reflexivity|].
    split; [congruence|reflexivity]. }
  apply negb_false_iff, Z.eqb_eq in B2.
  destruct (R2 B2) as (c & Hocc & Hrate & Hfs & _). subst occ r2.
  destruct (initResampler e (decoder_context (input e)) c s2) as [o3 s3] eqn:E3.
  apply initResampler_spec in E3 as (ev3 & T3 & P3 & C3 & R3).
  destruct (R3 Hrate) as (r3 & swr & Ho3). subst o3.
  destruct (negb (r3 =? 0)) eqn:B3.
  { cleanup_end H. eexists. split; [trace_chain|].
    left. rewrite !core_app, C1, C2, C3, Cc. split; [left; reflexivity|].
    split; [congruence|reflexivity]. }
  destruct (initFifo e s3) as [[r4 fifo] s4] eqn:E4.
  apply initFifo_spec in E4 as (ev4 & T4 & P4 & C4 & R4).
  destruct (negb (r4 =? 0)) eqn:B4.
  { cleanup_end H. eexists. split; [trace_chain|].
    left. rewrite !core_app, C1, C2, C3, C4, Cc. split; [left; reflexivity|].
    split; [congruence|reflexivity]. }
  apply negb_false_iff, Z.eqb_eq in B4. specialize (R4 B4).
  destruct (writeOutputFileHeader (output e) s4) as [r5 s5] eqn:E5.
  apply writeOutputFileHeader_spec in E5 as (ev5 & T5 & P5 & F5 & C5).
  destruct (negb (r5 =? 0)) eqn:B5.
  { cleanup_end H. eexists. split; [trace_chain|].
    left. rewrite !core_app, C1, C2, C3, C4, C5, Cc. split; [right; reflexivity|].
    split; [congruence|reflexivity]. }
  destruct (main_loop fuel e c s5) as [[r6 s6]|] eqn:E6; [|discriminate].
  destruct (main_loop_extends _ _ _ _ _ _ E6) as (evL & TL).
  assert (P05 : pts s5 = pts s) by congruence.
  assert (F05 : fifo_samples s5 = 0) by congruence.
  destruct (negb (r6 =? 0)) eqn:B6.
  { cleanup_end H.
    apply negb_true_iff, Z.eqb_neq in B6.
    exists (ev1 ++ ev2 ++ ev3 ++ ev4 ++ ev5 ++ evL ++ evc).
    split; [rewrite Tc, TL, T5, T4, T3, T2, T1, <- !app_assoc; reflexivity|].
    right. exists c, s5, s6, r6, evL, [].
    rewrite !core_app, C1, C2, C3, C4, C5, Cc. cbn [app].
    repeat split; auto. }
  apply negb_false_iff, Z.eqb_eq in B6. subst r6.
  destruct (writeOutputFileTrailer (output e) s6) as [r7 s7] eqn:E7.
  apply writeOutputFileTrailer_spec in E7 as (ev7 & T7 & P7 & F7 & C7 & _).
  assert (Hend : exists evc sx x, Some (out, s') = Some (Returned x, sx) /\
            (x = 0 \/ x = AVERROR_EXIT) /\
            trace sx = trace s7 ++ evc /\ pts sx = pts s7 /\
            fifo_samples sx = fifo_samples s7 /\ core evc = []).
  { destruct (negb (r7 =? 0)); cleanup_end H; eauto 12. }
  destruct Hend as (evc & sx & x & Hx & Hr & Tc & Pc & Fc & Cc).
  inversion Hx; subst; clear Hx.
  exists (ev1 ++ ev2 ++ ev3 ++ ev4 ++ ev5 ++ evL ++ ev7 ++ evc).
  split; [rewrite Tc, T7, TL, T5, T4, T3, T2, T1, <- !app_assoc; reflexivity|].
  right. exists c, s5, s6, 0, evL, [WriteTrailer].
  rewrite !core_app, C1, C2, C3, C4, C5, C7, Cc. cbn [app].
  repeat split; auto; try congruence.
  right. repeat split; auto. destruct Hr; subst; auto.
Qed.

(** ** The pts chain, without any assumption on the environment *)

Lemma pts_step_refl s : pts_step s [] s.
Proof. unfold pts_step. rewrite app_nil_r. cbn. auto. Qed.

Lemma pts_step_trans s1 e1 s2 e2 s3 :
  pts_step s1 e1 s2 -> pts_step s2 e2 s3 -> pts_step s1 (e1 ++ e2) s3.
Proof.
  intros (T1 & S1 & P1) (T2 & S2 & P2). unfold pts_step.
  rewrite submitted_app, stamped_from_app, pts_after_app, <- P1.
  repeat split; auto. rewrite T2, T1. symmetry. apply app_assoc.
Qed.

Lemma pts_step_quiet s evs s' :
  trace s' = trace s ++ evs -> pts s' = pts s -> submitted evs = [] ->
  pts_step s evs s'.
Proof.
  intros T P G. unfold pts_step. rewrite G. cbn. auto.
Qed.

Lemma loadEncodeAndWrite_pts o occ s r s' :
  loadEncodeAndWrite o occ s = (r, s') -> exists evs, pts_step s evs s'.
Proof.
  intros H. unfold loadEncodeAndWrite, encodeAudioFrame, initOutputFrame in H.
  destruct s as [p0 pk0 ec0 fz0 tr0]. st_unfold H.
  split_ifs;
    (match goal with
     | H : (_, _) = (_, _) |- _ => inversion H; subst; clear H
     end; unfold pts_step; cbn [trace pts]; eexists;
     split; [rewrite <- ?app_assoc; cbn [app]; reflexivity|];
     cbn; auto).
Qed.

Lemma flush_loop_pts fuel o s r s' :
  flush_loop fuel o s = Some (r, s') -> exists evs, pts_step s evs s'.
Proof.
  intros H. apply flush_loop_spec in H as (evs & T & _ & _ & P & C & _).
  exists evs. apply pts_step_quiet; auto.
  rewrite <- submitted_core. apply flush_events_submitted, C.
Qed.

Lemma fill_loop_pts fuel f fs fin s r fin' s' :
  fill_loop fuel f fs fin s = Some (r, fin', s') -> exists evs, pts_step s evs s'.
Proof.
  intros H. apply fill_loop_spec in H as (evs & S & _).
  destruct (fill_step_facts _ _ _ S) as (G & _).
  destruct S as (T & P & _). exists evs. apply pts_step_quiet; auto.
Qed.

Lemma drain_loop_pts fuel o occ fs fin : forall s r s',
  drain_loop fuel o occ fs fin s = Some (r, s') -> exists evs, pts_step s evs s'.
Proof.
  induction fuel as [|fuel IH]; intros s r s' H; [discriminate|].
  cbn [drain_loop] in H.
  destruct (drain_condition fs fin s).
  2:{ inversion H; subst. exists []. apply pts_step_refl. }
  destruct (loadEncodeAndWrite o occ s) as [r1 s1] eqn:E.
  apply loadEncodeAndWrite_pts in E as (ev1 & S1).
  destruct (negb (r1 =? 0)).
  - inversion H; subst. exists ev1. exact S1.
  - apply IH in H as (ev2 & S2). exists (ev1 ++ ev2).
    eapply pts_step_trans; eauto.
Qed.

Lemma main_loop_pts fuel e occ : forall s r s',
  main_loop fuel e occ s = Some (r, s') -> exists evs, pts_step s evs s'.
Proof.
  induction fuel as [|fuel IH]; intros s r s' H; [discriminate|].
  cbn [main_loop] in H.
  destruct (fill_loop fuel (input e) (frame_size occ) false s)
    as [[[r1 fin1] s1]|] eqn:EF; [|discriminate].
  apply fill_loop_pts in EF as (evF & SF).
  destruct (negb (r1 =? 0)).
  { inversion H; subst. exists evF. exact SF. }
  destruct (drain_loop fuel (output e) occ (frame_size occ) fin1 s1)
    as [[r2 s2]|] eqn:ED; [|discriminate].
  apply drain_loop_pts in ED as (evD & SD).
  destruct (negb (r2 =? 0)).
  { inversion H; subst. exists (evF ++ evD). eapply pts_step_trans; eauto. }
  destruct fin1.
  - apply flush_loop_pts in H as (evL & SL).
    exists (evF ++ evD ++ evL). repeat (eapply pts_step_trans; eauto).
  - apply IH in H as (evR & SR).
    exists (evF ++ evD ++ evR). repeat (eapply pts_step_trans; eauto).
Qed.

Lemma processInput_pts fuel e s out s' evs :
  processInput fuel e s = Some (out, s') ->
  trace s' = trace s ++ evs ->
  pts_step s evs s'.
Proof.
  intros H T.
  apply processInput_inv in H as (evs0 & T0 & H).
  assert (evs0 = evs) by (rewrite T0 in T; apply app_inv_head in T; exact T).
  subst evs0. clear T0.
  destruct H as [([C|C] & P & _)|H].
  - apply pts_step_quiet; auto. rewrite <- submitted_core, C. reflexivity.
  - apply pts_step_quiet; auto. rewrite <- submitted_core, C. reflexivity.
  - destruct H as (occ & s1 & s2 & r & evL & post & _ & P1 & _ & HL & TL & C & P2 & _ & Hp).
    apply main_loop_pts in HL as (evL' & TL' & SL & PL).
    assert (evL' = evL) by (rewrite TL in TL'; apply app_inv_head in TL'; auto).
    subst evL'.
    assert (G : submitted evs = submitted evL).
    { rewrite <- (submitted_core evs), C. cbn [submitted flat_map app].
      fold (submitted (core evL ++ post)).
      rewrite submitted_app, submitted_core.
      destruct Hp as [(_ & Hp & _)|(_ & Hp & _)]; rewrite Hp; cbn;
        apply app_nil_r. }
    unfold pts_step. rewrite G, <- P1.
    repeat split; auto. congruence.
Qed.

(** ** Termination: enough fuel gives a result, and more fuel gives the same *)

Lemma fill_loop_terminates f fs : forall n fin s,
  (length (packets s) <= n)%nat ->
  exists res, forall fuel, (S n <= fuel)%nat ->
    fill_loop fuel f fs fin s = Some res.
Proof.
  induction n as [|n IH]; intros fin s Hn.
  - destruct (fifo_samples s <? fs) eqn:C.
    2:{ exists (0, fin, s). intros [|fuel] Hf; [lia|]. cbn [fill_loop drain_loop flush_loop main_loop]. rewrite C. reflexivity. }
    destruct (readDecodeConvertAndStore f fin s) as [[r1 fin1] s1] eqn:E.
    pose proof (readDecodeConvertAndStore_spec _ _ _ _ _ _ E) as (ev & _ & _ & _ & K & _).
    destruct (negb (r1 =? 0)) eqn:B.
    { exists (r1, fin1, s1). intros [|fuel] Hf; [lia|]. cbn [fill_loop drain_loop flush_loop main_loop]. rewrite C, E, B. reflexivity. }
    destruct fin1.
    { exists (0, true, s1). intros [|fuel] Hf; [lia|]. cbn [fill_loop drain_loop flush_loop main_loop]. rewrite C, E, B. reflexivity. }
    apply negb_false_iff, Z.eqb_eq in B.
    destruct (K B eq_refl) as [c Hc]. rewrite Hc in Hn. cbn in Hn. lia.
  - destruct (fifo_samples s <? fs) eqn:C.
    2:{ exists (0, fin, s). intros [|fuel] Hf; [lia|]. cbn [fill_loop drain_loop flush_loop main_loop]. rewrite C. reflexivity. }
    destruct (readDecodeConvertAndStore f fin s) as [[r1 fin1] s1] eqn:E.
    pose proof (readDecodeConvertAndStore_spec _ _ _ _ _ _ E) as (ev & _ & _ & _ & K & _).
    destruct (negb (r1 =? 0)) eqn:B.
    { exists (r1, fin1, s1). intros [|fuel] Hf; [lia|]. cbn [fill_loop drain_loop flush_loop main_loop]. rewrite C, E, B. reflexivity. }
    destruct fin1.
    { exists (0, true, s1). intros [|fuel] Hf; [lia|]. cbn [fill_loop drain_loop flush_loop main_loop]. rewrite C, E, B. reflexivity. }
    pose proof B as B'. apply negb_false_iff, Z.eqb_eq in B'.
    destruct (K B' eq_refl) as [c Hc].
    destruct (IH false s1) as [res Hres].
    { rewrite Hc in Hn. cbn in Hn. lia. }
    exists res. intros [|fuel] Hf; [lia|]. cbn [fill_loop drain_loop flush_loop main_loop]. rewrite C, E, B. apply Hres. lia.
Qed.

Lemma drain_loop_terminates o occ fin :
  0 < frame_size occ ->
  forall n s, (Z.to_nat (fifo_samples s) <= n)%nat ->
  exists res, forall fuel, (S n <= fuel)%nat ->
    drain_loop fuel o occ (frame_size occ) fin s = Some res.
Proof.
  intros Hfs. induction n as [|n IH]; intros s Hn.
  - destruct (drain_condition (frame_size occ) fin s) eqn:C.
    2:{ exists (0, s). intros [|fuel] Hf; [lia|]. cbn [fill_loop drain_loop flush_loop main_loop]. rewrite C. reflexivity. }
    exfalso. unfold drain_condition in C. apply orb_true_iff in C as [C|C].
    + apply Z.leb_le in C. lia.
    + apply andb_true_iff in C as [_ C]. apply Z.ltb_lt in C. lia.
  - destruct (drain_condition (frame_size occ) fin s) eqn:C.
    2:{ exists (0, s). intros [|fuel] Hf; [lia|]. cbn [fill_loop drain_loop flush_loop main_loop]. rewrite C. reflexivity. }
    assert (Hsz : 0 < fifo_samples s).
    { unfold drain_condition in C. apply orb_true_iff in C as [C|C].
      - apply Z.leb_le in C. lia.
      - apply andb_true_iff in C as [_ C]. apply Z.ltb_lt in C. lia. }
    destruct (loadEncodeAndWrite o occ s) as [r1 s1] eqn:E.
    pose proof (loadEncodeAndWrite_summary _ _ _ _ _ E Hfs Hsz)
      as (ev & _ & _ & _ & F & _ & G).
    destruct (negb (r1 =? 0)) eqn:B.
    { exists (r1, s1). intros [|fuel] Hf; [lia|]. cbn [fill_loop drain_loop flush_loop main_loop]. rewrite C, E, B. reflexivity. }
    pose proof B as B'. apply negb_false_iff, Z.eqb_eq in B'.
    destruct G as [(_ & _ & G)|(_ & _ & L)]; [contradiction|].
    destruct (IH s1) as [res Hres]; [lia|].
    exists res. intros [|fuel] Hf; [lia|]. cbn [fill_loop drain_loop flush_loop main_loop]. rewrite C, E, B. apply Hres. lia.
Qed.

Lemma flush_loop_terminates o k :
  receive_packet (encoder o k) < 0 ->
  forall d s, (encoder_calls s <= k)%nat -> (k - encoder_calls s <= d)%nat ->
  exists res, forall fuel, (S d <= fuel)%nat -> flush_loop fuel o s = Some res.
Proof.
  intros Hk. induction d as [|d IH]; intros s Hle Hd.
  - assert (encoder_calls s = k) by lia.
    destruct (encodeAudioFrame o None false s) as [[r1 dw] s1] eqn:E.
    pose proof (encodeAudioFrame_spec _ _ _ _ _ _ _ E) as (ev & _ & _ & _ & _ & G).
    destruct (negb (r1 =? 0)) eqn:B.
    { exists (r1, s1). intros [|fuel] Hf; [lia|]. cbn [fill_loop drain_loop flush_loop main_loop]. rewrite E, B. reflexivity. }
    destruct dw.
    2:{ exists (0, s1). intros [|fuel] Hf; [lia|]. cbn [fill_loop drain_loop flush_loop main_loop]. rewrite E, B. reflexivity. }
    exfalso. apply negb_false_iff, Z.eqb_eq in B.
    destruct G as [(_ & _ & G & _)|[(_ & _ & G)|(_ & _ & _ & G)]];
      try contradiction; try discriminate. subst k. lia.
  - destruct (encodeAudioFrame o None false s) as [[r1 dw] s1] eqn:E.
    pose proof (encodeAudioFrame_spec _ _ _ _ _ _ _ E) as (ev & _ & _ & _ & N & G).
    destruct (negb (r1 =? 0)) eqn:B.
    { exists (r1, s1). intros [|fuel] Hf; [lia|]. cbn [fill_loop drain_loop flush_loop main_loop]. rewrite E, B. reflexivity. }
    destruct dw.
    2:{ exists (0, s1). intros [|fuel] Hf; [lia|]. cbn [fill_loop drain_loop flush_loop main_loop]. rewrite E, B. reflexivity. }
    assert (Hne : encoder_calls s <> k).
    { intros Heq. pose proof B as B'. apply negb_false_iff, Z.eqb_eq in B'.
      destruct G as [(_ & _ & G & _)|[(_ & _ & G)|(_ & _ & _ & G)]];
        try contradiction; try discriminate. subst k. lia. }
    destruct (IH s1) as [res Hres]; [lia|lia|].
    exists res. intros [|fuel] Hf; [lia|]. cbn [fill_loop drain_loop flush_loop main_loop]. rewrite E, B. apply Hres. lia.
Qed.

Lemma main_loop_terminates e occ :
  0 < frame_size occ ->
  (forall n, exists k, (n <= k)%nat /\ receive_packet (encoder (output e) k) < 0) ->
  forall n s, (length (packets s) <= n)%nat ->
    fifo_samples s < frame_size occ ->
  exists m res, forall fuel, (m <= fuel)%nat -> main_loop fuel e occ s = Some res.
Proof.
  intros Hfs Henc. induction n as [|n IH]; intros s Hn Hlt.
  all: destruct (fill_loop_terminates (input e) (frame_size occ)
                   (length (packets s)) false s (le_n _)) as [[[r1 fin1] s1] HF];
    pose proof (HF _ (le_n _)) as EF;
    apply fill_loop_spec in EF as (evF & SF & _ & _ & KF);
    destruct (negb (r1 =? 0)) eqn:B1;
    [ exists (S (S (length (packets s)))), (r1, s1);
      intros [|fuel] Hf; [lia|]; cbn [fill_loop drain_loop flush_loop main_loop]; rewrite HF by lia; rewrite B1; reflexivity | ];
    destruct (drain_loop_terminates (output e) occ fin1 Hfs
                (Z.to_nat (fifo_samples s1)) s1 (le_n _)) as [[r2 s2] HD];
    pose proof (HD _ (le_n _)) as ED;
    apply drain_loop_spec in ED as (evD & _ & KD & _ & _ & _ & _ & _ & _ & _ & RD);
      auto;
    destruct (negb (r2 =? 0)) eqn:B2;
    [ exists (S (S (length (packets s)) + S (Z.to_nat (fifo_samples s1)))), (r2, s2);
      intros [|fuel] Hf; [lia|]; cbn [fill_loop drain_loop flush_loop main_loop]; rewrite HF by lia; rewrite B1;
      rewrite HD by lia; rewrite B2; reflexivity | ].
  all: destruct fin1;
    [ destruct (Henc (encoder_calls s2)) as (k & Hk1 & Hk2);
      destruct (flush_loop_terminates (output e) k Hk2 (k - encoder_calls s2) s2 Hk1
                  (le_n _)) as [res HL];
      exists (S (S (length (packets s)) + S (Z.to_nat (fifo_samples s1))
                 + S (k - encoder_calls s2))), res;
      intros [|fuel] Hf; [lia|]; cbn [fill_loop drain_loop flush_loop main_loop]; rewrite HF by lia; rewrite B1;
      rewrite HD by lia; rewrite B2; apply HL; lia | ].
  all: pose proof B1 as B1'; apply negb_false_iff, Z.eqb_eq in B1';
    pose proof B2 as B2'; apply negb_false_iff, Z.eqb_eq in B2';
    destruct (KF B1' eq_refl) as [_ Hdec]; specialize (Hdec Hlt);
    destruct (RD B2') as [CE _].
  - exfalso. lia.
  - destruct (IH s2) as (m & res & Hm).
    { rewrite KD. lia. }
    { unfold drain_condition in CE. apply orb_false_iff in CE as [CE _].
      apply Z.leb_gt in CE. exact CE. }
    exists (S (S (length (packets s)) + S (Z.to_nat (fifo_samples s1)) + m)), res.
    intros [|fuel] Hf; [lia|]. cbn [fill_loop drain_loop flush_loop main_loop]. rewrite HF by lia. rewrite B1.
    rewrite HD by lia. rewrite B2. apply Hm. lia.
Qed.

Lemma processInput_terminates e s :
  0 < encoder_frame_size (output e) ->
  (forall n, exists k, (n <= k)%nat /\ receive_packet (encoder (output e) k) < 0) ->
  exists m res, forall fuel, (m <= fuel)%nat -> processInput fuel e s = Some res.
Proof.
  intros Hfs Henc. unfold processInput.
  destruct (openInputFile (input e) None s) as [[[r1 ifc] icc] s1] eqn:E1.
  pose proof (openInputFile_spec _ _ _ _ _ _ _ E1) as (ev1 & _ & _ & _ & R1).
  destruct (negb (r1 =? 0)) eqn:B1.
  { eexists O, _. intros fuel _. reflexivity. }
  apply negb_false_iff, Z.eqb_eq in B1. specialize (R1 B1). subst icc.
  destruct (openOutputFile (output e) (decoder_context (input e)) false None s1)
    as [[[r2 ofc] occ] s2] eqn:E2.
  pose proof (openOutputFile_spec _ _ _ _ _ _ _ _ _ E2) as (ev2 & _ & _ & _ & R2).
  destruct (negb (r2 =? 0)) eqn:B2.
  { eexists O, _. intros fuel _. reflexivity. }
  apply negb_false_iff, Z.eqb_eq in B2.
  destruct (R2 B2) as (c & Hocc & Hrate & Hc & _). subst occ.
  destruct (initResampler e (decoder_context (input e)) c s2) as [[[r3 swr]|] s3] eqn:E3.
  2:{ eexists O, _. intros fuel _. reflexivity. }
  destruct (negb (r3 =? 0)) eqn:B3.
  { eexists O, _. intros fuel _. reflexivity. }
  destruct (initFifo e s3) as [[r4 fifo] s4] eqn:E4.
  pose proof (initFifo_spec _ _ _ _ _ E4) as (ev4 & _ & _ & _ & R4).
  destruct (negb (r4 =? 0)) eqn:B4.
  { eexists O, _. intros fuel _. reflexivity. }
  apply negb_false_iff, Z.eqb_eq in B4. specialize (R4 B4).
  destruct (writeOutputFileHeader (output e) s4) as [r5 s5] eqn:E5.
  pose proof (writeOutputFileHeader_spec _ _ _ _ E5) as (ev5 & _ & _ & F5 & _).
  destruct (negb (r5 =? 0)) eqn:B5.
  { eexists O, _. intros fuel _. reflexivity. }
  rewrite <- Hc in Hfs.
  destruct (main_loop_terminates e c Hfs Henc (length (packets s5)) s5 (le_n _))
    as (m & [r6 s6] & Hm); [lia|].
  exists m.
  destruct (negb (r6 =? 0)) eqn:B6.
  { eexists. intros fuel Hf. rewrite (Hm fuel Hf), B6. reflexivity. }
  destruct (writeOutputFileTrailer (output e) s6) as [r7 s7] eqn:E7.
  destruct (negb (r7 =? 0)) eqn:B7;
    eexists; intros fuel Hf; rewrite (Hm fuel Hf), B6, E7, B7; reflexivity.
Qed.

(** ** A whole run, seen through its trace *)

Lemma frames_ok_split fs fin l1 : forall f l2,
  frames_ok fs fin (l1 ++ f :: l2) -> frame_samples f < fs -> l2 = [].
Proof.
  induction l1 as [|g l1 IH]; intros f l2; cbn.
  - intros (_ & P & _) Hlt. destruct (P Hlt) as [Hl _]. exact Hl.
  - intros (_ & _ & R) Hlt. eapply IH; eauto.
Qed.

Lemma partial_frame_last fs A B :
  Forall (fun f => frame_samples f = fs) (submitted A) ->
  (submitted B = [] \/ In Finished A) ->
  frames_ok fs true (submitted B) ->
  forall pre f post,
    A ++ B = pre ++ SendFrame (Some f) :: post ->
    frame_samples f < fs ->
    In Finished pre /\ submitted post = [].
Proof.
  intros HA HB HF pre f post Heq Hlt.
  apply app_eq_app in Heq as [l [[HA' HB']|[Hpre HB']]].
  - destruct l as [|x l].
    + cbn in HB'. rewrite app_nil_r in HA'. subst A B.
      cbn in HB, HF. destruct HB as [HB|HB]; [discriminate|].
      destruct HF as (_ & P & _). destruct (P Hlt) as [Hl _]. auto.
    + cbn in HB'. inversion HB'; subst x. subst A.
      rewrite submitted_app in HA. cbn in HA.
      apply Forall_app in HA as [_ HA]. inversion HA; subst. lia.
  - subst pre B. rewrite submitted_app in HB, HF. cbn in HB, HF.
    destruct HB as [HB|HB].
    + destruct (submitted l); discriminate.
    + split; [apply in_or_app; left; exact HB|].
      eapply frames_ok_split; eauto.
Qed.

Lemma core_split evs pre x post :
  evs = pre ++ x :: post -> is_core x = true ->
  core evs = core pre ++ x :: core post.
Proof.
  intros -> Hx. rewrite core_app. cbn. rewrite Hx. reflexivity.
Qed.

Lemma processInput_run fuel e s out s' evs :
  processInput fuel e s = Some (out, s') ->
  trace s' = trace s ++ evs ->
  0 < encoder_frame_size (output e) ->
  Forall (fun f => 0 < frame_samples f <= encoder_frame_size (output e))
         (submitted evs) /\
  (forall pre f post,
     evs = pre ++ SendFrame (Some f) :: post ->
     frame_samples f < encoder_frame_size (output e) ->
     In Finished pre /\ submitted post = []) /\
  (In WriteTrailer evs ->
     exists pre k,
       core evs = pre ++ flush_core k ++ [WriteTrailer] /\
       In Finished pre /\ ~ In (SendFrame None) pre /\
       fifo_samples s' = 0 /\
       stored_samples evs = submitted_samples evs).
Proof.
  intros H T Hfs.
  apply processInput_inv in H as (evs0 & T0 & H).
  assert (evs0 = evs) by (rewrite T0 in T; apply app_inv_head in T; exact T).
  subst evs0. clear T0.
  destruct H as [(C & P & _)|H].
  { assert (G : submitted evs = []).
    { rewrite <- submitted_core. destruct C as [C|C]; rewrite C; reflexivity. }
    rewrite G. split; [constructor|]. split.
    - intros pre f post Heq _. rewrite Heq, submitted_app in G. cbn in G.
      destruct (submitted pre); discriminate.
    - intros Hin. apply (in_core WriteTrailer evs eq_refl) in Hin.
      destruct C as [C|C]; rewrite C in Hin; cbn in Hin; intuition discriminate. }
  destruct H as (occ & s1 & s2 & r & evL & post & Hocc & P1 & F1 & HL & TL & C & P2 & F2 & Hp).
  rewrite <- Hocc in *.
  apply main_loop_spec in HL as (evL' & TL' & _ & _ & CL & FL & (E1 & E2 & EE & A1 & A2 & A3) & RL);
    auto; try lia.
  assert (Hev : evL = evL') by (rewrite TL in TL'; apply app_inv_head in TL'; auto).
  rewrite Hev in C. clear Hev TL evL. rename evL' into evL.
  assert (Hpost : submitted post = [] /\ stored_samples post = 0).
  { destruct Hp as [(_ & Hp & _)|(_ & Hp & _)]; rewrite Hp; auto. }
  destruct Hpost as [Gp Wp].
  assert (G : submitted evs = submitted E1 ++ submitted E2).
  { rewrite <- (submitted_core evs), C. cbn [submitted flat_map app].
    fold (submitted (core evL ++ post)).
    rewrite submitted_app, submitted_core, Gp, app_nil_r, EE, submitted_app.
    reflexivity. }
  split; [|split].
  - rewrite G. apply Forall_app. split.
    + eapply Forall_impl; [|exact A1]. cbn. intros f Hf. lia.
    + apply (frames_ok_bounds _ _ _ A3).
  - intros pre f post0 Heq Hlt.
    pose proof (core_split _ _ _ _ Heq eq_refl) as Hc.
    rewrite C, EE, core_app, <- app_assoc in Hc.
    change (WriteHeader :: core E1 ++ core E2 ++ post)
      with ((WriteHeader :: core E1) ++ (core E2 ++ post)) in Hc.
    apply (partial_frame_last (frame_size occ)) in Hc; auto.
    + destruct Hc as [Hfin Hsub]. rewrite submitted_core in Hsub.
      split; [|exact Hsub]. apply (in_core Finished pre eq_refl). exact Hfin.
    + cbn. fold (submitted (core E1)). rewrite submitted_core. exact A1.
    + rewrite submitted_app, submitted_core, Gp, app_nil_r.
      destruct A2 as [A2|A2]; [left; exact A2|right].
      right. apply (in_core Finished E1 eq_refl). exact A2.
    + rewrite submitted_app, submitted_core, Gp, app_nil_r. exact A3.
  - intros Hin. apply (in_core WriteTrailer evs eq_refl) in Hin.
    rewrite C in Hin. destruct Hin as [Hin|Hin]; [discriminate|].
    apply in_app_or in Hin as [Hin|Hin].
    { destruct (loop_events_no_trailer _ CL) as [Hn _]. contradiction. }
    destruct Hp as [(_ & Hp & _)|(Hr & Hp & _)];
      [rewrite Hp in Hin; destruct Hin|].
    destruct (RL Hr) as (pre & k & Hc & Hf & Hn & Hz & Hl).
    exists (WriteHeader :: pre), k. rewrite C, Hc, Hp, <- app_assoc.
    repeat split.
    + right. exact Hf.
    + intros [Hx|Hx]; [discriminate|contradiction].
    + congruence.
    + rewrite <- (stored_samples_core evs), C, Hp.
      cbn [stored_samples fold_right]. fold (stored_samples (core evL ++ [WriteTrailer])).
      rewrite stored_samples_app, stored_samples_core. cbn.
      unfold submitted_samples. rewrite G, <- submitted_app, <- EE. lia.
Qed.

(** ** An encoder frame size that is not positive

    The main loop then never ends well: the draining loop finds its
    condition true for ever, and only a failure or the end of the fuel stops
    it. *)

Lemma loadEncodeAndWrite_events o occ s r s' :
  loadEncodeAndWrite o occ s = (r, s') ->
  exists evs, trace s' = trace s ++ evs /\
    forallb is_drain_event (core evs) = true /\
    (frame_size occ <= 0 -> 0 <= fifo_samples s -> 0 <= fifo_samples s').
Proof.
  intros H. unfold loadEncodeAndWrite, encodeAudioFrame, initOutputFrame in H.
  destruct s as [p0 pk0 ec0 fz0 tr0]. st_unfold H.
  cbn [fifo_samples].
  split_ifs; to_prop;
    (match goal with
     | H : (_, _) = (_, _) |- _ => inversion H; subst; clear H
     end; cbn [trace fifo_samples]; eexists;
     split; [rewrite <- ?app_assoc; cbn [app]; reflexivity|];
     split; [reflexivity|]; intros; rewrite ?FFMIN_min in *; lia).
Qed.

Lemma drain_loop_events fuel o occ fs fin : forall s r s',
  drain_loop fuel o occ fs fin s = Some (r, s') ->
  exists evs, trace s' = trace s ++ evs /\
    forallb is_loop_event (core evs) = true.
Proof.
  induction fuel as [|fuel IH]; intros s r s' H; [discriminate|].
  cbn [drain_loop] in H.
  destruct (drain_condition fs fin s).
  2:{ inversion H; subst. exists []. rewrite app_nil_r. auto. }
  destruct (loadEncodeAndWrite o occ s) as [r1 s1] eqn:E.
  apply loadEncodeAndWrite_events in E as (ev1 & T1 & C1 & _).
  apply drain_is_loop in C1.
  destruct (negb (r1 =? 0)).
  - inversion H; subst. exists ev1. auto.
  - apply IH in H as (ev2 & T2 & C2). exists (ev1 ++ ev2).
    rewrite core_app, forallb_app, C1, C2, T2, T1, app_assoc. auto.
Qed.

Lemma main_loop_events fuel e occ : forall s r s',
  main_loop fuel e occ s = Some (r, s') ->
  exists evs, trace s' = trace s ++ evs /\
    forallb is_loop_event (core evs) = true.
Proof.
  induction fuel as [|fuel IH]; intros s r s' H; [discriminate|].
  cbn [main_loop] in H.
  destruct (fill_loop fuel (input e) (frame_size occ) false s)
    as [[[r1 fin1] s1]|] eqn:EF; [|discriminate].
  apply fill_loop_spec in EF as (evF & SF & _).
  destruct (fill_step_facts _ _ _ SF) as (_ & _ & CF & _).
  destruct SF as (TF & _).
  destruct (negb (r1 =? 0)).
  { inversion H; subst. exists evF. auto. }
  destruct (drain_loop fuel (output e) occ (frame_size occ) fin1 s1)
    as [[r2 s2]|] eqn:ED; [|discriminate].
  apply drain_loop_events in ED as (evD & TD & CD).
  destruct (negb (r2 =? 0)).
  { inversion H; subst. exists (evF ++ evD).
    rewrite core_app, forallb_app, CF, CD, TD, TF, app_assoc. auto. }
  destruct fin1.
  - apply flush_loop_spec in H as (evL & TL & _ & _ & _ & CL & _).
    apply flush_is_loop in CL.
    exists (evF ++ evD ++ evL).
    rewrite !core_app, !forallb_app, CF, CD, CL, TL, TD, TF, <- !app_assoc. auto.
  - apply IH in H as (evR & TR & CR).
    exists (evF ++ evD ++ evR).
    rewrite !core_app, !forallb_app, CF, CD, CR, TR, TD, TF, <- !app_assoc. auto.
Qed.

Lemma drain_loop_nonpositive fuel o occ fin : forall s r s',
  frame_size occ <= 0 -> 0 <= fifo_samples s ->
  drain_loop fuel o occ (frame_size occ) fin s = Some (r, s') -> r <> 0.
Proof.
  induction fuel as [|fuel IH]; intros s r s' Hfs Hsz H; [discriminate|].
  cbn [drain_loop] in H.
  assert (C : drain_condition (frame_size occ) fin s = true).
  { unfold drain_condition. apply orb_true_iff. left. apply Z.leb_le. lia. }
  rewrite C in H.
  destruct (loadEncodeAndWrite o occ s) as [r1 s1] eqn:E.
  apply loadEncodeAndWrite_events in E as (ev1 & _ & _ & N1).
  destruct (negb (r1 =? 0)) eqn:B.
  - inversion H; subst. apply negb_true_iff, Z.eqb_neq in B. exact B.
  - apply (IH s1 r s'); auto.
Qed.

Lemma main_loop_nonpositive fuel e occ s r s' :
  frame_size occ <= 0 -> fifo_samples s = 0 ->
  main_loop fuel e occ s = Some (r, s') -> r <> 0.
Proof.
  intros Hfs Hsz H. destruct fuel as [|fuel]; [discriminate|].
  cbn [main_loop] in H.
  destruct fuel as [|fuel]; [discriminate|].
  cbn [fill_loop] in H.
  assert (C : (fifo_samples s <? frame_size occ) = false)
    by (apply Z.ltb_ge; lia).
  rewrite C in H. cbn [negb Z.eqb] in H.
  destruct (drain_loop (S fuel) (output e) occ (frame_size occ) false s)
    as [[r2 s2]|] eqn:ED; [|discriminate].
  apply drain_loop_nonpositive in ED; auto; try lia.
  apply Z.eqb_neq in ED. rewrite ED in H. cbn [negb] in H.
  inversion H; subst. apply Z.eqb_neq. exact ED.
Qed.

Lemma trailer_needs_frame_size fuel e s out s' evs :
  processInput fuel e s = Some (out, s') ->
  trace s' = trace s ++ evs ->
  In WriteTrailer evs ->
  0 < encoder_frame_size (output e).
Proof.
  intros H T Hin.
  destruct (Z_lt_le_dec 0 (encoder_frame_size (output e))) as [Hfs|Hfs];
    [exact Hfs|exfalso].
  apply processInput_inv in H as (evs0 & T0 & H).
  assert (evs0 = evs) by (rewrite T0 in T; apply app_inv_head in T; exact T).
  subst evs0. clear T0.
  apply (in_core WriteTrailer evs eq_refl) in Hin.
  destruct H as [([C|C] & _)|H].
  - rewrite C in Hin. destruct Hin.
  - rewrite C in Hin. destruct Hin as [Hx|[]]. discriminate Hx.
  - destruct H as (occ & s1 & s2 & r & evL & post & Hocc & _ & F1 & HL & TL & C & _ & _ & Hp).
    rewrite <- Hocc in Hfs.
    pose proof (main_loop_nonpositive _ _ _ _ _ _ Hfs F1 HL) as Hr.
    destruct Hp as [(_ & Hp & _)|(Hz & _)]; [|contradiction].
    subst post. rewrite app_nil_r in C. rewrite C in Hin.
    destruct Hin as [Hx|Hin]; [discriminate Hx|].
    apply main_loop_events in HL as (evL' & TL' & CL).
    assert (evL' = evL) by (rewrite TL in TL'; apply app_inv_head in TL'; auto).
    subst evL'.
    destruct (loop_events_no_trailer _ CL) as [Hn _]. contradiction.
Qed.

(** X6.  What entered the FIFO is what reached the encoder, in every run
    that gets as far as the trailer. *)
Lemma stored_samples_reach_encoder fuel e s out s' evs :
  processInput fuel e s = Some (out, s') ->
  trace s' = trace s ++ evs ->
  In WriteTrailer evs ->
  stored_samples evs = submitted_samples evs.
Proof.
  intros H T Hin.
  pose proof (trailer_needs_frame_size _ _ _ _ _ _ H T Hin) as Hfs.
  destruct (processInput_run _ _ _ _ _ _ H T Hfs) as (_ & _ & Hf).
  destruct (Hf Hin) as (pre & k & _ & _ & _ & _ & Hs). exact Hs.
Qed.

(** The [cleanup:] label of [processInput], with everything acquired,
    releases in this order. *)
Lemma processInput_cleanup_order occ icc r s :
  releases (skipn (length (trace s))
                  (trace (snd (processInput_cleanup true true (Some occ) true
                                                    (Some icc) true r s))))
  = [AudioFifo; ResampleContext; OutputCodecContext; OutputIOContext;
     OutputFormatContext; InputCodecContext; InputFormatContext].
Proof.
  unfold processInput_cleanup.
  cbv [release_if release emit bind ret is_set snd trace].
  rewrite <- !app_assoc. cbn [app].
  rewrite skipn_app, Nat.sub_diag, skipn_all. reflexivity.
Qed.

(** * The claims *)

Lemma sum_samples_nonneg l :
  Forall (fun f => 0 < frame_samples f) l -> 0 <= sum_samples l.
Proof.
  induction 1 as [|f l Hf _ IH]; cbn; [lia|].
  fold (sum_samples l). lia.
Qed.

Lemma stamped_exact l : forall p,
  stamped_from p l ->
  0 <= p ->
  Forall (fun f => 0 < frame_samples f) l ->
  p + sum_samples l < 2 ^ 63 ->
  pts_after p l = p + sum_samples l /\
  increasing (map frame_pts l) /\
  contiguous l /\
  (forall f rest, l = f :: rest -> frame_pts f = p).
Proof.
  induction l as [|f l IH]; intros p Hs Hp Hall Hsum.
  - cbn. repeat split; auto; try lia. intros f rest Hx. discriminate Hx.
  - cbn in Hs, Hsum. fold (sum_samples l) in Hsum.
    destruct Hs as [Hf Hs]. inversion Hall as [|? ? Hpos Hall']; subst.
    pose proof (sum_samples_nonneg _ Hall') as Hnn.
    assert (Hw : wrap64 (frame_pts f + frame_samples f)
                 = frame_pts f + frame_samples f).
    { apply wrap64_small. lia. }
    rewrite Hw in Hs.
    destruct (IH _ Hs) as (Ha & Hi & Hc & Hh); auto; try lia.
    cbn [pts_after map increasing contiguous sum_samples fold_right].
    fold (sum_samples l). rewrite Hw, Ha.
    repeat split; auto; try lia.
    + destruct l as [|g l]; cbn; auto.
      rewrite (Hh g l eq_refl). lia.
    + destruct l as [|g l]; auto. apply (Hh g l eq_refl).
    + intros f0 rest Hx. inversion Hx; subst. reflexivity.
Qed.

(** C1 (the code departs from the claim).  With a decoder that runs one
    packet behind, the run ends well ([processInput] returns 0), yet of the
    3456 samples the decoder handed out only 2304 entered the FIFO and
    reached the encoder: the frame the flushed decoder hands out once the end
    of the file is seen is dropped. *)
Theorem delayed_frame_is_dropped :
  option_map
    (fun r => (fst r,
               decoded_samples (trace (snd r)),
               stored_samples (trace (snd r)),
               submitted_samples (trace (snd r))))
    (processInput 10 Scenario.one_behind process_start)
  = Some (Returned 0, 3456, 2304, 2304).
Proof. vm_compute. reflexivity. Qed.

(** C2.  In a run that starts with [pts = 0], with a positive encoder frame
    size and fewer than 2^63 samples submitted: the first frame sent to the
    encoder carries pts 0, the pts values are strictly increasing, each
    frame's pts is its predecessor's pts plus its predecessor's sample count,
    the final pts is the sum of all submitted sample counts; a frame that
    [encodeAudioFrame] sends carries the pts found on entry, and pts has
    advanced by the frame's sample count on return; and a call of
    [encodeAudioFrame] with a null frame leaves pts unchanged. *)
Theorem pts_sequence fuel e s out s' evs :
  processInput fuel e s = Some (out, s') ->
  trace s' = trace s ++ evs ->
  pts s = 0 ->
  0 < encoder_frame_size (output e) ->
  submitted_samples evs < 2 ^ 63 ->
  (forall f rest, submitted evs = f :: rest -> frame_pts f = 0) /\
  increasing (map frame_pts (submitted evs)) /\
  contiguous (submitted evs) /\
  pts s' = submitted_samples evs /\
  (forall nb dp s0 r dp' s1 evs0 x,
     encodeAudioFrame (output e) (Some nb) dp s0 = (r, dp', s1) ->
     trace s1 = trace s0 ++ evs0 ->
     In (SendFrame x) evs0 ->
     x = Some (mkFrame (pts s0) nb) /\ pts s1 = wrap64 (pts s0 + nb)) /\
  (forall dp s0, pts (snd (encodeAudioFrame (output e) None dp s0)) = pts s0).
Proof.
  intros H T Hp Hfs Hsum.
  destruct (processInput_pts _ _ _ _ _ _ H T) as (_ & Hs & Ha).
  destruct (processInput_run _ _ _ _ _ _ H T Hfs) as (Hb & _).
  rewrite Hp in Hs, Ha.
  destruct (stamped_exact _ 0 Hs) as (Ha' & Hi & Hc & Hh); try lia.
  { eapply Forall_impl; [|exact Hb]. cbn. intros f Hf. lia. }
  { exact Hsum. }
  split; [exact Hh|]. split; [exact Hi|]. split; [exact Hc|].
  split; [rewrite Ha, Ha'; reflexivity|]. split.
  - intros nb dp s0 r dp' s1 evs0 x E T0 Hin.
    apply encodeAudioFrame_spec in E as (ev & T1 & _ & _ & _ & G).
    assert (ev = evs0) by (rewrite T1 in T0; apply app_inv_head in T0; auto).
    subst ev. apply (in_core (SendFrame x) evs0 eq_refl) in Hin.
    cbn [option_map advance] in G.
    destruct G as [(C & _)|[(C & P & _)|(C & P & _)]]; rewrite C in Hin.
    + destruct Hin.
    + destruct Hin as [Hx|[]]. inversion Hx; subst. auto.
    + destruct Hin as [Hx|[Hx|[]]]; [|discriminate Hx].
      inversion Hx; subst. auto.
  - intros dp s0.
    destruct (encodeAudioFrame (output e) None dp s0) as [[r dp'] s1] eqn:E.
    apply encodeAudioFrame_spec in E as (ev & _ & _ & _ & _ & G).
    cbn [snd advance] in *.
    destruct G as [(_ & G & _)|[(_ & G & _)|(_ & G & _)]]; exact G.
Qed.

Lemma pts_sequence_witness :
  processInput 10 Scenario.plain process_start
    = Some (Returned 0, final_state 10 Scenario.plain process_start) /\
  map frame_pts (submitted (trace (final_state 10 Scenario.plain process_start)))
    = [0; 1024; 2048] /\
  increasing
    (map frame_pts (submitted (trace (final_state 10 Scenario.plain process_start)))) /\
  pts (final_state 10 Scenario.plain process_start)
    = submitted_samples (trace (final_state 10 Scenario.plain process_start)).
Proof.
  assert (H : processInput 10 Scenario.plain process_start
              = Some (Returned 0, final_state 10 Scenario.plain process_start))
    by (vm_compute; reflexivity).
  split; [exact H|]. split; [vm_compute; reflexivity|].
  destruct (pts_sequence 10 Scenario.plain process_start (Returned 0)
              (final_state 10 Scenario.plain process_start)
              (trace (final_state 10 Scenario.plain process_start)) H)
    as (_ & Hi & _ & Hp & _).
  - vm_compute. reflexivity.
  - vm_compute. reflexivity.
  - vm_compute. reflexivity.
  - vm_compute. reflexivity.
  - split; assumption.
Defined.

(** C3 (as stated, refuted).  A file whose only stream is a video stream for
    which a decoder exists is opened without complaint: [openInputFile]
    returns 0 with both contexts set.  The media type of the stream is never
    looked at. *)
Lemma video_stream_is_accepted :
  map codec_type (streams Scenario.video_file) = [MediaVideo] /\
  fst (openInputFile Scenario.video_file None process_start)
  = (0, true, Some Scenario.mono_44100).
Proof. split; vm_compute; reflexivity. Qed.

(** C3 (as amended).  For a file that can be opened and probed:
    [openInputFile] returns 0 only if the file has exactly one stream and a
    decoder for that stream's codec is found; and when that is not so (no
    stream, several streams, or no decoder for the one stream) it returns
    [AVERROR_EXIT], leaves both contexts null, and its whole effect is to
    open the input, print one diagnostic and close the input again, so no
    frame is decoded. *)
Theorem openInputFile_stream_check f icc s r ifc icc' s' :
  openInputFile f icc s = (r, ifc, icc', s') ->
  0 <= open_input f ->
  0 <= find_stream_info f ->
  (r = 0 -> exists st, streams f = [st] /\ has_decoder st = true) /\
  ((forall st, streams f = [st] -> has_decoder st = false) ->
   r = AVERROR_EXIT /\ ifc = false /\ icc' = icc /\
   (exists msg, trace s' = trace s ++ [Acquire InputFormatContext;
                                       Diagnostic msg;
                                       Release InputFormatContext]) /\
   decoded_samples (trace s') = decoded_samples (trace s)).
Proof.
  intros H Ho Hi. unfold openInputFile in H.
  destruct s as [p0 pk0 ec0 fz0 tr0]. st_unfold H.
  destruct (open_input f <? 0) eqn:B1; [apply Z.ltb_lt in B1; lia|].
  destruct (find_stream_info f <? 0) eqn:B2; [apply Z.ltb_lt in B2; lia|].
  destruct (negb (Z.of_nat (length (streams f)) =? 1)) eqn:B3.
  - (* not exactly one stream *)
    inversion H; subst; clear H. cbn [trace].
    split; [intros Hx; unfold AVERROR_EXIT in Hx; discriminate Hx|]. intros _.
    rewrite <- !app_assoc. cbn [app]. rewrite decoded_samples_app. cbn.
    repeat split; eauto. lia.
  - apply negb_false_iff, Z.eqb_eq in B3.
    destruct (streams f) as [|st [|st2 rest]] eqn:Hst; cbn [length] in B3; try lia.
    destruct (has_decoder st) eqn:Hd; cbn [negb] in H.
    + split.
      * intros _. exists st. auto.
      * intros Hall. specialize (Hall st eq_refl). congruence.
    + inversion H; subst; clear H. cbn [trace].
      split; [intros Hx; unfold AVERROR_EXIT in Hx; discriminate Hx|]. intros _.
      rewrite <- !app_assoc. cbn [app]. rewrite decoded_samples_app. cbn.
      repeat split; eauto. lia.
Qed.

Lemma openInputFile_stream_check_witness :
  0 <= open_input Scenario.empty_file /\
  0 <= find_stream_info Scenario.empty_file /\
  fst (openInputFile Scenario.empty_file None process_start)
  = (AVERROR_EXIT, false, None).
Proof.
  split; [vm_compute; discriminate|]. split; [vm_compute; discriminate|].
  destruct (openInputFile Scenario.empty_file None process_start)
    as [[[r ifc] icc'] s'] eqn:E.
  destruct (openInputFile_stream_check _ _ _ _ _ _ _ E) as [_ H].
  - vm_compute. discriminate.
  - vm_compute. discriminate.
  - destruct H as (Hr & Hi & Hc & _).
    + intros st Hst. vm_compute in Hst. discriminate Hst.
    + cbn [fst]. rewrite Hr, Hi, Hc. reflexivity.
Defined.

Lemma drain_condition_positive fs fin s :
  0 < fs -> drain_condition fs fin s = true -> 0 < fifo_samples s.
Proof.
  intros Hfs C. unfold drain_condition in C. apply orb_true_iff in C as [C|C].
  - apply Z.leb_le in C. lia.
  - apply andb_true_iff in C as [_ C]. apply Z.ltb_lt in C. lia.
Qed.

(** C4.  With a positive encoder frame size: (1) the draining loop encodes
    nothing when its condition [size >= frame_size || (finished && size > 0)]
    is false; (2) a frame that [loadEncodeAndWrite] sends to the encoder
    carries the running pts and exactly [FFMIN(size, frame_size)] samples,
    and that many samples have been read from the FIFO; (3) in a whole run
    every frame sent holds between 1 and [frame_size] samples; (4) a frame
    with fewer than [frame_size] samples is sent only after [finished] has
    been set, and no frame is sent after it. *)
Theorem draining_frames fuel e s out s' evs :
  processInput fuel e s = Some (out, s') ->
  trace s' = trace s ++ evs ->
  0 < encoder_frame_size (output e) ->
  (forall fuel0 occ fin s0,
     drain_condition (frame_size occ) fin s0 = false ->
     drain_loop (S fuel0) (output e) occ (frame_size occ) fin s0 = Some (0, s0)) /\
  (forall occ fin s0 r s1 evs0 f,
     frame_size occ = encoder_frame_size (output e) ->
     drain_condition (frame_size occ) fin s0 = true ->
     loadEncodeAndWrite (output e) occ s0 = (r, s1) ->
     trace s1 = trace s0 ++ evs0 ->
     In (SendFrame (Some f)) evs0 ->
     f = mkFrame (pts s0) (FFMIN (fifo_samples s0) (frame_size occ)) /\
     In (FifoRead (FFMIN (fifo_samples s0) (frame_size occ))) evs0 /\
     fifo_samples s1
       = fifo_samples s0 - FFMIN (fifo_samples s0) (frame_size occ)) /\
  Forall (fun f => 0 < frame_samples f <= encoder_frame_size (output e))
         (submitted evs) /\
  (forall pre f post,
     evs = pre ++ SendFrame (Some f) :: post ->
     frame_samples f < encoder_frame_size (output e) ->
     In Finished pre /\ submitted post = []).
Proof.
  intros H T Hfs.
  destruct (processInput_run _ _ _ _ _ _ H T Hfs) as (Hb & Hp & _).
  split; [|split; [|split; assumption]].
  - intros fuel0 occ fin s0 C. cbn [drain_loop]. rewrite C. reflexivity.
  - intros occ fin s0 r s1 evs0 f Hocc C E T0 Hin.
    rewrite <- Hocc in Hfs.
    pose proof (drain_condition_positive _ _ _ Hfs C) as Hsz.
    apply loadEncodeAndWrite_spec in E as (evs1 & T1 & _ & G); auto.
    assert (evs1 = evs0) by (rewrite T1 in T0; apply app_inv_head in T0; auto).
    subst evs1.
    apply (in_core (SendFrame (Some f)) evs0 eq_refl) in Hin.
    assert (Hr : forall n, In (FifoRead n) (core evs0) -> In (FifoRead n) evs0).
    { intros n Hn. apply (in_core (FifoRead n) evs0 eq_refl). exact Hn. }
    destruct G as [(C0 & _)|(F & [(C0 & _)|(_ & [C0|C0])])];
      rewrite C0 in Hin, Hr; cbn in Hin.
    + destruct Hin.
    + destruct Hin as [Hx|[]]. discriminate Hx.
    + destruct Hin as [Hx|[Hx|[]]]; [discriminate Hx|].
      inversion Hx; subst. repeat split; auto. apply Hr. left. reflexivity.
    + destruct Hin as [Hx|[Hx|[Hx|[]]]]; try discriminate Hx.
      inversion Hx; subst. repeat split; auto. apply Hr. left. reflexivity.
Qed.

Lemma draining_frames_witness :
  processInput 10 Scenario.plain process_start
    = Some (Returned 0, final_state 10 Scenario.plain process_start) /\
  map frame_samples
      (submitted (trace (final_state 10 Scenario.plain process_start)))
    = [1024; 1024; 256] /\
  Forall (fun f => 0 < frame_samples f <= 1024)
         (submitted (trace (final_state 10 Scenario.plain process_start))).
Proof.
  assert (H : processInput 10 Scenario.plain process_start
              = Some (Returned 0, final_state 10 Scenario.plain process_start))
    by (vm_compute; reflexivity).
  split; [exact H|]. split; [vm_compute; reflexivity|].
  destruct (draining_frames 10 Scenario.plain process_start (Returned 0)
              (final_state 10 Scenario.plain process_start)
              (trace (final_state 10 Scenario.plain process_start)) H)
    as (_ & _ & Hb & _).
  - vm_compute. reflexivity.
  - vm_compute. reflexivity.
  - exact Hb.
Defined.

(** C5.  In every run that writes the trailer, the core trace reads: a part
    [pre], then [k] null frames that each brought a packet to write, then one
    null frame that brought none, then the trailer.  [finished] is set within
    [pre], no null frame is sent within [pre], and the FIFO is empty at the
    end (nothing touches it after [pre]). *)
Theorem flush_then_trailer fuel e s out s' evs :
  processInput fuel e s = Some (out, s') ->
  trace s' = trace s ++ evs ->
  In WriteTrailer evs ->
  exists pre k,
    core evs = pre ++ flush_core k ++ [WriteTrailer] /\
    In Finished pre /\
    ~ In (SendFrame None) pre /\
    fifo_samples s' = 0.
Proof.
  intros H T Hin.
  pose proof (trailer_needs_frame_size _ _ _ _ _ _ H T Hin) as Hfs.
  destruct (processInput_run _ _ _ _ _ _ H T Hfs) as (_ & _ & Hf).
  destruct (Hf Hin) as (pre & k & Hc & Hfin & Hn & Hz & _).
  exists pre, k. auto.
Qed.

Lemma flush_then_trailer_witness :
  processInput 10 Scenario.plain process_start
    = Some (Returned 0, final_state 10 Scenario.plain process_start) /\
  exists pre k,
    core (trace (final_state 10 Scenario.plain process_start))
      = pre ++ flush_core k ++ [WriteTrailer] /\
    In Finished pre /\
    ~ In (SendFrame None) pre /\
    fifo_samples (final_state 10 Scenario.plain process_start) = 0.
Proof.
  assert (H : processInput 10 Scenario.plain process_start
              = Some (Returned 0, final_state 10 Scenario.plain process_start))
    by (vm_compute; reflexivity).
  split; [exact H|].
  apply (flush_then_trailer 10 Scenario.plain process_start (Returned 0)
           (final_state 10 Scenario.plain process_start)
           (trace (final_state 10 Scenario.plain process_start)) H).
  - vm_compute. reflexivity.
  - vm_compute. tauto.
Defined.

(** C6.  [initResampler] aborts the process when the two sample rates
    differ; [openOutputFile] hands back an encoder context whose sample rate
    is that of the decoder context it was given; and so no run of
    [processInput] ends in an abort. *)
Theorem resampler_assertion_holds fuel e s out s' :
  processInput fuel e s = Some (out, s') ->
  out <> Aborted /\
  (forall icc occ s0,
     swr_alloc e = true ->
     sample_rate occ <> sample_rate icc ->
     fst (initResampler e icc occ s0) = Aborted) /\
  (forall ctx ofc occ s0 r ofc' occ' s1,
     openOutputFile (output e) ctx ofc occ s0 = (r, ofc', occ', s1) ->
     r = 0 ->
     exists c, occ' = Some c /\ sample_rate c = sample_rate ctx).
Proof.
  intros H. split; [|split].
  - apply processInput_inv in H as (evs & _ & H).
    destruct H as [(_ & _ & Ho)|H].
    + rewrite Ho. discriminate.
    + destruct H as (occ & s1 & s2 & r & evL & post & _ & _ & _ & _ & _ & _ & _ & _ & Hp).
      destruct Hp as [(_ & _ & Ho)|(_ & _ & [Ho|Ho])]; rewrite Ho; discriminate.
  - intros icc occ s0 Ha Hne. unfold initResampler. rewrite Ha. cbn [negb].
    apply Z.eqb_neq in Hne. cbv [bind acquire emit]. rewrite Hne. reflexivity.
  - intros ctx ofc occ s0 r ofc' occ' s1 E Hr.
    apply openOutputFile_spec in E as (evs & _ & _ & _ & R).
    destruct (R Hr) as (c & Hc & Hs & _). exists c. auto.
Qed.

Lemma resampler_assertion_holds_witness :
  processInput 10 Scenario.plain process_start
    = Some (Returned 0, final_state 10 Scenario.plain process_start) /\
  Returned 0 <> @Aborted Z.
Proof.
  assert (H : processInput 10 Scenario.plain process_start
              = Some (Returned 0, final_state 10 Scenario.plain process_start))
    by (vm_compute; reflexivity).
  split; [exact H|].
  exact (proj1 (resampler_assertion_holds 10 Scenario.plain process_start
                  (Returned 0) _ H)).
Defined.

(** C7 (the code departs from the claim).  Three runs, each read off the
    ledger of owned objects at the end.  When the output format context
    cannot be allocated, [openOutputFile] returns at once and the I/O
    context it has just opened is never closed.  When the block of converted
    samples cannot be allocated, the channel pointers are freed twice.  And
    in a run that ends well, the block of converted samples of every decoded
    frame is still held at the end. *)
Theorem resources_leaked_or_released_twice :
  option_map (fun r => (fst r, owned [] (trace (snd r))))
             (processInput 10 Scenario.no_format_context process_start)
  = Some (Returned AVERROR_EXIT, Some [OutputIOContext]) /\
  option_map (fun r => (fst r, owned [] (trace (snd r))))
             (processInput 10 Scenario.no_sample_block process_start)
  = Some (Returned AVERROR_EXIT, None) /\
  option_map (fun r => (fst r, owned [] (trace (snd r))))
             (processInput 10 Scenario.plain process_start)
  = Some (Returned 0, Some [SampleData; SampleData]).
Proof. repeat split; vm_compute; reflexivity. Qed.

(** C8 (the code departs from the claim).  When the codec parameters cannot
    be copied into the decoder context, [processInput] fails, [main] returns
    0, and not one diagnostic has been written. *)
Theorem failure_without_diagnostic :
  option_map (fun r => fst r)
             (processInput 10 Scenario.silent_failure process_start)
  = Some (Returned AVERROR_EXIT) /\
  option_map (fun r => (fst r, diagnostics (trace (snd r))))
             (main 10 3 Scenario.silent_failure)
  = Some (MainReturned 0, []).
Proof. split; vm_compute; reflexivity. Qed.


(** C9 (as stated, refuted).  A first run submits 2304 samples and fails when
    the trailer cannot be written; the first frame the next run in the same
    process submits carries pts 2304, not 0. *)
Lemma second_run_inherits_pts :
  option_map (fun r => fst r)
             (processInput 10 Scenario.no_trailer process_start)
  = Some (Returned AVERROR_EXIT) /\
  pts (final_state 10 Scenario.no_trailer process_start) = 2304 /\
  option_map
    (fun r => (fst r,
               hd_error (submitted
                 (skipn (length (trace (final_state 10 Scenario.no_trailer
                                                     process_start)))
                        (trace (snd r))))))
    (processInput 10 Scenario.plain
                  (final_state 10 Scenario.no_trailer process_start))
  = Some (Returned 0, Some (mkFrame 2304 1024)).
Proof. repeat split; vm_compute; reflexivity. Qed.

(** C9 (as amended).  The pts counter belongs to the process: it is 0 when
    the process starts, and a run of [processInput] stamps the frames it
    submits with the value it finds on entry onwards and leaves the counter
    where its last frame put it.  So the first frame of a run carries the
    pts the process had reached before the run, which is 0 for the first
    run of a process and the value left by the earlier runs afterwards. *)
Theorem pts_is_process_wide fuel e s out s' evs :
  processInput fuel e s = Some (out, s') ->
  trace s' = trace s ++ evs ->
  pts process_start = 0 /\
  stamped_from (pts s) (submitted evs) /\
  pts s' = pts_after (pts s) (submitted evs) /\
  (forall f rest, submitted evs = f :: rest -> frame_pts f = pts s).
Proof.
  intros H T.
  destruct (processInput_pts _ _ _ _ _ _ H T) as (_ & Hs & Ha).
  repeat split; auto.
  intros f rest Hx. rewrite Hx in Hs. cbn in Hs. tauto.
Qed.

Lemma pts_is_process_wide_witness :
  processInput 10 Scenario.plain
               (final_state 10 Scenario.no_trailer process_start)
    = Some (Returned 0,
            final_state 10 Scenario.plain
                        (final_state 10 Scenario.no_trailer process_start)) /\
  pts (final_state 10 Scenario.plain
                   (final_state 10 Scenario.no_trailer process_start))
    = 4608.
Proof.
  assert (H : processInput 10 Scenario.plain
                (final_state 10 Scenario.no_trailer process_start)
              = Some (Returned 0,
                      final_state 10 Scenario.plain
                        (final_state 10 Scenario.no_trailer process_start)))
    by (vm_compute; reflexivity).
  split; [exact H|].
  destruct (pts_is_process_wide 10 Scenario.plain _ _ _
              (skipn (length (trace (final_state 10 Scenario.no_trailer
                                                   process_start)))
                     (trace (final_state 10 Scenario.plain
                               (final_state 10 Scenario.no_trailer
                                            process_start))))
              H)
    as (_ & _ & Ha & _).
  - vm_compute. reflexivity.
  - rewrite Ha. vm_compute. reflexivity.
Defined.

(** C10.  With a positive encoder frame size and an encoder that, from any
    point on, sooner or later has no packet to hand out: there is an amount
    of fuel from which on [processInput] returns, always with the same
    result.  On the way, a call of [readDecodeConvertAndStore] that returns 0
    has either set [finished] or taken one packet off the input, and a call
    of [loadEncodeAndWrite] in the draining loop that returns 0 has taken at
    least one sample out of the FIFO. *)
Theorem pipeline_terminates e s :
  0 < encoder_frame_size (output e) ->
  (forall n, exists k, (n <= k)%nat /\ receive_packet (encoder (output e) k) < 0) ->
  (exists m res, forall fuel, (m <= fuel)%nat -> processInput fuel e s = Some res) /\
  (forall fin s0 fin' s1,
     readDecodeConvertAndStore (input e) fin s0 = (0, fin', s1) ->
     fin' = true \/ exists c, packets s0 = c :: packets s1) /\
  (forall occ fin s0 s1,
     frame_size occ = encoder_frame_size (output e) ->
     drain_condition (frame_size occ) fin s0 = true ->
     loadEncodeAndWrite (output e) occ s0 = (0, s1) ->
     fifo_samples s1 < fifo_samples s0).
Proof.
  intros Hfs Henc. split; [|split].
  - apply processInput_terminates; assumption.
  - intros fin s0 fin' s1 E.
    apply readDecodeConvertAndStore_spec in E as (evs & _ & _ & _ & K & _).
    destruct fin'; [left; reflexivity|right]. apply K; reflexivity.
  - intros occ fin s0 s1 Hocc C E. rewrite <- Hocc in Hfs.
    assert (Hsz : 0 < fifo_samples s0).
    { unfold drain_condition in C. apply orb_true_iff in C as [C|C].
      - apply Z.leb_le in C. lia.
      - apply andb_true_iff in C as [_ C]. apply Z.ltb_lt in C. lia. }
    apply loadEncodeAndWrite_summary in E as (evs & _ & _ & _ & F & _ & G); auto.
    destruct G as [(_ & _ & G)|(_ & _ & L)]; [contradiction|]. lia.
Qed.

Lemma pipeline_terminates_witness :
  0 < encoder_frame_size (output Scenario.plain) /\
  exists m res, forall fuel, (m <= fuel)%nat ->
    processInput fuel Scenario.plain process_start = Some res.
Proof.
  split; [reflexivity|].
  apply (pipeline_terminates Scenario.plain process_start).
  - reflexivity.
  - intros n. exists (n + 3)%nat. split; [lia|].
    cbn [Scenario.plain Scenario.environment output Scenario.mp4_file encoder].
    destruct (Nat.ltb_spec (n + 3) 3) as [Hlt|Hge]; [lia|].
    vm_compute. reflexivity.
Defined.

(** * Further properties

    What the code does beyond the claims above: the ledger of the contexts,
    the samples on their way from the decoder to the encoder, the answers of
    [processInput] and of the process, and which failures are told. *)

(** ** The ledger of contexts, packets and frames *)




Ltac ledger_path :=
  match goal with
  | H : (_, _) = (_, _) |- _ => inversion H; subst; clear H
  end; cbn [trace pts packets encoder_calls fifo_samples];
  eexists; split;
  [ rewrite <- ?app_assoc; cbn [app]; try reflexivity; symmetry; apply app_nil_r | ];
  repeat split; cbn; auto; try lia; try congruence; try discriminate.

Lemma openInputFile_ledger f icc s r ifc icc' s' h :
  openInputFile f icc s = (r, ifc, icc', s') ->
  exists evs, trace s' = trace s ++ evs /\
    held_after h evs
    = Some (if r =? 0 then InputCodecContext :: InputFormatContext :: h else h) /\
    core evs = [] /\ pts s' = pts s /\
    (r = 0 -> ifc = true /\ icc' = Some (decoder_context f) /\
              packets s' = file_packets f) /\
    (r <> 0 -> ifc = false /\ icc' = icc).
Proof.
  intros H. unfold openInputFile in H.
  destruct s as [p0 pk0 ec0 fz0 tr0]. st_unfold H.
  split_ifs; to_prop; ledger_path.
  all: try (destruct (_ =? 0) eqn:E; [apply Z.eqb_eq in E; lia | reflexivity]).
Qed.


Lemma initResampler_ledger e icc occ s r swr s' h :
  initResampler e icc occ s = (Returned (r, swr), s') ->
  exists evs, trace s' = trace s ++ evs /\
    held_after h evs = Some (if swr then ResampleContext :: h else h) /\
    core evs = [] /\ pts s' = pts s /\
    packets s' = packets s.
Proof.
  intros H. unfold initResampler in H.
  destruct s as [p0 pk0 ec0 fz0 tr0]. st_unfold H.
  split_ifs; to_prop; try discriminate; ledger_path.
Qed.

Lemma initFifo_ledger e s r fifo s' h :
  initFifo e s = (r, fifo, s') ->
  exists evs, trace s' = trace s ++ evs /\
    held_after h evs = Some (if fifo then AudioFifo :: h else h) /\
    core evs = [] /\ pts s' = pts s /\
    packets s' = packets s /\ (r = 0 -> fifo_samples s' = 0).
Proof.
  intros H. unfold initFifo in H.
  destruct s as [p0 pk0 ec0 fz0 tr0]. st_unfold H.
  split_ifs; to_prop; ledger_path.
Qed.

Lemma writeOutputFileHeader_ledger o s r s' h :
  writeOutputFileHeader o s = (r, s') ->
  exists evs, trace s' = trace s ++ evs /\
    held_after h evs = Some h /\
    core evs = [WriteHeader] /\ pts s' = pts s /\
    packets s' = packets s /\ fifo_samples s' = fifo_samples s.
Proof.
  intros H. unfold writeOutputFileHeader in H.
  destruct s as [p0 pk0 ec0 fz0 tr0]. st_unfold H.
  split_ifs; to_prop; ledger_path.
Qed.

Lemma writeOutputFileTrailer_ledger o s r s' h :
  writeOutputFileTrailer o s = (r, s') ->
  exists evs, trace s' = trace s ++ evs /\
    held_after h evs = Some h /\
    core evs = [WriteTrailer] /\ (r = 0 <-> 0 <= write_trailer o) /\
    packets s' = packets s.
Proof.
  intros H. unfold writeOutputFileTrailer in H.
  destruct s as [p0 pk0 ec0 fz0 tr0]. st_unfold H.
  split_ifs; to_prop; ledger_path.
Qed.

Lemma processInput_cleanup_ledger a b c d e f r s x s' :
  processInput_cleanup a b c d e f r s = (x, s') ->
  x = r /\
  exists evs, trace s' = trace s ++ evs /\
    held_after (held_at_cleanup a b (is_set c) d (is_set e) f) evs = Some [] /\
    core evs = [] /\ packets s' = packets s.
Proof.
  intros H. unfold processInput_cleanup in H.
  destruct s as [p0 pk0 ec0 fz0 tr0].
  destruct a, b, c, d, e, f; cbv [is_set] in H; st_unfold H;
    inversion H; subst; clear H; (split; [reflexivity|]);
    cbn [trace]; eexists;
    (split; [rewrite <- ?app_assoc; cbn [app]; try reflexivity;
             symmetry; apply app_nil_r|]);
    repeat split; reflexivity.
Qed.

Lemma encodeAudioFrame_ledger o frame dp s r dp' s' h :
  encodeAudioFrame o frame dp s = (r, dp', s') ->
  exists evs, trace s' = trace s ++ evs /\
    held_after h evs = Some h /\ packets s' = packets s.
Proof.
  intros H. unfold encodeAudioFrame in H.
  destruct s as [p0 pk0 ec0 fz0 tr0]. st_unfold H.
  split_ifs; to_prop; ledger_path.
Qed.

Lemma loadEncodeAndWrite_ledger o occ s r s' h :
  loadEncodeAndWrite o occ s = (r, s') ->
  exists evs, trace s' = trace s ++ evs /\
    held_after h evs = Some h /\ packets s' = packets s.
Proof.
  intros H.
  unfold loadEncodeAndWrite, encodeAudioFrame, initOutputFrame in H.
  destruct s as [p0 pk0 ec0 fz0 tr0]. st_unfold H.
  cbn [fifo_samples pts trace packets] in *.
  split_ifs; to_prop; ledger_path.
Qed.







(** Walks through [readDecodeConvertAndStore]: one goal for each way to its
    [cleanup:] label, with the equations of the calls made on the way. *)
Ltac rdcas_walk H :=
  unfold readDecodeConvertAndStore in H;
  cbv [bind ret current_call] in H;
  match type of H with
  | context [initInputFrame (frame_alloc ?c) ?s] =>
      destruct (initInputFrame (frame_alloc c) s) as [[e1 p1] s1] eqn:E1;
      destruct (negb (e1 =? 0)) eqn:B1;
      [ | destruct (decodeAudioFrame c false _ s1) as [[[e2 dp] fin2] s2] eqn:E2;
          destruct (negb (e2 =? 0)) eqn:B2;
          [ | apply negb_false_iff, Z.eqb_eq in B2; subst e2;
              destruct fin2;
              [ | destruct dp;
                  [ destruct (initConvertedSamples c s2) as [[[e3 p3] d3] s3] eqn:E3;
                    destruct (negb (e3 =? 0)) eqn:B3;
                    [ | destruct (convertSamples c s3) as [e4 s4] eqn:E4;
                        destruct (negb (e4 =? 0)) eqn:B4;
                        [ | destruct (addSamplesToFifo c (nb_samples c) s4)
                              as [e5 s5] eqn:E5;
                            destruct (negb (e5 =? 0)) eqn:B5;
                            [ | apply negb_false_iff, Z.eqb_eq in B5; subst e5 ] ] ]
                  | ] ] ] ]
  end.



(** ** A rule for the loops

    A relation between states that is reflexive and transitive and that each
    call made by the loops establishes holds between the start and the end
    of every loop.  [G] tells for which results the calls are known to
    establish it: all of them, or the successful ones only. *)

Section LoopRule.

Variables (e : Env) (occ : CodecContext).
Variable R : State -> State -> Prop.
Variable G : Z -> Prop.

Hypothesis G_zero : G 0.
Hypothesis R_refl : forall s, R s s.
Hypothesis R_trans : forall s1 s2 s3, R s1 s2 -> R s2 s3 -> R s1 s3.

Hypothesis fill_call : forall s r fin' s',
  fifo_samples s < frame_size occ -> G r ->
  readDecodeConvertAndStore (input e) false s = (r, fin', s') -> R s s'.

Hypothesis drain_call : forall fin s r s',
  drain_condition (frame_size occ) fin s = true -> G r ->
  loadEncodeAndWrite (output e) occ s = (r, s') -> R s s'.

Hypothesis flush_call : forall s r dw s',
  G r -> encodeAudioFrame (output e) None false s = (r, dw, s') -> R s s'.

Lemma fill_loop_rule fuel : forall s r fin' s',
  fill_loop fuel (input e) (frame_size occ) false s = Some (r, fin', s') ->
  G r -> R s s'.
Proof.
  induction fuel as [|fuel IH]; intros s r fin' s' H Hg; [discriminate|].
  cbn [fill_loop] in H.
  destruct (fifo_samples s <? frame_size occ) eqn:C.
  2:{ inversion H; subst. apply R_refl. }
  apply Z.ltb_lt in C.
  destruct (readDecodeConvertAndStore (input e) false s) as [[r1 fin1] s1] eqn:E.
  destruct (negb (r1 =? 0)) eqn:B.
  { inversion H; subst. eapply fill_call; eauto. }
  apply negb_false_iff, Z.eqb_eq in B. subst r1.
  destruct fin1.
  { inversion H; subst. eapply fill_call; eauto. }
  eapply R_trans; [exact (fill_call _ _ _ _ C G_zero E)|]. eapply IH; eauto.
Qed.

Lemma drain_loop_rule fuel fin : forall s r s',
  drain_loop fuel (output e) occ (frame_size occ) fin s = Some (r, s') ->
  G r -> R s s'.
Proof.
  induction fuel as [|fuel IH]; intros s r s' H Hg; [discriminate|].
  cbn [drain_loop] in H.
  destruct (drain_condition (frame_size occ) fin s) eqn:C.
  2:{ inversion H; subst. apply R_refl. }
  destruct (loadEncodeAndWrite (output e) occ s) as [r1 s1] eqn:E.
  destruct (negb (r1 =? 0)) eqn:B.
  { inversion H; subst. eapply drain_call; eauto. }
  apply negb_false_iff, Z.eqb_eq in B. subst r1.
  eapply R_trans; [exact (drain_call _ _ _ _ C G_zero E)|]. eapply IH; eauto.
Qed.

Lemma flush_loop_rule fuel : forall s r s',
  flush_loop fuel (output e) s = Some (r, s') -> G r -> R s s'.
Proof.
  induction fuel as [|fuel IH]; intros s r s' H Hg; [discriminate|].
  cbn [flush_loop] in H.
  destruct (encodeAudioFrame (output e) None false s) as [[r1 dw] s1] eqn:E.
  destruct (negb (r1 =? 0)) eqn:B.
  { inversion H; subst. eapply flush_call; eauto. }
  apply negb_false_iff, Z.eqb_eq in B. subst r1.
  destruct dw.
  - eapply R_trans; [exact (flush_call _ _ _ _ G_zero E)|]. eapply IH; eauto.
  - inversion H; subst. eapply flush_call; eauto.
Qed.

Lemma main_loop_rule fuel : forall s r s',
  main_loop fuel e occ s = Some (r, s') -> G r -> R s s'.
Proof.
  induction fuel as [|fuel IH]; intros s r s' H Hg; [discriminate|].
  cbn [main_loop] in H.
  destruct (fill_loop fuel (input e) (frame_size occ) false s)
    as [[[r1 fin1] s1]|] eqn:EF; [|discriminate].
  destruct (negb (r1 =? 0)) eqn:B1.
  { inversion H; subst. eapply fill_loop_rule; eauto. }
  apply negb_false_iff, Z.eqb_eq in B1. subst r1.
  apply fill_loop_rule in EF; auto.
  destruct (drain_loop fuel (output e) occ (frame_size occ) fin1 s1)
    as [[r2 s2]|] eqn:ED; [|discriminate].
  destruct (negb (r2 =? 0)) eqn:B2.
  { inversion H; subst. eapply R_trans; [eassumption|].
    eapply drain_loop_rule; eauto. }
  apply negb_false_iff, Z.eqb_eq in B2. subst r2.
  apply drain_loop_rule in ED; auto.
  eapply R_trans; [eassumption|]. eapply R_trans; [eassumption|].
  destruct fin1.
  - eapply flush_loop_rule; eauto.
  - eapply IH; eauto.
Qed.

End LoopRule.

(** Walks through [processInput]: one goal for each way to its [cleanup:]
    label, with the equations of the calls made on the way. *)
Ltac processInput_walk H :=
  unfold processInput in H;
  match type of H with
  | context [openInputFile (input ?e) None ?s] =>
      destruct (openInputFile (input e) None s) as [[[r1 ifc] icc] s1] eqn:E1;
      pose proof (openInputFile_spec _ _ _ _ _ _ _ E1) as (_ & _ & _ & _ & R1);
      destruct (negb (r1 =? 0)) eqn:B1;
      [ | apply negb_false_iff, Z.eqb_eq in B1; specialize (R1 B1); subst icc r1;
          destruct (openOutputFile (output e) (decoder_context (input e)) false None s1)
            as [[[r2 ofc] occ] s2] eqn:E2;
          pose proof (openOutputFile_spec _ _ _ _ _ _ _ _ _ E2) as (_ & _ & _ & _ & R2);
          destruct (negb (r2 =? 0)) eqn:B2;
          [ | apply negb_false_iff, Z.eqb_eq in B2;
              destruct (R2 B2) as (c & Hocc & Hrate & Hfs & _); subst occ r2; clear R2;
              destruct (initResampler e (decoder_context (input e)) c s2)
                as [o3 s3] eqn:E3;
              pose proof (initResampler_spec _ _ _ _ _ _ E3) as (_ & _ & _ & _ & R3);
              destruct (R3 Hrate) as (r3 & swr & Ho3); subst o3; clear R3;
              destruct (negb (r3 =? 0)) eqn:B3;
              [ | apply negb_false_iff, Z.eqb_eq in B3; subst r3;
                  destruct (initFifo e s3) as [[r4 fifo] s4] eqn:E4;
                  destruct (negb (r4 =? 0)) eqn:B4;
                  [ | apply negb_false_iff, Z.eqb_eq in B4; subst r4;
                      destruct (writeOutputFileHeader (output e) s4) as [r5 s5] eqn:E5;
                      destruct (negb (r5 =? 0)) eqn:B5;
                      [ | apply negb_false_iff, Z.eqb_eq in B5; subst r5;
                          destruct (main_loop _ e c s5) as [[r6 s6]|] eqn:E6;
                          [ | discriminate H ];
                          destruct (negb (r6 =? 0)) eqn:B6;
                          [ | apply negb_false_iff, Z.eqb_eq in B6; subst r6;
                              destruct (writeOutputFileTrailer (output e) s6)
                                as [r7 s7] eqn:E7;
                              destruct (negb (r7 =? 0)) eqn:B7 ] ] ] ] ] ]
  end;
  unfold returned in H;
  match type of H with
  | context [processInput_cleanup ?a ?b ?c ?d ?e ?f ?r ?s] =>
      destruct (processInput_cleanup a b c d e f r s) as [x sx] eqn:Ec
  end;
  cbn [fst snd] in H; inversion H; subst; clear H.




(** ** A run as a whole *)

(** The events of the calls [processInput] made, with nothing held taken as
    the starting point of the ledger. *)
Ltac walk_effects :=
  repeat match goal with
  | B : negb (_ =? 0) = true |- _ => apply negb_true_iff in B
  | E : openInputFile _ _ _ = _ |- _ =>
      eapply openInputFile_ledger with (h := []) in E;
      destruct E as (ev1 & T1 & _ & C1 & P1 & Ra & _)
  | E : openOutputFile _ _ _ _ _ = _ |- _ =>
      pose proof (openOutputFile_spec _ _ _ _ _ _ _ _ _ E) as (ev2 & T2 & P2 & C2 & _);
      clear E
  | E : initResampler _ _ _ _ = _ |- _ =>
      eapply initResampler_ledger with (h := []) in E;
      destruct E as (ev3 & T3 & _ & C3 & P3 & K3)
  | E : initFifo _ _ = _ |- _ =>
      eapply initFifo_ledger with (h := []) in E;
      destruct E as (ev4 & T4 & _ & C4 & P4 & K4 & F4)
  | E : writeOutputFileHeader _ _ = _ |- _ =>
      eapply writeOutputFileHeader_ledger with (h := []) in E;
      destruct E as (ev5 & T5 & _ & C5 & P5 & K5 & F5)
  | E : writeOutputFileTrailer _ _ = _ |- _ =>
      eapply writeOutputFileTrailer_ledger with (h := []) in E;
      destruct E as (ev7 & T7 & _ & C7 & R7 & K7)
  | E : processInput_cleanup _ _ _ _ _ _ _ _ = _ |- _ =>
      apply processInput_cleanup_ledger in E; destruct E as (Hx & evc & Tc & _ & Cc & Kc)
  end.

(** The events of a run, from the equations of its calls. *)
Ltac run_events T :=
  repeat match type of T with
  | context [trace ?a] =>
      match goal with
      | Hx : trace a = _ |- _ =>
          tryif constr_eq Hx T then fail else rewrite Hx in T
      end
  end;
  rewrite <- ?app_assoc in T; apply app_inv_head in T.

Lemma openOutputFile_packets o ctx ofc occ s r ofc' occ' s' :
  openOutputFile o ctx ofc occ s = (r, ofc', occ', s') -> packets s' = packets s.
Proof.
  intros H. unfold openOutputFile, openOutputFile_cleanup in H.
  destruct s as [p0 pk0 ec0 fz0 tr0]. st_unfold H.
  split_ifs; inversion H; reflexivity.
Qed.

Lemma processInput_trailer_inv fuel e s out s' evs :
  processInput fuel e s = Some (out, s') ->
  trace s' = trace s ++ evs ->
  In WriteTrailer evs ->
  exists occ s1 s2 pre evL post,
    frame_size occ = encoder_frame_size (output e) /\
    packets s1 = file_packets (input e) /\
    fifo_samples s1 = 0 /\ pts s1 = pts s /\
    main_loop fuel e occ s1 = Some (0, s2) /\
    trace s2 = trace s1 ++ evL /\
    evs = pre ++ evL ++ post /\
    core pre = [WriteHeader] /\ core post = [WriteTrailer] /\
    packets s' = packets s2 /\
    (out = Returned 0 /\ 0 <= write_trailer (output e)
     \/ out = Returned AVERROR_EXIT /\ write_trailer (output e) < 0).
Proof.
  intros H T Hin.
  apply (in_core WriteTrailer evs eq_refl) in Hin.
  processInput_walk H.
  all: try (pose proof (openOutputFile_packets _ _ _ _ _ _ _ _ _ E2) as K2).
  all: try (pose proof E6 as E6';
            apply main_loop_events in E6' as (ev6 & T6 & C6)).
  all: walk_effects.
  all: run_events T; subst evs.
  all: rewrite ?core_app in Hin.
  all: repeat match goal with
       | C : core ?x = _ |- _ => rewrite C in Hin
       end.
  all: cbn [app] in Hin.
  all: try (destruct Hin as [Hin|Hin]; [discriminate Hin|]).
  all: try contradiction.
  all: try (rewrite app_nil_r in Hin;
            destruct (loop_events_no_trailer _ C6) as [Hn _]; contradiction).
  all: exists c, s5, s6, (ev1 ++ ev2 ++ ev3 ++ ev4 ++ ev5), ev6, (ev7 ++ evc).
  all: rewrite !core_app, C1, C2, C3, C4, C5, C7, Cc, <- !app_assoc.
  all: destruct (Ra eq_refl) as (_ & _ & K1).
  all: specialize (F4 eq_refl); subst x.
  all: repeat split; auto; try congruence.
  - right. split; [reflexivity|].
    apply Z.eqb_neq in B7. destruct (Z_lt_le_dec (write_trailer (output e)) 0); auto.
    exfalso. apply B7, R7. assumption.
  - left. split; [reflexivity|]. apply negb_false_iff, Z.eqb_eq in B7.
    apply R7. assumption.
Qed.

Lemma same_events (s s' : State) (a b : list Event) :
  trace s' = trace s ++ a -> trace s' = trace s ++ b -> a = b.
Proof. intros A B. rewrite A in B. apply app_inv_head in B. exact B. Qed.

Lemma processInput_outcomes fuel e s out s' evs :
  processInput fuel e s = Some (out, s') ->
  trace s' = trace s ++ evs ->
  (out = Returned 0 \/ out = Returned AVERROR_EXIT) /\
  (out = Returned 0 -> In WriteTrailer evs).
Proof.
  intros H T.
  pose proof (processInput_inv _ _ _ _ _ H) as (evs0 & T0 & Hinv).
  pose proof (same_events _ _ _ _ T0 T) as ->. clear T0.
  destruct Hinv as [(_ & _ & Hx)|Hinv].
  { split; [auto|]. intros Hz. rewrite Hz in Hx.
    unfold AVERROR_EXIT in Hx. discriminate Hx. }
  destruct Hinv as (occ & s1 & s2 & r & evL & post & _ & _ & _ & _ & _ & C & _ & _ & Hp).
  destruct Hp as [(_ & _ & Hx)|(_ & -> & Hx)].
  - split; [auto|]. intros Hz. rewrite Hz in Hx.
    unfold AVERROR_EXIT in Hx. discriminate Hx.
  - split; [exact Hx|]. intros _.
    apply (in_core WriteTrailer evs eq_refl). rewrite C.
    right. apply in_or_app. right. left. reflexivity.
Qed.

(** X2.  [processInput] answers 0 or [AVERROR_EXIT] and nothing else: the
    code of the call that failed is never passed on.  It answers 0 exactly
    when the trailer has been written and [av_write_trailer] did not fail. *)
Theorem processInput_result fuel e s out s' evs :
  processInput fuel e s = Some (out, s') ->
  trace s' = trace s ++ evs ->
  (out = Returned 0 \/ out = Returned AVERROR_EXIT) /\
  (out = Returned 0 <->
   In WriteTrailer evs /\ 0 <= write_trailer (output e)).
Proof.
  intros H T.
  destruct (processInput_outcomes _ _ _ _ _ _ H T) as [Hr Hz].
  split; [exact Hr|]. split.
  - intros Ho. pose proof (Hz Ho) as Hin. split; [exact Hin|].
    destruct (processInput_trailer_inv _ _ _ _ _ _ H T Hin)
      as (occ & s1 & s2 & pre & evL & post & _ & _ & _ & _ & _ & _ & _ & _ & _ & _ & Hw).
    destruct Hw as [(_ & Hw)|(Hx & _)]; [exact Hw|].
    rewrite Ho in Hx. unfold AVERROR_EXIT in Hx. discriminate Hx.
  - intros (Hin & Hw).
    destruct (processInput_trailer_inv _ _ _ _ _ _ H T Hin)
      as (occ & s1 & s2 & pre & evL & post & _ & _ & _ & _ & _ & _ & _ & _ & _ & _ & Hx).
    destruct Hx as [(Hx & _)|(_ & Hx)]; [exact Hx|lia].
Qed.

Lemma processInput_result_witness :
  processInput 10 Scenario.no_trailer process_start
    = Some (Returned AVERROR_EXIT, final_state 10 Scenario.no_trailer process_start) /\
  In WriteTrailer (trace (final_state 10 Scenario.no_trailer process_start)) /\
  ~ 0 <= write_trailer (output Scenario.no_trailer).
Proof.
  assert (H : processInput 10 Scenario.no_trailer process_start
              = Some (Returned AVERROR_EXIT,
                      final_state 10 Scenario.no_trailer process_start))
    by (vm_compute; reflexivity).
  split; [exact H|]. split; [vm_compute; tauto|].
  destruct (processInput_result 10 Scenario.no_trailer process_start
              (Returned AVERROR_EXIT)
              (final_state 10 Scenario.no_trailer process_start)
              (trace (final_state 10 Scenario.no_trailer process_start)) H)
    as (_ & Hiff).
  - vm_compute. reflexivity.
  - intros Hw. destruct Hiff as [_ Hiff].
    assert (Hx : @Returned Z AVERROR_EXIT = Returned 0).
    { apply Hiff. split; [vm_compute; tauto|exact Hw]. }
    unfold AVERROR_EXIT in Hx. discriminate Hx.
Defined.

(** X3.  The muxer protocol.  The core trace of a run is empty, or it starts
    with the one write of the header; what follows are events of the three
    loops (no header, no trailer), and the trailer, if it is written at all,
    is written once and is the last core event. *)
Theorem header_first_trailer_last fuel e s out s' evs :
  processInput fuel e s = Some (out, s') ->
  trace s' = trace s ++ evs ->
  core evs = [] \/
  exists mid post,
    core evs = WriteHeader :: mid ++ post /\
    forallb is_loop_event mid = true /\
    (post = [] \/ post = [WriteTrailer]).
Proof.
  intros H T.
  pose proof (processInput_inv _ _ _ _ _ H) as (evs0 & T0 & Hinv).
  pose proof (same_events _ _ _ _ T0 T) as ->. clear T0.
  destruct Hinv as [([C|C] & _)|Hinv].
  - left. exact C.
  - right. exists [], []. rewrite C. auto.
  - right.
    destruct Hinv as (occ & s1 & s2 & r & evL & post & _ & _ & _ & HL & TL & C & _ & _ & Hp).
    apply main_loop_events in HL as (evL' & TL' & CL).
    pose proof (same_events _ _ _ _ TL' TL) as ->.
    exists (core evL), post. split; [exact C|]. split; [exact CL|].
    destruct Hp as [(_ & -> & _)|(_ & -> & _)]; auto.
Qed.

Lemma header_first_trailer_last_witness :
  processInput 10 Scenario.plain process_start
    = Some (Returned 0, final_state 10 Scenario.plain process_start) /\
  exists mid post,
    core (trace (final_state 10 Scenario.plain process_start))
      = WriteHeader :: mid ++ post /\
    forallb is_loop_event mid = true /\ (post = [] \/ post = [WriteTrailer]).
Proof.
  assert (H : processInput 10 Scenario.plain process_start
              = Some (Returned 0, final_state 10 Scenario.plain process_start))
    by (vm_compute; reflexivity).
  split; [exact H|].
  destruct (header_first_trailer_last 10 Scenario.plain process_start (Returned 0)
              (final_state 10 Scenario.plain process_start)
              (trace (final_state 10 Scenario.plain process_start)) H)
    as [C|Hx].
  - vm_compute. reflexivity.
  - vm_compute in C. discriminate C.
  - exact Hx.
Defined.

(** X11.  An encoder that announces a frame size of zero or less (one that
    takes frames of any size) is not supported: no run with it writes the
    trailer, and every run that ends answers [AVERROR_EXIT]. *)
Theorem frame_size_must_be_positive fuel e s out s' evs :
  processInput fuel e s = Some (out, s') ->
  trace s' = trace s ++ evs ->
  encoder_frame_size (output e) <= 0 ->
  out = Returned AVERROR_EXIT /\ ~ In WriteTrailer evs.
Proof.
  intros H T Hfs.
  assert (Hn : ~ In WriteTrailer evs).
  { intros Hin. pose proof (trailer_needs_frame_size _ _ _ _ _ _ H T Hin). lia. }
  split; [|exact Hn].
  destruct (processInput_outcomes _ _ _ _ _ _ H T) as ([Hz|Hx] & Hin); [|exact Hx].
  exfalso. apply Hn, Hin, Hz.
Qed.

Lemma frame_size_must_be_positive_witness :
  processInput 10 Scenario.any_frame_size process_start
    = Some (Returned AVERROR_EXIT,
            final_state 10 Scenario.any_frame_size process_start) /\
  ~ In WriteTrailer (trace (final_state 10 Scenario.any_frame_size process_start)).
Proof.
  assert (H : processInput 10 Scenario.any_frame_size process_start
              = Some (Returned AVERROR_EXIT,
                      final_state 10 Scenario.any_frame_size process_start))
    by (vm_compute; reflexivity).
  split; [exact H|].
  apply (frame_size_must_be_positive 10 Scenario.any_frame_size process_start
           (Returned AVERROR_EXIT)
           (final_state 10 Scenario.any_frame_size process_start)
           (trace (final_state 10 Scenario.any_frame_size process_start)) H).
  - vm_compute. reflexivity.
  - vm_compute. discriminate.
Defined.



(** ** Frames and samples *)

Lemma stored_samples_reach_encoder_witness :
  processInput 10 Scenario.one_behind process_start
    = Some (Returned 0, final_state 10 Scenario.one_behind process_start) /\
  stored_samples (trace (final_state 10 Scenario.one_behind process_start))
  = submitted_samples (trace (final_state 10 Scenario.one_behind process_start)).
Proof.
  assert (H : processInput 10 Scenario.one_behind process_start
              = Some (Returned 0, final_state 10 Scenario.one_behind process_start))
    by (vm_compute; reflexivity).
  split; [exact H|].
  apply (stored_samples_reach_encoder 10 Scenario.one_behind process_start
           (Returned 0)
           (final_state 10 Scenario.one_behind process_start)
           (trace (final_state 10 Scenario.one_behind process_start)) H).
  - vm_compute. reflexivity.
  - vm_compute. tauto.
Defined.

Lemma full_frames_sum fs l :
  Forall (fun f => frame_samples f = fs) l ->
  sum_samples l = fs * Z.of_nat (length l).
Proof.
  induction 1 as [|f l Hf _ IH]; [cbn; lia|].
  cbn [sum_samples fold_right length]. fold (sum_samples l). lia.
Qed.

Lemma frames_ok_count fs fin l :
  0 < fs -> frames_ok fs fin l ->
  Z.of_nat (length l) = (sum_samples l + fs - 1) / fs.
Proof.
  intros Hfs. induction l as [|f l IH]; intros H.
  - cbn. symmetry. apply Z.div_small. lia.
  - cbn [frames_ok] in H. destruct H as (Hb & Hlast & Hrest).
    cbn [sum_samples fold_right length]. fold (sum_samples l).
    destruct (Z.eq_dec (frame_samples f) fs) as [Heq|Hne].
    + rewrite Heq.
      replace (fs + sum_samples l + fs - 1) with (1 * fs + (sum_samples l + fs - 1)) by lia.
      rewrite Z.div_add_l by lia. rewrite <- IH by exact Hrest. lia.
    + destruct Hlast as [-> _]; [lia|]. cbn.
      replace (frame_samples f + 0 + fs - 1) with (1 * fs + (frame_samples f - 1)) by lia.
      rewrite Z.div_add_l by lia. rewrite Z.div_small by lia. reflexivity.
Qed.

(** X7.  In a run that gets as far as the trailer, the number of frames
    handed to the encoder is the number of samples that entered the FIFO
    divided by the encoder's frame size, rounded up. *)
Theorem frames_sent_count fuel e s out s' evs :
  processInput fuel e s = Some (out, s') ->
  trace s' = trace s ++ evs ->
  In WriteTrailer evs ->
  Z.of_nat (length (submitted evs))
  = (stored_samples evs + encoder_frame_size (output e) - 1)
    / encoder_frame_size (output e).
Proof.
  intros H T Hin.
  pose proof (trailer_needs_frame_size _ _ _ _ _ _ H T Hin) as Hfs.
  destruct (processInput_run _ _ _ _ _ _ H T Hfs) as (_ & _ & Hf).
  destruct (Hf Hin) as (_ & _ & _ & _ & _ & _ & Hs). rewrite Hs. clear Hf Hs.
  destruct (processInput_trailer_inv _ _ _ _ _ _ H T Hin)
    as (occ & s1 & s2 & pre & evL & post & Hocc & _ & F1 & _ & HL & TL & -> & Cp & Cq & _ & _).
  rewrite <- Hocc in *.
  apply main_loop_spec in HL; [|exact Hfs|lia].
  destruct HL as (evL' & TL' & _ & _ & _ & _ & (E1 & E2 & EE & A1 & _ & A3) & _).
  pose proof (same_events _ _ _ _ TL' TL) as ->.
  unfold submitted_samples.
  rewrite !submitted_app, <- (submitted_core pre), <- (submitted_core post), Cp, Cq.
  cbn [submitted flat_map app]. rewrite app_nil_r.
  rewrite EE, submitted_app, length_app, sum_samples_app, Nat2Z.inj_add.
  rewrite (full_frames_sum _ _ A1), (frames_ok_count _ _ _ Hfs A3).
  replace (frame_size occ * Z.of_nat (length (submitted E1))
           + sum_samples (submitted E2) + frame_size occ - 1)
    with (Z.of_nat (length (submitted E1)) * frame_size occ
          + (sum_samples (submitted E2) + frame_size occ - 1)) by lia.
  rewrite Z.div_add_l by lia. reflexivity.
Qed.

Lemma frames_sent_count_witness :
  processInput 10 Scenario.plain process_start
    = Some (Returned 0, final_state 10 Scenario.plain process_start) /\
  stored_samples (trace (final_state 10 Scenario.plain process_start)) = 2304 /\
  length (submitted (trace (final_state 10 Scenario.plain process_start))) = 3%nat.
Proof.
  assert (H : processInput 10 Scenario.plain process_start
              = Some (Returned 0, final_state 10 Scenario.plain process_start))
    by (vm_compute; reflexivity).
  split; [exact H|]. split; [vm_compute; reflexivity|].
  apply Nat2Z.inj.
  rewrite (frames_sent_count 10 Scenario.plain process_start (Returned 0)
             (final_state 10 Scenario.plain process_start)
             (trace (final_state 10 Scenario.plain process_start)) H).
  - vm_compute. reflexivity.
  - vm_compute. reflexivity.
  - vm_compute. tauto.
Defined.

Lemma drain_events_decoded : forall evs,
  forallb is_drain_event evs = true -> decoded_samples evs = 0.
Proof. by_class. Qed.

Lemma flush_events_decoded : forall evs,
  forallb is_flush_event evs = true -> decoded_samples evs = 0.
Proof. by_class. Qed.

(** A successful [decodeAudioFrame] takes one packet off the file.  When the
    file yields its packets without error and the decoder holds nothing back
    at the end of the file, a frame comes only with a packet and never
    together with [finished]. *)
Lemma decodeAudioFrame_yield c s dp fin' s' :
  decodeAudioFrame c false false s = (0, dp, fin', s') ->
  (packets s = [] -> receive_frame c < 0) ->
  (packets s <> [] -> 0 <= read_frame c) ->
  exists evs, trace s' = trace s ++ evs /\
    packets s' = tl (packets s) /\
    stored_samples evs = 0 /\
    (dp = true -> fin' = false /\ packets s <> [] /\
                  decoded_samples evs = nb_samples c) /\
    (dp = false -> decoded_samples evs = 0).
Proof.
  intros H He Hp. unfold decodeAudioFrame in H.
  destruct s as [p0 pk0 ec0 fz0 tr0]. st_unfold H.
  cbn [packets] in He, Hp.
  split_ifs; to_prop; try (inversion H; lia).
  all: try (specialize (He eq_refl); inversion H; lia).
  all: try (assert (Hq : 0 <= read_frame c) by (apply Hp; discriminate);
            try lia).
  all: ledger_path.
  all: try (intros Hx; discriminate Hx).
Qed.

Lemma readDecodeConvertAndStore_conserves f s fin' s' :
  readDecodeConvertAndStore f false s = (0, fin', s') ->
  Forall (fun c => 0 <= read_frame c /\ 0 <= nb_samples c) (packets s) ->
  receive_frame (at_eof f) < 0 ->
  exists evs, trace s' = trace s ++ evs /\
    packets s' = tl (packets s) /\
    stored_samples evs = decoded_samples evs.
Proof.
  intros H Hw He. rdcas_walk H.
  all: apply initInputFrame_spec in E1 as (ev1 & (T1 & _) & K1 & C1 & _).
  all: apply core_nil_facts in C1 as (D1 & W1 & _).
  all: apply readDecodeConvertAndStore_cleanup_spec in H
         as (Hx & evc & (Tc & _) & Kc & Cc).
  all: apply core_nil_facts in Cc as (Dc & Wc & _).
  all: inversion Hx; subst; clear Hx.
  all: apply decodeAudioFrame_yield in E2;
    [ destruct E2 as (ev2 & T2 & K2 & W2 & Y2 & N2)
    | rewrite K1; intros Hk; rewrite Hk; exact He
    | rewrite K1; intros Hk; destruct (packets s) as [|c0 rest];
      [contradiction|]; inversion Hw; tauto ].
  - (* finished *)
    exists (ev1 ++ ev2 ++ evc). split; [trace_chain|].
    split; [congruence|].
    rewrite !stored_samples_app, !decoded_samples_app.
    destruct dp; [destruct (Y2 eq_refl) as [Hx _]; discriminate Hx|].
    rewrite (N2 eq_refl). lia.
  - (* a frame: converted and stored *)
    apply initConvertedSamples_spec in E3 as (ev3 & (T3 & _) & K3 & C3).
    apply core_nil_facts in C3 as (D3 & W3 & _).
    apply convertSamples_spec in E4 as (ev4 & (T4 & _) & K4 & C4).
    apply core_nil_facts in C4 as (D4 & W4 & _).
    apply addSamplesToFifo_spec in E5 as (ev5 & (T5 & _) & K5 & D5 & _ & W5).
    destruct (Y2 eq_refl) as (_ & Hne & Y).
    exists (ev1 ++ ev2 ++ ev3 ++ ev4 ++ ev5 ++ evc). split; [trace_chain|].
    split; [congruence|].
    rewrite !stored_samples_app, !decoded_samples_app.
    rewrite W5; [lia|reflexivity|].
    destruct (packets s) as [|c0 rest]; [contradiction|]. inversion Hw; tauto.
  - (* no frame *)
    exists (ev1 ++ ev2 ++ evc). split; [trace_chain|].
    split; [congruence|].
    rewrite !stored_samples_app, !decoded_samples_app.
    rewrite (N2 eq_refl). lia.
Qed.

Lemma main_loop_conserves fuel e occ s s' :
  main_loop fuel e occ s = Some (0, s') ->
  receive_frame (at_eof (input e)) < 0 ->
  Forall (fun c => 0 <= read_frame c /\ 0 <= nb_samples c) (packets s) ->
  exists evs, trace s' = trace s ++ evs /\
    stored_samples evs = decoded_samples evs.
Proof.
  intros H He Hw.
  apply (main_loop_rule e occ
           (fun s s' => exists evs, trace s' = trace s ++ evs /\
              (Forall (fun c => 0 <= read_frame c /\ 0 <= nb_samples c) (packets s) ->
               Forall (fun c => 0 <= read_frame c /\ 0 <= nb_samples c) (packets s') /\
               stored_samples evs = decoded_samples evs))
           (fun r => r = 0)) in H; auto.
  - destruct H as (evs & T & H). exists evs. split; [exact T|]. apply H, Hw.
  - intros s0. exists []. rewrite app_nil_r. auto.
  - intros s1 s2 s3 (e1 & T1 & H1) (e2 & T2 & H2).
    exists (e1 ++ e2). split; [rewrite T2, T1; symmetry; apply app_assoc|].
    intros W1. destruct (H1 W1) as [W2 Q1]. destruct (H2 W2) as [W3 Q2].
    split; [exact W3|]. rewrite stored_samples_app, decoded_samples_app. lia.
  - intros s0 r fin' s0' _ -> E.
    pose proof (readDecodeConvertAndStore_spec _ _ _ _ _ _ E) as (evs & (T & _) & _).
    exists evs. split; [exact T|]. intros W.
    destruct (readDecodeConvertAndStore_conserves _ _ _ _ E W He) as (evs' & T' & K & Q).
    pose proof (same_events _ _ _ _ T' T) as ->.
    split; [|exact Q]. rewrite K.
    destruct (packets s0) as [|c0 rest]; [exact W|]. inversion W; assumption.
  - intros fin s0 r s0' _ _ E.
    pose proof (loadEncodeAndWrite_events _ _ _ _ _ E) as (evs & T & C & _).
    destruct (loadEncodeAndWrite_ledger _ _ _ _ _ [] E) as (evs' & T' & _ & K).
    exists evs. split; [exact T|]. intros W. rewrite K. split; [exact W|].
    rewrite <- stored_samples_core, <- decoded_samples_core.
    rewrite (drain_events_stored _ C), (drain_events_decoded _ C). reflexivity.
  - intros s0 r dw s0' _ E.
    apply encodeAudioFrame_spec in E as (evs & T & K & _ & _ & G1).
    exists evs. split; [exact T|]. intros W. rewrite K. split; [exact W|].
    rewrite <- stored_samples_core, <- decoded_samples_core.
    destruct G1 as [(C & _)|[(C & _)|(C & _)]]; rewrite C; reflexivity.
Qed.

(** X5.  Nothing is lost on the way when the input is well behaved: the file
    yields its packets without error, no frame has a negative number of
    samples, and the decoder holds no frame back when the end of the file is
    reached.  In a run that gets as far as the trailer, the samples the
    decoder handed out are the samples that entered the FIFO and the samples
    that were handed to the encoder. *)
Theorem samples_conserved fuel e s out s' evs :
  processInput fuel e s = Some (out, s') ->
  trace s' = trace s ++ evs ->
  In WriteTrailer evs ->
  Forall (fun c => 0 <= read_frame c /\ 0 <= nb_samples c)
         (file_packets (input e)) ->
  receive_frame (at_eof (input e)) < 0 ->
  decoded_samples evs = stored_samples evs /\
  stored_samples evs = submitted_samples evs.
Proof.
  intros H T Hin Hw He.
  pose proof (trailer_needs_frame_size _ _ _ _ _ _ H T Hin) as Hfs.
  destruct (processInput_run _ _ _ _ _ _ H T Hfs) as (_ & _ & Hf).
  destruct (Hf Hin) as (_ & _ & _ & _ & _ & _ & Hs).
  split; [|exact Hs]. clear Hf Hs.
  destruct (processInput_trailer_inv _ _ _ _ _ _ H T Hin)
    as (occ & s1 & s2 & pre & evL & post & _ & K1 & _ & _ & HL & TL & -> & Cp & Cq & _ & _).
  rewrite <- K1 in Hw.
  destruct (main_loop_conserves _ _ _ _ _ HL He Hw) as (evL' & TL' & Q).
  pose proof (same_events _ _ _ _ TL' TL) as ->.
  rewrite !stored_samples_app, !decoded_samples_app.
  rewrite <- (stored_samples_core pre), <- (stored_samples_core post),
    <- (decoded_samples_core pre), <- (decoded_samples_core post), Cp, Cq.
  cbn. lia.
Qed.

Lemma samples_conserved_witness :
  processInput 10 Scenario.plain process_start
    = Some (Returned 0, final_state 10 Scenario.plain process_start) /\
  decoded_samples (trace (final_state 10 Scenario.plain process_start))
  = submitted_samples (trace (final_state 10 Scenario.plain process_start)).
Proof.
  assert (H : processInput 10 Scenario.plain process_start
              = Some (Returned 0, final_state 10 Scenario.plain process_start))
    by (vm_compute; reflexivity).
  split; [exact H|].
  destruct (samples_conserved 10 Scenario.plain process_start (Returned 0)
              (final_state 10 Scenario.plain process_start)
              (trace (final_state 10 Scenario.plain process_start)) H)
    as [Ha Hb].
  - vm_compute. reflexivity.
  - vm_compute. tauto.
  - vm_compute. repeat constructor; discriminate.
  - vm_compute. reflexivity.
  - rewrite Ha. exact Hb.
Defined.

(** ** Failures and their diagnostics *)

Lemma diagnostics_app a b : diagnostics (a ++ b) = diagnostics a ++ diagnostics b.
Proof. apply filter_app. Qed.

Ltac report_path :=
  match goal with
  | H : (_, _) = (_, _) |- _ => inversion H; subst; clear H
  end; cbn [trace pts packets encoder_calls fifo_samples];
  eexists; split;
  [ rewrite <- ?app_assoc; cbn [app]; try reflexivity; symmetry; apply app_nil_r | ];
  intros; cbn; try discriminate; try lia; try congruence.

Lemma openInputFile_reports f icc s r ifc icc' s' :
  openInputFile f icc s = (r, ifc, icc', s') ->
  0 <= parameters_to_context f ->
  exists evs, trace s' = trace s ++ evs /\ (r <> 0 -> diagnostics evs <> []).
Proof.
  intros H Hp. unfold openInputFile in H.
  destruct s as [p0 pk0 ec0 fz0 tr0]. st_unfold H.
  split_ifs; to_prop; try lia; report_path.
Qed.

Lemma openOutputFile_reports o ctx ofc occ s r ofc' occ' s' :
  openOutputFile o ctx ofc occ s = (r, ofc', occ', s') ->
  exists evs, trace s' = trace s ++ evs /\ (r <> 0 -> diagnostics evs <> []).
Proof.
  intros H. unfold openOutputFile, openOutputFile_cleanup in H.
  destruct s as [p0 pk0 ec0 fz0 tr0]. st_unfold H.
  split_ifs; to_prop; report_path.
Qed.

Lemma initResampler_reports e icc occ s r swr s' :
  initResampler e icc occ s = (Returned (r, swr), s') ->
  exists evs, trace s' = trace s ++ evs /\ (r <> 0 -> diagnostics evs <> []).
Proof.
  intros H. unfold initResampler in H.
  destruct s as [p0 pk0 ec0 fz0 tr0]. st_unfold H.
  split_ifs; to_prop; try discriminate; report_path.
Qed.

Lemma initFifo_reports e s r fifo s' :
  initFifo e s = (r, fifo, s') ->
  exists evs, trace s' = trace s ++ evs /\ (r <> 0 -> diagnostics evs <> []).
Proof.
  intros H. unfold initFifo in H.
  destruct s as [p0 pk0 ec0 fz0 tr0]. st_unfold H.
  split_ifs; to_prop; report_path.
Qed.

Lemma writeOutputFileHeader_reports o s r s' :
  writeOutputFileHeader o s = (r, s') ->
  exists evs, trace s' = trace s ++ evs /\ (r <> 0 -> diagnostics evs <> []).
Proof.
  intros H. unfold writeOutputFileHeader in H.
  destruct s as [p0 pk0 ec0 fz0 tr0]. st_unfold H.
  split_ifs; to_prop; report_path.
Qed.

Lemma writeOutputFileTrailer_reports o s r s' :
  writeOutputFileTrailer o s = (r, s') ->
  exists evs, trace s' = trace s ++ evs /\ (r <> 0 -> diagnostics evs <> []).
Proof.
  intros H. unfold writeOutputFileTrailer in H.
  destruct s as [p0 pk0 ec0 fz0 tr0]. st_unfold H.
  split_ifs; to_prop; report_path.
Qed.

Lemma initInputFrame_reports ok s r p s' :
  initInputFrame ok s = (r, p, s') ->
  exists evs, trace s' = trace s ++ evs /\ (r <> 0 -> diagnostics evs <> []).
Proof.
  intros H. destruct s as [p0 pk0 ec0 fz0 tr0]. st_unfold H.
  split_ifs; to_prop; report_path.
Qed.

Lemma decodeAudioFrame_reports c dp fin s r dp' fin' s' :
  decodeAudioFrame c dp fin s = (r, dp', fin', s') ->
  receive_frame c <= 0 ->
  exists evs, trace s' = trace s ++ evs /\ (r <> 0 -> diagnostics evs <> []).
Proof.
  intros H Hr. unfold decodeAudioFrame in H.
  destruct s as [p0 pk0 ec0 fz0 tr0]. st_unfold H.
  split_ifs; to_prop; report_path.
Qed.

Lemma initConvertedSamples_reports c s r p d s' :
  initConvertedSamples c s = (r, p, d, s') ->
  exists evs, trace s' = trace s ++ evs /\ (r <> 0 -> diagnostics evs <> []).
Proof.
  intros H. unfold initConvertedSamples in H.
  destruct s as [p0 pk0 ec0 fz0 tr0]. st_unfold H.
  split_ifs; to_prop; report_path.
Qed.

Lemma convertSamples_reports c s r s' :
  convertSamples c s = (r, s') ->
  exists evs, trace s' = trace s ++ evs /\ (r <> 0 -> diagnostics evs <> []).
Proof.
  intros H. unfold convertSamples in H.
  destruct s as [p0 pk0 ec0 fz0 tr0]. st_unfold H.
  split_ifs; to_prop; report_path.
Qed.

Lemma addSamplesToFifo_reports c n s r s' :
  addSamplesToFifo c n s = (r, s') ->
  exists evs, trace s' = trace s ++ evs /\ (r <> 0 -> diagnostics evs <> []).
Proof.
  intros H. unfold addSamplesToFifo in H.
  destruct s as [p0 pk0 ec0 fz0 tr0]. st_unfold H.
  split_ifs; to_prop; report_path.
Qed.

Lemma encodeAudioFrame_reports o frame dp s r dp' s' :
  encodeAudioFrame o frame dp s = (r, dp', s') ->
  write_frame (encoder o (encoder_calls s)) <= 0 ->
  exists evs, trace s' = trace s ++ evs /\ (r <> 0 -> diagnostics evs <> []).
Proof.
  intros H Hw. unfold encodeAudioFrame in H.
  destruct s as [p0 pk0 ec0 fz0 tr0]. st_unfold H. cbn [encoder_calls] in Hw.
  split_ifs; to_prop; report_path.
Qed.

Lemma loadEncodeAndWrite_reports o occ s r s' :
  loadEncodeAndWrite o occ s = (r, s') ->
  write_frame (encoder o (encoder_calls s)) <= 0 ->
  exists evs, trace s' = trace s ++ evs /\ (r <> 0 -> diagnostics evs <> []).
Proof.
  intros H Hw.
  unfold loadEncodeAndWrite, encodeAudioFrame, initOutputFrame in H.
  destruct s as [p0 pk0 ec0 fz0 tr0]. st_unfold H.
  cbn [fifo_samples pts trace packets encoder_calls] in *.
  split_ifs; to_prop; report_path.
Qed.

Lemma readDecodeConvertAndStore_reports f fin s r fin' s' :
  readDecodeConvertAndStore f fin s = (r, fin', s') ->
  Forall (fun c => receive_frame c <= 0) (packets s) ->
  receive_frame (at_eof f) <= 0 ->
  exists evs, trace s' = trace s ++ evs /\ (r <> 0 -> diagnostics evs <> []).
Proof.
  intros H Hw He.
  assert (Hc : receive_frame (match packets s with [] => at_eof f | c :: _ => c end) <= 0).
  { destruct (packets s) as [|c0 rest]; [exact He|]. inversion Hw; assumption. }
  rdcas_walk H.
  all: apply initInputFrame_reports in E1 as (ev1 & T1 & D1).
  all: try (apply decodeAudioFrame_reports in E2 as (ev2 & T2 & D2); [|exact Hc]).
  all: try apply initConvertedSamples_reports in E3 as (ev3 & T3 & D3).
  all: try apply convertSamples_reports in E4 as (ev4 & T4 & D4).
  all: try apply addSamplesToFifo_reports in E5 as (ev5 & T5 & D5).
  all: apply readDecodeConvertAndStore_cleanup_spec in H
         as (Hx & evc & (Tc & _) & _).
  all: inversion Hx; subst; clear Hx.
  all: eexists; (split; [trace_chain|]).
  all: try (intros Hn; exfalso; apply Hn; reflexivity).
  all: intros _; rewrite !diagnostics_app; intros Hnil.
  all: repeat match goal with
       | B : negb (_ =? 0) = true |- _ => apply negb_true_iff, Z.eqb_neq in B
       | B : negb (_ =? 0) = false |- _ => apply negb_false_iff, Z.eqb_eq in B
       end.
  all: repeat match goal with
       | Hx : _ ++ _ = [] |- _ => apply app_eq_nil in Hx; destruct Hx
       end.
  all: match goal with
       | B : ?x <> 0, D : ?x <> 0 -> _ <> [] |- _ => apply (D B); assumption
       end.
Qed.

Section LoopFailure.

Variables (e : Env) (occ : CodecContext).
Variable R : State -> State -> Prop.

Hypothesis R_refl : forall s, R s s.
Hypothesis R_trans : forall s1 s2 s3, R s1 s2 -> R s2 s3 -> R s1 s3.

Hypothesis fill_call : forall s fin' s',
  readDecodeConvertAndStore (input e) false s = (0, fin', s') -> R s s'.

Hypothesis drain_call : forall s s',
  loadEncodeAndWrite (output e) occ s = (0, s') -> R s s'.

Hypothesis flush_call : forall s dw s',
  encodeAudioFrame (output e) None false s = (0, dw, s') -> R s s'.

Lemma main_loop_success fuel s r s' :
  main_loop fuel e occ s = Some (r, s') -> r = 0 -> R s s'.
Proof.
  intros H Hr.
  apply (main_loop_rule e occ R (fun r => r = 0)) in H; auto.
  - intros s0 r0 fin' s0' _ -> E. eapply fill_call; eauto.
  - intros fin s0 r0 s0' _ -> E. eapply drain_call; eauto.
  - intros s0 r0 dw s0' -> E. eapply flush_call; eauto.
Qed.

Lemma fill_loop_failure fuel : forall s r fin' s',
  fill_loop fuel (input e) (frame_size occ) false s = Some (r, fin', s') ->
  (r = 0 -> R s s') /\
  (r <> 0 -> exists s0, R s s0 /\ failed_call e occ r s0 s').
Proof.
  induction fuel as [|fuel IH]; intros s r fin' s' H; [discriminate|].
  cbn [fill_loop] in H.
  destruct (fifo_samples s <? frame_size occ) eqn:C.
  2:{ inversion H; subst. split; [auto|]. intros Hn. contradiction. }
  destruct (readDecodeConvertAndStore (input e) false s) as [[r1 fin1] s1] eqn:E.
  destruct (negb (r1 =? 0)) eqn:B.
  { inversion H; subst. apply negb_true_iff, Z.eqb_neq in B.
    split; [intros Hz; contradiction|]. intros _.
    exists s. split; [apply R_refl|]. left. eauto. }
  apply negb_false_iff, Z.eqb_eq in B. subst r1.
  destruct fin1.
  { inversion H; subst. split; [intros _; eapply fill_call; eauto|].
    intros Hn. contradiction. }
  apply IH in H as [Hz Hn]. split.
  - intros Hr. eapply R_trans; [eapply fill_call; eauto|auto].
  - intros Hr. destruct (Hn Hr) as (s0 & Rs & F).
    exists s0. split; [|exact F]. eapply R_trans; [eapply fill_call; eauto|exact Rs].
Qed.

Lemma drain_loop_failure fuel fin : forall s r s',
  drain_loop fuel (output e) occ (frame_size occ) fin s = Some (r, s') ->
  (r = 0 -> R s s') /\
  (r <> 0 -> exists s0, R s s0 /\ failed_call e occ r s0 s').
Proof.
  induction fuel as [|fuel IH]; intros s r s' H; [discriminate|].
  cbn [drain_loop] in H.
  destruct (drain_condition (frame_size occ) fin s) eqn:C.
  2:{ inversion H; subst. split; [auto|]. intros Hn. contradiction. }
  destruct (loadEncodeAndWrite (output e) occ s) as [r1 s1] eqn:E.
  destruct (negb (r1 =? 0)) eqn:B.
  { inversion H; subst. apply negb_true_iff, Z.eqb_neq in B.
    split; [intros Hz; contradiction|]. intros _.
    exists s. split; [apply R_refl|]. right. left. exact E. }
  apply negb_false_iff, Z.eqb_eq in B. subst r1.
  apply IH in H as [Hz Hn]. split.
  - intros Hr. eapply R_trans; [eapply drain_call; eauto|auto].
  - intros Hr. destruct (Hn Hr) as (s0 & Rs & F).
    exists s0. split; [|exact F]. eapply R_trans; [eapply drain_call; eauto|exact Rs].
Qed.

Lemma flush_loop_failure fuel : forall s r s',
  flush_loop fuel (output e) s = Some (r, s') ->
  (r = 0 -> R s s') /\
  (r <> 0 -> exists s0, R s s0 /\ failed_call e occ r s0 s').
Proof.
  induction fuel as [|fuel IH]; intros s r s' H; [discriminate|].
  cbn [flush_loop] in H.
  destruct (encodeAudioFrame (output e) None false s) as [[r1 dw] s1] eqn:E.
  destruct (negb (r1 =? 0)) eqn:B.
  { inversion H; subst. apply negb_true_iff, Z.eqb_neq in B.
    split; [intros Hz; contradiction|]. intros _.
    exists s. split; [apply R_refl|]. right. right. eauto. }
  apply negb_false_iff, Z.eqb_eq in B. subst r1.
  destruct dw.
  - apply IH in H as [Hz Hn]. split.
    + intros Hr. eapply R_trans; [eapply flush_call; eauto|auto].
    + intros Hr. destruct (Hn Hr) as (s0 & Rs & F).
      exists s0. split; [|exact F].
      eapply R_trans; [eapply flush_call; eauto|exact Rs].
  - inversion H; subst. split; [intros _; eapply flush_call; eauto|].
    intros Hn. contradiction.
Qed.

Lemma main_loop_failure fuel : forall s r s',
  main_loop fuel e occ s = Some (r, s') -> r <> 0 ->
  exists s0, R s s0 /\ failed_call e occ r s0 s'.
Proof.
  induction fuel as [|fuel IH]; intros s r s' H Hr; [discriminate|].
  cbn [main_loop] in H.
  destruct (fill_loop fuel (input e) (frame_size occ) false s)
    as [[[r1 fin1] s1]|] eqn:EF; [|discriminate].
  apply fill_loop_failure in EF as [Fz Fn].
  destruct (negb (r1 =? 0)) eqn:B1.
  { inversion H; subst. apply Fn. exact Hr. }
  apply negb_false_iff, Z.eqb_eq in B1. subst r1. specialize (Fz eq_refl).
  destruct (drain_loop fuel (output e) occ (frame_size occ) fin1 s1)
    as [[r2 s2]|] eqn:ED; [|discriminate].
  apply drain_loop_failure in ED as [Dz Dn].
  destruct (negb (r2 =? 0)) eqn:B2.
  { inversion H; subst. destruct (Dn Hr) as (s0 & Rs & F).
    exists s0. split; [eapply R_trans; eauto|exact F]. }
  apply negb_false_iff, Z.eqb_eq in B2. subst r2. specialize (Dz eq_refl).
  assert (R02 : R s s2) by (eapply R_trans; eauto).
  destruct fin1.
  - apply flush_loop_failure in H as [_ Ln]. destruct (Ln Hr) as (s0 & Rs & F).
    exists s0. split; [eapply R_trans; eauto|exact F].
  - apply IH in H as (s0 & Rs & F); [|exact Hr].
    exists s0. split; [eapply R_trans; eauto|exact F].
Qed.

End LoopFailure.

Lemma decodeAudioFrame_packets c dp fin s r dp' fin' s' :
  decodeAudioFrame c dp fin s = (r, dp', fin', s') ->
  packets s' = packets s \/ packets s' = tl (packets s).
Proof.
  intros H. unfold decodeAudioFrame in H.
  destruct s as [p0 pk0 ec0 fz0 tr0]. st_unfold H.
  split_ifs; inversion H; subst; cbn; auto.
Qed.

Lemma readDecodeConvertAndStore_packets f fin s r fin' s' :
  readDecodeConvertAndStore f fin s = (r, fin', s') ->
  packets s' = packets s \/ packets s' = tl (packets s).
Proof.
  intros H. rdcas_walk H.
  all: apply initInputFrame_spec in E1 as (ev1 & _ & K1 & _).
  all: try apply decodeAudioFrame_packets in E2 as K2.
  all: try apply initConvertedSamples_spec in E3 as (ev3 & _ & K3 & _).
  all: try apply convertSamples_spec in E4 as (ev4 & _ & K4 & _).
  all: try apply addSamplesToFifo_spec in E5 as (ev5 & _ & K5 & _).
  all: apply readDecodeConvertAndStore_cleanup_spec in H as (_ & evc & _ & Kc & _).
  all: try (left; congruence).
  all: destruct K2 as [K2|K2]; [left|right]; congruence.
Qed.

Lemma Forall_tl {A} (P : A -> Prop) l : Forall P l -> Forall P (tl l).
Proof. destruct l; [auto|]. intros H. inversion H; assumption. Qed.

Lemma main_loop_unreported fuel e occ s r s' evs :
  main_loop fuel e occ s = Some (r, s') ->
  trace s' = trace s ++ evs ->
  Forall (fun c => receive_frame c <= 0) (packets s) ->
  receive_frame (at_eof (input e)) <= 0 ->
  (forall k, write_frame (encoder (output e) k) <= 0) ->
  r <> 0 -> diagnostics evs <> [].
Proof.
  intros H T Hw He Hk Hr.
  apply (main_loop_failure e occ
           (fun s s0 => (exists pre, trace s0 = trace s ++ pre) /\
              (Forall (fun c => receive_frame c <= 0) (packets s) ->
               Forall (fun c => receive_frame c <= 0) (packets s0)))) in H; auto.
  - destruct H as (s0 & ((pre & Tp) & Hinv) & F).
    specialize (Hinv Hw).
    assert (Hs : exists ev, trace s' = trace s0 ++ ev /\ diagnostics ev <> []).
    { destruct F as [(fin' & F)|[F|(dw & F)]].
      - apply readDecodeConvertAndStore_reports in F as (ev & Te & D); eauto.
      - apply loadEncodeAndWrite_reports in F as (ev & Te & D); eauto.
      - apply encodeAudioFrame_reports in F as (ev & Te & D); eauto. }
    destruct Hs as (ev & Te & D).
    rewrite Tp, <- app_assoc in Te.
    pose proof (same_events _ _ _ _ Te T) as <-.
    rewrite diagnostics_app. intros Hnil.
    apply app_eq_nil in Hnil as [_ Hnil]. contradiction.
  - intros s0. split; [exists []; symmetry; apply app_nil_r|auto].
  - intros s1 s2 s3 ((p1 & T1) & H1) ((p2 & T2) & H2). split; [|auto].
    exists (p1 ++ p2). rewrite T2, T1. symmetry. apply app_assoc.
  - intros s0 fin' s0' E. split.
    + apply readDecodeConvertAndStore_spec in E as (ev & (Te & _) & _). eauto.
    + intros W. apply readDecodeConvertAndStore_packets in E as [-> | ->];
        [exact W|apply Forall_tl, W].
  - intros s0 s0' E.
    destruct (loadEncodeAndWrite_ledger _ _ _ _ _ [] E) as (ev & Te & _ & K).
    split; [eauto|]. rewrite K. auto.
  - intros s0 dw s0' E.
    apply encodeAudioFrame_spec in E as (ev & Te & K & _).
    split; [eauto|]. rewrite K. auto.
Qed.

(** X8.  Failures are told.  When [avcodec_parameters_to_context] does not
    fail and no call of libav answers a positive value where 0 stands for
    success ([avcodec_receive_frame], [av_write_frame]), every run whose
    answer is not 0 has written at least one diagnostic. *)
Theorem failures_are_reported fuel e s out s' evs :
  processInput fuel e s = Some (out, s') ->
  trace s' = trace s ++ evs ->
  0 <= parameters_to_context (input e) ->
  Forall (fun c => receive_frame c <= 0) (file_packets (input e)) ->
  receive_frame (at_eof (input e)) <= 0 ->
  (forall k, write_frame (encoder (output e) k) <= 0) ->
  out <> Returned 0 ->
  diagnostics evs <> [].
Proof.
  intros H T Hp Hw He Hk Ho.
  processInput_walk H.
  all: try (pose proof (openInputFile_ledger _ _ _ _ _ _ _ [] E1)
              as (_ & _ & _ & _ & _ & Ra & _)).
  all: try (pose proof (openOutputFile_packets _ _ _ _ _ _ _ _ _ E2) as K2).
  all: try (pose proof (initResampler_ledger _ _ _ _ _ _ _ [] E3)
              as (_ & _ & _ & _ & _ & K3)).
  all: try (pose proof (initFifo_ledger _ _ _ _ _ [] E4)
              as (_ & _ & _ & _ & _ & K4 & _)).
  all: try (pose proof (writeOutputFileHeader_ledger _ _ _ _ [] E5)
              as (_ & _ & _ & _ & _ & K5 & _)).
  all: try (destruct (main_loop_extends _ _ _ _ _ _ E6) as (ev6 & T6)).
  all: try (assert (D6 : r6 <> 0 -> diagnostics ev6 <> [])
              by (intros Hr6; apply (main_loop_unreported _ _ _ _ _ _ _ E6 T6);
                  auto; destruct (Ra eq_refl) as (_ & _ & K1); congruence)).
  all: try (assert (D6 : 0 <> 0 -> diagnostics ev6 <> [])
              by (intros Hr6; contradiction)).
  all: apply openInputFile_reports in E1 as (ev1 & T1 & D1); [|exact Hp].
  all: try apply openOutputFile_reports in E2 as (ev2 & T2 & D2).
  all: try apply initResampler_reports in E3 as (ev3 & T3 & D3).
  all: try apply initFifo_reports in E4 as (ev4 & T4 & D4).
  all: try apply writeOutputFileHeader_reports in E5 as (ev5 & T5 & D5).
  all: try apply writeOutputFileTrailer_reports in E7 as (ev7 & T7 & D7).
  all: apply processInput_cleanup_spec in Ec as (Hx & evc & Tc & _).
  all: subst x.
  all: try (exfalso; apply Ho; reflexivity).
  all: run_events T; subst evs.
  all: rewrite !diagnostics_app; intros Hnil.
  all: repeat match goal with
       | B : negb (_ =? 0) = true |- _ => apply negb_true_iff, Z.eqb_neq in B
       end.
  all: repeat match goal with
       | Hx : _ ++ _ = [] |- _ => apply app_eq_nil in Hx; destruct Hx
       end.
  all: match goal with
       | B : ?x <> 0, D : ?x <> 0 -> _ <> [] |- _ => apply (D B); assumption
       end.
Qed.

Lemma failures_are_reported_witness :
  processInput 10 Scenario.no_trailer process_start
    = Some (Returned AVERROR_EXIT, final_state 10 Scenario.no_trailer process_start) /\
  diagnostics (trace (final_state 10 Scenario.no_trailer process_start)) <> [].
Proof.
  assert (H : processInput 10 Scenario.no_trailer process_start
              = Some (Returned AVERROR_EXIT,
                      final_state 10 Scenario.no_trailer process_start))
    by (vm_compute; reflexivity).
  split; [exact H|].
  apply (failures_are_reported 10 Scenario.no_trailer process_start
           (Returned AVERROR_EXIT)
           (final_state 10 Scenario.no_trailer process_start)
           (trace (final_state 10 Scenario.no_trailer process_start)) H).
  - vm_compute. reflexivity.
  - vm_compute. discriminate.
  - vm_compute. repeat constructor; discriminate.
  - vm_compute. discriminate.
  - intros k.
    unfold Scenario.no_trailer, Scenario.environment, Scenario.mp4_file_no_trailer.
    cbn [output encoder]. destruct (Nat.ltb k 3); vm_compute; discriminate.
  - intros Hx. unfold AVERROR_EXIT in Hx. discriminate Hx.
Defined.

(** ** Opening the files *)

(** X9.  [openInputFile] answers 0 exactly when the file opens, its stream
    information is found, it has one stream with a decoder, the decoder
    context is allocated, takes the stream's parameters and opens.  It then
    hands out both contexts and holds them.  Otherwise its answer is
    negative, the format context it hands out is null, the codec context of
    the caller is left as it was, and nothing it acquired is still held. *)
Theorem openInputFile_contract f icc s r ifc icc' s' :
  openInputFile f icc s = (r, ifc, icc', s') ->
  exists evs, trace s' = trace s ++ evs /\
    (r = 0 <->
     0 <= open_input f /\ 0 <= find_stream_info f /\
     (exists st, streams f = [st] /\ has_decoder st = true) /\
     alloc_context f = true /\
     0 <= parameters_to_context f /\ 0 <= codec_open f) /\
    (r = 0 ->
     ifc = true /\ icc' = Some (decoder_context f) /\
     packets s' = file_packets f /\
     owned [] evs = Some [InputCodecContext; InputFormatContext]) /\
    (r <> 0 ->
     r < 0 /\ ifc = false /\ icc' = icc /\ owned [] evs = Some []).
Proof.
  intros H. unfold openInputFile in H.
  destruct s as [p0 pk0 ec0 fz0 tr0]. st_unfold H.
  destruct (streams f) as [|st [|st' rest]] eqn:Es; cbn [length] in H.
  all: split_ifs; to_prop; try lia.
  all: match goal with
       | H : (_, _) = (_, _) |- _ => inversion H; subst; clear H
       end; cbn [trace pts packets encoder_calls fifo_samples];
       eexists; (split; [rewrite <- ?app_assoc; cbn [app]; try reflexivity;
                         symmetry; apply app_nil_r|]).
  all: split; [split; [intros Hx; try lia; try discriminate Hx
                      |intros (A1 & A2 & (st0 & A3 & A4) & A5 & A6 & A7);
                       try lia; try congruence]|].
  all: try (repeat split; eauto; try lia; fail).
  all: try (inversion A3; subst; congruence).
  all: try (split; [intros Hx; try lia; try discriminate Hx
                   |intros Hx; repeat split; auto; try lia; try congruence]).
  all: try (exfalso; apply Hx; reflexivity).
  all: try (repeat split; auto; try lia).
Qed.

Lemma openInputFile_contract_witness :
  fst (openInputFile Scenario.video_file None process_start)
    = (0, true, Some Scenario.mono_44100) /\
  exists evs,
    trace (snd (openInputFile Scenario.video_file None process_start))
      = trace process_start ++ evs /\
    owned [] evs = Some [InputCodecContext; InputFormatContext].
Proof.
  split; [vm_compute; reflexivity|].
  assert (H : openInputFile Scenario.video_file None process_start
              = (0, true, Some Scenario.mono_44100,
                 snd (openInputFile Scenario.video_file None process_start)))
    by (vm_compute; reflexivity).
  destruct (openInputFile_contract _ _ _ _ _ _ _ H) as (evs & T & _ & Hz & _).
  exists evs. split; [exact T|]. apply Hz. reflexivity.
Defined.

(** X10.  [openOutputFile] answers 0 exactly when every step succeeds.  The
    encoder context it then hands out is set up for two channels at 96000
    bit/s, at the sample rate of the input, with the experimental compliance,
    with the global header when the container asks for it, and with the
    frame size the opened encoder announces.  Every other answer is
    negative: the code of the failed call, [AVERROR(ENOMEM)], or
    [AVERROR_EXIT] when no container format or no encoder is found; the
    codec context of the caller is then left as it was. *)
Theorem openOutputFile_contract o ctx ofc occ s r ofc' occ' s' :
  openOutputFile o ctx ofc occ s = (r, ofc', occ', s') ->
  (r = 0 <->
   0 <= avio_open o /\ alloc_format_context o = true /\
   guess_format o = true /\ strdup_url o = true /\ find_encoder o = true /\
   new_stream o = true /\ alloc_encoder_context o = true /\
   0 <= encoder_open o /\ 0 <= parameters_from_context o) /\
  (r = 0 ->
   ofc' = true /\
   occ' = Some (mkCodecContext OUTPUT_CHANNELS (sample_rate ctx) OUTPUT_BIT_RATE
                               true (wants_global_header o)
                               (encoder_frame_size o))) /\
  (r <> 0 ->
   r < 0 /\ occ' = occ /\
   (0 <= avio_open o -> ofc' = false) /\
   (0 <= avio_open o -> alloc_format_context o = true ->
    guess_format o = false \/ strdup_url o = true /\ find_encoder o = false ->
    r = AVERROR_EXIT)).
Proof.
  intros H. unfold openOutputFile, openOutputFile_cleanup in H.
  destruct s as [p0 pk0 ec0 fz0 tr0]. st_unfold H.
  split_ifs; to_prop; try lia.
  all: inversion H; subst; clear H.
  all: split; [split; [intros Hx; try lia; try discriminate Hx
                      |intros (A1 & A2 & A3 & A4 & A5 & A6 & A7 & A8 & A9);
                       try lia; try congruence]|].
  all: try (repeat split; auto; try lia; fail).
  all: split; [intros Hx; try lia; try discriminate Hx
              |intros Hx; try (exfalso; apply Hx; reflexivity)].
  all: try (split; reflexivity).
  all: repeat split; auto; try lia; try congruence.
  all: intros; try lia; try congruence.
  all: try (match goal with
            | Hd : _ \/ _ |- _ => destruct Hd as [Hd|[Hd1 Hd2]]; congruence
            end).
Qed.

Lemma openOutputFile_contract_witness :
  openOutputFile (Scenario.mp4_file 3) Scenario.mono_44100 false None process_start
    = (0, true, Some (mkCodecContext 2 44100 96000 true true 1024),
       snd (openOutputFile (Scenario.mp4_file 3) Scenario.mono_44100 false None
                           process_start)) /\
  0 <= parameters_from_context (Scenario.mp4_file 3).
Proof.
  assert (H : openOutputFile (Scenario.mp4_file 3) Scenario.mono_44100 false None
                             process_start
              = (0, true, Some (mkCodecContext 2 44100 96000 true true 1024),
                 snd (openOutputFile (Scenario.mp4_file 3) Scenario.mono_44100
                                     false None process_start)))
    by (vm_compute; reflexivity).
  split; [exact H|].
  destruct (openOutputFile_contract _ _ _ _ _ _ _ _ _ H) as ([Hz _] & _).
  apply Hz. reflexivity.
Defined.

(** ** The whole file *)

Lemma decodeAudioFrame_at_eof c s dp fin' s' :
  decodeAudioFrame c false false s = (0, dp, fin', s') ->
  packets s = [] -> receive_frame c < 0 ->
  exists evs, trace s' = trace s ++ evs /\
    packets s' = [] /\ fin' = true /\ decoded_samples evs = 0.
Proof.
  intros H Hp He. unfold decodeAudioFrame in H.
  destruct s as [p0 pk0 ec0 fz0 tr0]. st_unfold H.
  cbn [packets] in Hp. subst pk0.
  split_ifs; to_prop; try (inversion H; lia); try discriminate.
  all: inversion H; subst; clear H; cbn [trace packets];
    eexists; (split; [rewrite <- ?app_assoc; cbn [app]; reflexivity|]);
    repeat split; cbn; auto; try lia.
Qed.

Lemma decodeAudioFrame_of_packet c c0 rest s dp fin' s' :
  decodeAudioFrame c false false s = (0, dp, fin', s') ->
  packets s = c0 :: rest ->
  0 <= read_frame c -> receive_frame c <> AVERROR_EOF ->
  exists evs, trace s' = trace s ++ evs /\
    packets s' = rest /\ fin' = false /\ ~ In Finished evs /\
    dp = (0 <=? receive_frame c) /\
    decoded_samples evs = (if 0 <=? receive_frame c then nb_samples c else 0).
Proof.
  intros H Hp Hr He. unfold decodeAudioFrame in H.
  destruct s as [p0 pk0 ec0 fz0 tr0]. st_unfold H.
  cbn [packets] in Hp. subst pk0.
  split_ifs; to_prop; try (inversion H; lia); try discriminate; try lia.
  all: destruct (0 <=? receive_frame c) eqn:E;
    [apply Z.leb_le in E | apply Z.leb_gt in E]; try lia.
  all: inversion H; subst; clear H; cbn [trace packets];
    eexists; (split; [rewrite <- ?app_assoc; cbn [app]; reflexivity|]).
  all: repeat split; cbn; auto; try lia; try (intuition discriminate).
Qed.

Lemma drain_events_no_finished : forall evs,
  forallb is_drain_event evs = true -> ~ In Finished evs.
Proof.
  induction evs as [|ev evs IH]; [auto|].
  cbn. intros H. apply andb_true_iff in H as [He H].
  intros [Hx|Hx]; [subst ev; discriminate He|exact (IH H Hx)].
Qed.

(** One successful call of [readDecodeConvertAndStore] on a file of plain
    packets: it takes the next packet, and the frame the packet brings
    enters the FIFO in full; at the end of the file it takes nothing and
    stores nothing. *)
Lemma readDecodeConvertAndStore_reads f s fin' s' :
  readDecodeConvertAndStore f false s = (0, fin', s') ->
  Forall plain_packet (packets s) ->
  receive_frame (at_eof f) < 0 ->
  exists evs, trace s' = trace s ++ evs /\
    packets s' = tl (packets s) /\
    stored_samples evs = decoded_samples evs /\
    decoded_samples evs + file_samples (packets s') = file_samples (packets s) /\
    (In Finished evs -> packets s = []).
Proof.
  intros H Hw He. rdcas_walk H.
  all: apply initInputFrame_spec in E1 as (ev1 & (T1 & _) & K1 & C1 & _).
  all: apply core_nil_facts in C1 as (D1 & W1 & F1).
  all: apply readDecodeConvertAndStore_cleanup_spec in H
         as (Hx & evc & (Tc & _) & Kc & Cc).
  all: apply core_nil_facts in Cc as (Dc & Wc & Fc).
  all: inversion Hx; subst; clear Hx.
  all: pose proof (decodeAudioFrame_spec _ _ _ _ _ _ _ _ E2)
         as (ev2' & (T2' & _) & W2 & _).
  all: destruct (packets s) as [|c0 rest] eqn:Ks.
  all: try (eapply decodeAudioFrame_at_eof in E2; [|congruence|exact He];
            destruct E2 as (ev2 & T2 & K2 & Hf & Y2); try discriminate Hf).
  all: try (eapply decodeAudioFrame_of_packet in E2;
            [ | rewrite K1; reflexivity
              | inversion Hw as [|? ? Hp _]; apply Hp
              | inversion Hw as [|? ? Hp _]; apply Hp ];
            destruct E2 as (ev2 & T2 & K2 & Hf & F2 & Hdp & Y2);
            try discriminate Hf).
  all: pose proof (same_events _ _ _ _ T2' T2) as ->.
  all: try (apply initConvertedSamples_spec in E3 as (ev3 & (T3 & _) & K3 & C3);
            apply core_nil_facts in C3 as (D3 & W3 & F3)).
  all: try (apply convertSamples_spec in E4 as (ev4 & (T4 & _) & K4 & C4);
            apply core_nil_facts in C4 as (D4 & W4 & F4)).
  all: try (apply addSamplesToFifo_spec in E5 as (ev5 & (T5 & _) & K5 & D5 & F5 & W5);
            specialize (W5 eq_refl)).
  all: eexists; (split; [trace_chain|]).
  all: rewrite ?stored_samples_app, ?decoded_samples_app, ?in_app_iff.
  all: cbn [tl file_samples fold_right].
  all: try fold (file_samples rest).
  all: try (rewrite <- Hdp in Y2).
  - (* the end of the file *)
    replace (packets s') with (@nil DecodeCall) by congruence.
    cbn. repeat split; try congruence; try lia.
  - (* a packet with its frame *)
    replace (packets s') with rest by congruence.
    inversion Hw as [|? ? (Hp1 & Hp2 & Hp3) _]; subst.
    rewrite <- Hdp. rewrite W5 by exact Hp2.
    repeat split; try congruence; try lia. tauto.
  - (* a packet without a frame *)
    replace (packets s') with rest by congruence.
    rewrite <- Hdp.
    repeat split; try congruence; try lia. tauto.
Qed.

Lemma main_loop_reads fuel e occ s s' :
  main_loop fuel e occ s = Some (0, s') ->
  receive_frame (at_eof (input e)) < 0 ->
  Forall plain_packet (packets s) ->
  exists evs, trace s' = trace s ++ evs /\
    stored_samples evs = decoded_samples evs /\
    decoded_samples evs + file_samples (packets s') = file_samples (packets s) /\
    (In Finished evs -> packets s' = []).
Proof.
  intros H He Hw.
  apply (main_loop_success e occ
           (fun s s' => exists evs, trace s' = trace s ++ evs /\
              (Forall plain_packet (packets s) ->
               Forall plain_packet (packets s') /\
               stored_samples evs = decoded_samples evs /\
               decoded_samples evs + file_samples (packets s')
               = file_samples (packets s) /\
               (In Finished evs -> packets s' = []) /\
               (packets s = [] -> packets s' = [])))) in H; auto.
  - destruct H as (evs & T & H). exists evs. split; [exact T|].
    destruct (H Hw) as (_ & A & B & C & _). auto.
  - intros s0. exists []. rewrite app_nil_r. split; [reflexivity|].
    intros W. repeat split; auto. intros [].
  - intros s1 s2 s3 (e1 & T1 & H1) (e2 & T2 & H2).
    exists (e1 ++ e2). split; [rewrite T2, T1; symmetry; apply app_assoc|].
    intros W1. destruct (H1 W1) as (W2 & A1 & B1 & C1 & N1).
    destruct (H2 W2) as (W3 & A2 & B2 & C2 & N2).
    rewrite stored_samples_app, decoded_samples_app, in_app_iff.
    repeat split; auto; try lia.
    intros [Hin|Hin]; auto.
  - intros s0 fin' s0' E.
    pose proof (readDecodeConvertAndStore_spec _ _ _ _ _ _ E) as (evs & (T & _) & _).
    exists evs. split; [exact T|]. intros W.
    destruct (readDecodeConvertAndStore_reads _ _ _ _ E W He)
      as (evs' & T' & K & A & B & C).
    pose proof (same_events _ _ _ _ T' T) as ->.
    repeat split; auto.
    + rewrite K. apply Forall_tl, W.
    + intros Hin. rewrite K, (C Hin). reflexivity.
    + intros Hk. rewrite K, Hk. reflexivity.
  - intros s0 s0' E.
    pose proof (loadEncodeAndWrite_events _ _ _ _ _ E) as (evs & T & C & _).
    destruct (loadEncodeAndWrite_ledger _ _ _ _ _ [] E) as (evs' & T' & _ & K).
    exists evs. split; [exact T|]. intros W. rewrite K.
    rewrite <- stored_samples_core, <- decoded_samples_core.
    rewrite (drain_events_stored _ C), (drain_events_decoded _ C).
    repeat split; auto.
    intros Hin. apply (in_core Finished evs eq_refl) in Hin.
    destruct (drain_events_no_finished _ C Hin).
  - intros s0 dw s0' E.
    apply encodeAudioFrame_spec in E as (evs & T & K & _ & _ & G1).
    exists evs. split; [exact T|]. intros W. rewrite K.
    rewrite <- stored_samples_core, <- decoded_samples_core.
    assert (Hn : ~ In Finished (core evs)).
    { destruct G1 as [(C & _)|[(C & _)|(C & _)]]; rewrite C; cbn;
        intuition discriminate. }
    destruct G1 as [(C & _)|[(C & _)|(C & _)]]; rewrite C; cbn;
      repeat split; auto; intros Hin;
      apply (in_core Finished evs eq_refl) in Hin; contradiction.
Qed.

(** X12.  The whole file reaches the encoder.  For a file of plain packets
    and a decoder that holds no frame back at the end of the file, a run
    that gets as far as the trailer has read every packet, and the samples
    handed to the encoder are the samples of all the frames the packets
    bring. *)
Theorem whole_file_is_transcoded fuel e s out s' evs :
  processInput fuel e s = Some (out, s') ->
  trace s' = trace s ++ evs ->
  In WriteTrailer evs ->
  Forall plain_packet (file_packets (input e)) ->
  receive_frame (at_eof (input e)) < 0 ->
  packets s' = [] /\
  submitted_samples evs = file_samples (file_packets (input e)).
Proof.
  intros H T Hin Hw He.
  pose proof (trailer_needs_frame_size _ _ _ _ _ _ H T Hin) as Hfs.
  destruct (processInput_run _ _ _ _ _ _ H T Hfs) as (_ & _ & Hf).
  destruct (Hf Hin) as (_ & _ & _ & _ & _ & _ & Hs).
  rewrite <- Hs. clear Hf Hs.
  destruct (processInput_trailer_inv _ _ _ _ _ _ H T Hin)
    as (occ & s1 & s2 & pre & evL & post & Hocc & K1 & F1 & _ & HL & TL & -> & Cp & Cq & Kp & _).
  rewrite <- K1 in *. rewrite <- Hocc in Hfs.
  destruct (main_loop_reads _ _ _ _ _ HL He Hw) as (evL' & TL' & A & B & C).
  pose proof (same_events _ _ _ _ TL' TL) as ->.
  destruct (main_loop_spec _ _ _ _ _ _ HL Hfs ltac:(lia))
    as (evL' & TL'' & _ & _ & _ & _ & _ & Hz).
  pose proof (same_events _ _ _ _ TL'' TL) as ->.
  destruct (Hz eq_refl) as (pre' & k & Hc & Hfin & _).
  assert (HinF : In Finished evL).
  { apply (in_core Finished evL eq_refl). rewrite Hc.
    apply in_or_app. left. exact Hfin. }
  specialize (C HinF). rewrite C in B. cbn in B.
  split; [congruence|].
  rewrite !stored_samples_app.
  rewrite <- (stored_samples_core pre), <- (stored_samples_core post), Cp, Cq.
  cbn. lia.
Qed.

Lemma whole_file_is_transcoded_witness :
  processInput 10 Scenario.plain process_start
    = Some (Returned 0, final_state 10 Scenario.plain process_start) /\
  submitted_samples (trace (final_state 10 Scenario.plain process_start))
  = file_samples (file_packets (input Scenario.plain)).
Proof.
  assert (H : processInput 10 Scenario.plain process_start
              = Some (Returned 0, final_state 10 Scenario.plain process_start))
    by (vm_compute; reflexivity).
  split; [exact H|].
  apply (whole_file_is_transcoded 10 Scenario.plain process_start (Returned 0)
           (final_state 10 Scenario.plain process_start)
           (trace (final_state 10 Scenario.plain process_start)) H).
  - vm_compute. reflexivity.
  - vm_compute. tauto.
  - repeat constructor; vm_compute; discriminate.
  - vm_compute. reflexivity.
Defined.

(** ** The level of the FIFO *)

Lemma fifo_level_app a b : fifo_level (a ++ b) = fifo_level a + fifo_level b.
Proof.
  unfold fifo_level. rewrite stored_samples_app, loaded_samples_app. lia.
Qed.

Lemma fifo_level_core evs : fifo_level (core evs) = fifo_level evs.
Proof.
  unfold fifo_level. rewrite stored_samples_core, loaded_samples_core. reflexivity.
Qed.

Lemma level_within_app lo hi l a b :
  level_within lo hi l a ->
  level_within lo hi (l + fifo_level a) b ->
  level_within lo hi l (a ++ b).
Proof.
  intros Ha Hb p q Hpq.
  apply app_eq_app in Hpq as (m & [[Hp Hq]|[Hp Hq]]).
  - subst. apply (Ha p m). reflexivity.
  - subst. rewrite fifo_level_app.
    specialize (Hb m q eq_refl). lia.
Qed.

Lemma level_within_core lo hi l evs :
  level_within lo hi l (core evs) -> level_within lo hi l evs.
Proof.
  intros H p q Hpq. subst evs. rewrite <- fifo_level_core.
  apply (H (core p) (core q)). apply core_app.
Qed.

Lemma level_within_quiet lo hi l evs :
  lo <= l < hi ->
  forallb (fun ev => negb (touches_fifo ev)) evs = true ->
  level_within lo hi l evs /\ fifo_level evs = 0.
Proof.
  intros Hl Hq.
  assert (Hz : forall p, forallb (fun ev => negb (touches_fifo ev)) p = true ->
                         fifo_level p = 0).
  { induction p as [|ev p IH]; [reflexivity|].
    cbn [forallb]. intros H. apply andb_true_iff in H as [He H].
    specialize (IH H). unfold fifo_level in *.
    destruct ev; try discriminate He; cbn;
      fold (stored_samples p); fold (loaded_samples p); lia. }
  split; [|apply Hz, Hq].
  intros p q Hpq. subst evs. rewrite forallb_app in Hq.
  apply andb_true_iff in Hq as [Hp _]. rewrite (Hz p Hp). lia.
Qed.

Lemma core_nil_quiet evs :
  core evs = [] -> forallb (fun ev => negb (touches_fifo ev)) evs = true.
Proof.
  induction evs as [|ev evs IH]; [reflexivity|].
  destruct ev; cbn; try discriminate; auto.
Qed.

Lemma decodeAudioFrame_quiet c dp fin s r dp' fin' s' :
  decodeAudioFrame c dp fin s = (r, dp', fin', s') ->
  exists evs, trace s' = trace s ++ evs /\
    forallb (fun ev => negb (touches_fifo ev)) evs = true.
Proof.
  intros H. unfold decodeAudioFrame in H.
  destruct s as [p0 pk0 ec0 fz0 tr0]. st_unfold H.
  split_ifs; inversion H; subst; clear H; cbn [trace];
    eexists; (split; [rewrite <- ?app_assoc; cbn [app]; try reflexivity;
                      symmetry; apply app_nil_r|]); reflexivity.
Qed.

Lemma addSamplesToFifo_level c n s r s' :
  addSamplesToFifo c n s = (r, s') ->
  exists evs, trace s' = trace s ++ evs /\
    (core evs = [] \/ core evs = [FifoWrite n] /\ 0 <= n).
Proof.
  intros H. unfold addSamplesToFifo in H.
  destruct s as [p0 pk0 ec0 fz0 tr0]. st_unfold H.
  split_ifs; to_prop; inversion H; subst; clear H; cbn [trace];
    eexists; (split; [rewrite <- ?app_assoc; cbn [app]; try reflexivity;
                      symmetry; apply app_nil_r|]); cbn; auto.
Qed.

Ltac short_prefixes :=
  let p := fresh "p" in let q := fresh "q" in let Hpq := fresh "Hpq" in
  intros p q Hpq;
  destruct p as [|? [|? [|? [|? ?]]]]; inversion Hpq; subst;
  unfold fifo_level, stored_samples, loaded_samples in *; cbn [fold_right]; lia.

(** One call of [readDecodeConvertAndStore]: at most one frame enters the
    FIFO, the frame of the packet it took. *)
Lemma readDecodeConvertAndStore_level f fin s r fin' s' lo hi :
  readDecodeConvertAndStore f fin s = (r, fin', s') ->
  exists evs, trace s' = trace s ++ evs /\
    (fifo_level evs = 0 \/
     exists c rest, packets s = c :: rest /\
       fifo_level evs = nb_samples c /\ 0 <= nb_samples c) /\
    (lo <= fifo_samples s -> fifo_samples s + fifo_level evs < hi ->
     level_within lo hi (fifo_samples s) evs).
Proof.
  intros H.
  rdcas_walk H.
  all: apply initInputFrame_spec in E1 as (ev1 & (T1 & _) & K1 & C1 & _).
  all: apply core_nil_quiet in C1.
  all: apply readDecodeConvertAndStore_cleanup_spec in H
         as (Hx & evc & (Tc & _) & Kc & Cc).
  all: apply core_nil_quiet in Cc.
  all: inversion Hx; subst; clear Hx.
  all: try (pose proof (decodeAudioFrame_spec _ _ _ _ _ _ _ _ E2)
              as (ev2' & (T2' & _) & _ & _ & _ & K2 & _);
            apply decodeAudioFrame_quiet in E2 as (ev2 & T2 & C2);
            pose proof (same_events _ _ _ _ T2' T2) as ->).
  all: try (apply initConvertedSamples_spec in E3 as (ev3 & (T3 & _) & K3 & C3);
            apply core_nil_quiet in C3).
  all: try (apply convertSamples_spec in E4 as (ev4 & (T4 & _) & K4 & C4);
            apply core_nil_quiet in C4).
  all: try (apply addSamplesToFifo_level in E5 as (ev5 & T5 & C5)).
  all: eexists; (split; [trace_chain|]).
  (* the ways without a write to the FIFO *)
  all: try (match goal with
            | |- (fifo_level ?l = 0 \/ _) /\ _ =>
                assert (Hq : forallb (fun ev => negb (touches_fifo ev)) l = true)
                  by (rewrite ?forallb_app, ?C1, ?C2, ?C3, ?C4, ?Cc; reflexivity)
            end;
            split; [left; apply (level_within_quiet 0 1 0); [lia|exact Hq]|];
            intros Hlo Hhi; apply level_within_quiet; [|exact Hq];
            rewrite (proj2 (level_within_quiet 0 1 0 _ ltac:(lia) Hq)) in Hhi; lia).
  (* the frame is stored, or not *)
  all: destruct (K2 eq_refl eq_refl) as [c0 Hc0].
  all: rewrite K1 in Hc0; rewrite Hc0 in *.
  all: assert (Hq1 : fifo_level (ev1 ++ ev2 ++ ev3 ++ ev4) = 0)
         by (apply (level_within_quiet 0 1 0); [lia|];
             rewrite ?forallb_app, ?C1, ?C2, ?C3, ?C4; reflexivity).
  all: assert (Hqc : fifo_level evc = 0)
         by (apply (level_within_quiet 0 1 0); [lia|exact Cc]).
  all: assert (Hl5 : fifo_level ev5 = 0 \/
                     fifo_level ev5 = nb_samples c0 /\ 0 <= nb_samples c0)
         by (rewrite <- fifo_level_core;
             destruct C5 as [C5|[C5 Hn]]; rewrite C5; unfold fifo_level; cbn;
             [left|right]; lia).
  all: replace (ev1 ++ ev2 ++ ev3 ++ ev4 ++ ev5 ++ evc)
         with ((ev1 ++ ev2 ++ ev3 ++ ev4) ++ ev5 ++ evc)
         by (rewrite <- !app_assoc; reflexivity).
  all: rewrite (fifo_level_app (ev1 ++ ev2 ++ ev3 ++ ev4)), (fifo_level_app ev5),
         Hq1, Hqc.
  all: (split; [destruct Hl5 as [Hl5|[Hl5 Hn]]; rewrite Hl5;
                [left; lia|right; exists c0; eexists; repeat split; auto; lia]|]).
  all: intros Hlo Hhi.
  all: apply level_within_app;
         [apply level_within_quiet; [lia|];
          rewrite ?forallb_app, ?C1, ?C2, ?C3, ?C4; reflexivity|].
  all: rewrite Hq1, Z.add_0_r.
  all: apply level_within_app;
         [|apply level_within_quiet; [lia|exact Cc]].
  all: apply level_within_core.
  all: destruct C5 as [C5|[C5 Hn]]; rewrite C5.
  all: destruct Hl5 as [Hl5|[Hl5 _]]; rewrite Hl5 in Hhi.
  all: try short_prefixes.
  all: rewrite <- fifo_level_core, C5 in Hl5; unfold fifo_level in Hl5; cbn in Hl5.
  all: try short_prefixes.
Qed.

Lemma loadEncodeAndWrite_level o occ s r s' hi :
  loadEncodeAndWrite o occ s = (r, s') ->
  0 < frame_size occ -> 0 < fifo_samples s < hi ->
  exists evs, trace s' = trace s ++ evs /\
    packets s' = packets s /\
    fifo_samples s' = fifo_samples s + fifo_level evs /\
    0 <= fifo_samples s' <= fifo_samples s /\
    level_within 0 hi (fifo_samples s) evs.
Proof.
  intros H Hfs Hsz.
  apply loadEncodeAndWrite_spec in H; [|exact Hfs|lia].
  rewrite FFMIN_min in H.
  destruct H as (evs & T & K & H). exists evs.
  split; [exact T|]. split; [exact K|].
  rewrite <- fifo_level_core.
  assert (Hn : 0 < Z.min (fifo_samples s) (frame_size occ) <= fifo_samples s) by lia.
  destruct H as [(C & _ & F & _)|(F & [(C & _)|(_ & [C|C])])]; rewrite C, F;
    unfold fifo_level at 1; cbn; (split; [lia|]); (split; [lia|]);
    apply level_within_core; rewrite C; short_prefixes.
Qed.

Lemma encodeAudioFrame_level o frame dp s r dp' s' hi :
  encodeAudioFrame o frame dp s = (r, dp', s') ->
  0 <= fifo_samples s < hi ->
  exists evs, trace s' = trace s ++ evs /\
    packets s' = packets s /\
    fifo_samples s' = fifo_samples s + fifo_level evs /\
    level_within 0 hi (fifo_samples s) evs.
Proof.
  intros H Hsz.
  apply encodeAudioFrame_spec in H as (evs & T & K & F & _ & G1).
  exists evs. split; [exact T|]. split; [exact K|].
  rewrite <- fifo_level_core.
  destruct G1 as [(C & _)|[(C & _)|(C & _)]]; rewrite C, F;
    unfold fifo_level at 1; cbn; (split; [lia|]);
    apply level_within_core; rewrite C; short_prefixes.
Qed.

Lemma main_loop_level fuel e occ s r s' M :
  main_loop fuel e occ s = Some (r, s') ->
  0 < frame_size occ -> 0 <= M ->
  0 <= fifo_samples s < frame_size occ + M ->
  Forall (fun c => nb_samples c <= M) (packets s) ->
  exists evs, trace s' = trace s ++ evs /\
    level_within 0 (frame_size occ + M) (fifo_samples s) evs.
Proof.
  intros H Hfs HM Hsz Hw.
  apply (main_loop_rule e occ
           (fun s s' => exists evs, trace s' = trace s ++ evs /\
              (0 <= fifo_samples s < frame_size occ + M ->
               Forall (fun c => nb_samples c <= M) (packets s) ->
               0 <= fifo_samples s' < frame_size occ + M /\
               Forall (fun c => nb_samples c <= M) (packets s') /\
               fifo_samples s' = fifo_samples s + fifo_level evs /\
               level_within 0 (frame_size occ + M) (fifo_samples s) evs))
           (fun _ => True)) in H; auto.
  - destruct H as (evs & T & H). exists evs. split; [exact T|].
    apply H; assumption.
  - intros s0. exists []. rewrite app_nil_r. split; [reflexivity|].
    intros Hz W. split; [exact Hz|]. split; [exact W|].
    split; [unfold fifo_level; cbn; lia|].
    intros p0 q0 Hpq. symmetry in Hpq. apply app_eq_nil in Hpq as [-> _].
    unfold fifo_level. cbn. lia.
  - intros s1 s2 s3 (e1 & T1 & H1) (e2 & T2 & H2).
    exists (e1 ++ e2). split; [rewrite T2, T1; symmetry; apply app_assoc|].
    intros Hz W. destruct (H1 Hz W) as (Hz2 & W2 & F1 & L1).
    destruct (H2 Hz2 W2) as (Hz3 & W3 & F2 & L2).
    rewrite fifo_level_app.
    split; [exact Hz3|]. split; [exact W3|]. split; [lia|].
    apply level_within_app; [exact L1|]. rewrite <- F1. exact L2.
  - intros s0 r0 fin' s0' Hlt _ E.
    pose proof (readDecodeConvertAndStore_spec _ _ _ _ _ _ E) as (evs & St & _).
    pose proof (fill_step_facts _ _ _ St) as (_ & Hl & _).
    destruct St as (T & _ & _ & _ & F & N).
    exists evs. split; [exact T|]. intros Hz W.
    destruct (readDecodeConvertAndStore_level _ _ _ _ _ _ 0 (frame_size occ + M) E)
      as (evs' & T' & Hlev & Hin).
    pose proof (same_events _ _ _ _ T' T) as ->.
    assert (Hfl : fifo_level evs = stored_samples evs)
      by (unfold fifo_level; lia).
    assert (Hb : fifo_level evs <= M).
    { destruct Hlev as [Hlev|(c & rest & Hc & Hlev & _)]; [lia|].
      rewrite Hc in W. inversion W; subst. lia. }
    split; [lia|]. split; [|split; [lia|apply Hin; lia]].
    apply readDecodeConvertAndStore_packets in E as [-> | ->];
      [exact W|apply Forall_tl, W].
  - intros fin s0 r0 s0' C _ E.
    destruct (loadEncodeAndWrite_ledger _ _ _ _ _ [] E) as (evs & T & _).
    exists evs. split; [exact T|]. intros Hz W.
    pose proof (drain_condition_positive _ _ _ Hfs C) as Hpos.
    destruct (loadEncodeAndWrite_level _ _ _ _ _ (frame_size occ + M) E Hfs ltac:(lia))
      as (evs' & T' & K & F & Hnn & L).
    pose proof (same_events _ _ _ _ T' T) as ->.
    rewrite K. split; [lia|]. split; [exact W|]. split; [exact F|exact L].
  - intros s0 r0 dw s0' _ E.
    destruct (encodeAudioFrame_ledger _ _ _ _ _ _ _ [] E) as (evs & T & _).
    exists evs. split; [exact T|]. intros Hz W.
    destruct (encodeAudioFrame_level _ _ _ _ _ _ _ (frame_size occ + M) E Hz)
      as (evs' & T' & K & F & L).
    pose proof (same_events _ _ _ _ T' T) as ->.
    assert (Hl0 : fifo_level evs = 0).
    { apply encodeAudioFrame_spec in E as (evs' & T'' & _ & F' & _).
      pose proof (same_events _ _ _ _ T'' T) as ->. lia. }
    rewrite K. split; [lia|]. split; [exact W|]. split; [exact F|exact L].
Qed.

(** A run that gets as far as the main loop: the loop starts on the whole
    file with an empty FIFO, after the header and before the trailer. *)
Lemma processInput_loop fuel e s out s' evs :
  processInput fuel e s = Some (out, s') ->
  trace s' = trace s ++ evs ->
  core evs = [] \/ core evs = [WriteHeader] \/
  exists occ s1 s2 r pre evL post,
    frame_size occ = encoder_frame_size (output e) /\
    packets s1 = file_packets (input e) /\
    fifo_samples s1 = 0 /\
    main_loop fuel e occ s1 = Some (r, s2) /\
    trace s2 = trace s1 ++ evL /\
    evs = pre ++ evL ++ post /\
    core pre = [WriteHeader] /\
    (core post = [] \/ core post = [WriteTrailer]).
Proof.
  intros H T.
  processInput_walk H.
  all: try (pose proof (openOutputFile_packets _ _ _ _ _ _ _ _ _ E2) as K2).
  all: try (pose proof E6 as E6';
            apply main_loop_extends in E6' as (ev6 & T6)).
  all: walk_effects.
  all: run_events T; subst evs.
  all: try (left; rewrite !core_app, ?C1, ?C2, ?C3, ?C4, ?Cc; reflexivity).
  all: try (right; left; rewrite !core_app, ?C1, ?C2, ?C3, ?C4, ?C5, ?Cc;
            reflexivity).
  all: right; right.
  all: destruct (Ra eq_refl) as (_ & _ & K1).
  all: specialize (F4 eq_refl).
  - exists c, s5, s6, r6, (ev1 ++ ev2 ++ ev3 ++ ev4 ++ ev5), ev6, evc.
    rewrite !core_app, C1, C2, C3, C4, C5, <- !app_assoc.
    repeat split; auto; congruence.
  - exists c, s5, s6, 0, (ev1 ++ ev2 ++ ev3 ++ ev4 ++ ev5), ev6, (ev7 ++ evc).
    rewrite !core_app, C1, C2, C3, C4, C5, C7, Cc, <- !app_assoc.
    repeat split; auto; congruence.
  - exists c, s5, s6, 0, (ev1 ++ ev2 ++ ev3 ++ ev4 ++ ev5), ev6, (ev7 ++ evc).
    rewrite !core_app, C1, C2, C3, C4, C5, C7, Cc, <- !app_assoc.
    repeat split; auto; congruence.
Qed.

(** X13.  The FIFO stays small.  With a positive encoder frame size, the
    FIFO holds at every moment of a run less than one encoder frame plus the
    largest frame the decoder hands out, and never a negative number of
    samples: after every event of the run, the samples written to the FIFO
    minus the samples read from it lie in this range. *)
Theorem fifo_is_bounded fuel e s out s' evs M :
  processInput fuel e s = Some (out, s') ->
  trace s' = trace s ++ evs ->
  0 < encoder_frame_size (output e) ->
  0 <= M ->
  Forall (fun c => nb_samples c <= M) (file_packets (input e)) ->
  forall p q, evs = p ++ q ->
    0 <= stored_samples p - loaded_samples p < encoder_frame_size (output e) + M.
Proof.
  intros H T Hfs HM Hw.
  assert (Hl : level_within 0 (encoder_frame_size (output e) + M) 0 evs).
  2:{ intros p q Hpq. specialize (Hl p q Hpq). unfold fifo_level in Hl. lia. }
  destruct (processInput_loop _ _ _ _ _ _ H T) as [C|[C|Hx]].
  - apply level_within_core. rewrite C. short_prefixes.
  - apply level_within_core. rewrite C. short_prefixes.
  - destruct Hx as (occ & s1 & s2 & r & pre & evL & post & Hocc & K1 & F1 & HL & TL & -> & Cp & Cq).
    rewrite <- Hocc in *. rewrite <- K1 in Hw.
    destruct (main_loop_level _ _ _ _ _ _ M HL Hfs HM ltac:(lia) Hw) as (evL' & TL' & L).
    pose proof (same_events _ _ _ _ TL' TL) as ->.
    assert (Hpre : fifo_level pre = 0)
      by (rewrite <- fifo_level_core, Cp; reflexivity).
    assert (HevL : 0 <= fifo_level evL < frame_size occ + M).
    { specialize (L evL [] (eq_sym (app_nil_r _))). lia. }
    apply level_within_app.
    { apply level_within_core. rewrite Cp. short_prefixes. }
    rewrite Hpre, Z.add_0_l.
    apply level_within_app.
    { rewrite F1 in L. exact L. }
    apply level_within_core.
    destruct Cq as [Cq|Cq]; rewrite Cq; short_prefixes.
Qed.

Lemma fifo_is_bounded_witness :
  processInput 10 Scenario.plain process_start
    = Some (Returned 0, final_state 10 Scenario.plain process_start) /\
  forall p q, trace (final_state 10 Scenario.plain process_start) = p ++ q ->
    0 <= stored_samples p - loaded_samples p < 1024 + 1152.
Proof.
  assert (H : processInput 10 Scenario.plain process_start
              = Some (Returned 0, final_state 10 Scenario.plain process_start))
    by (vm_compute; reflexivity).
  split; [exact H|].
  apply (fifo_is_bounded 10 Scenario.plain process_start (Returned 0)
           (final_state 10 Scenario.plain process_start)
           (trace (final_state 10 Scenario.plain process_start)) 1152 H).
  - vm_compute. reflexivity.
  - vm_compute. reflexivity.
  - vm_compute. discriminate.
  - repeat constructor; vm_compute; discriminate.
Defined.

(** ** No diagnostic without a failure *)

Ltac silent_path :=
  match goal with
  | H : (_, _) = (_, _) |- _ => inversion H; subst; clear H
  end; cbn [trace pts packets encoder_calls fifo_samples];
  eexists; split;
  [ rewrite <- ?app_assoc; cbn [app]; try reflexivity; symmetry; apply app_nil_r | ];
  intros; try reflexivity; try lia; try discriminate; try congruence.

Lemma openInputFile_silent f icc s r ifc icc' s' :
  openInputFile f icc s = (r, ifc, icc', s') ->
  exists evs, trace s' = trace s ++ evs /\ (r = 0 -> diagnostics evs = []).
Proof.
  intros H. unfold openInputFile in H.
  destruct s as [p0 pk0 ec0 fz0 tr0]. st_unfold H.
  split_ifs; to_prop; silent_path.
Qed.

Lemma openOutputFile_silent o ctx ofc occ s r ofc' occ' s' :
  openOutputFile o ctx ofc occ s = (r, ofc', occ', s') ->
  exists evs, trace s' = trace s ++ evs /\ (r = 0 -> diagnostics evs = []).
Proof.
  intros H. unfold openOutputFile, openOutputFile_cleanup in H.
  destruct s as [p0 pk0 ec0 fz0 tr0]. st_unfold H.
  split_ifs; to_prop; silent_path.
Qed.

Lemma initResampler_silent e icc occ s r swr s' :
  initResampler e icc occ s = (Returned (r, swr), s') ->
  exists evs, trace s' = trace s ++ evs /\ (r = 0 -> diagnostics evs = []).
Proof.
  intros H. unfold initResampler in H.
  destruct s as [p0 pk0 ec0 fz0 tr0]. st_unfold H.
  split_ifs; to_prop; try discriminate; silent_path.
Qed.

Lemma initFifo_silent e s r fifo s' :
  initFifo e s = (r, fifo, s') ->
  exists evs, trace s' = trace s ++ evs /\ (r = 0 -> diagnostics evs = []).
Proof.
  intros H. unfold initFifo in H.
  destruct s as [p0 pk0 ec0 fz0 tr0]. st_unfold H.
  split_ifs; to_prop; silent_path.
Qed.

Lemma writeOutputFileHeader_silent o s r s' :
  writeOutputFileHeader o s = (r, s') ->
  exists evs, trace s' = trace s ++ evs /\ (r = 0 -> diagnostics evs = []).
Proof.
  intros H. unfold writeOutputFileHeader in H.
  destruct s as [p0 pk0 ec0 fz0 tr0]. st_unfold H.
  split_ifs; to_prop; silent_path.
Qed.

Lemma writeOutputFileTrailer_silent o s r s' :
  writeOutputFileTrailer o s = (r, s') ->
  exists evs, trace s' = trace s ++ evs /\ (r = 0 -> diagnostics evs = []).
Proof.
  intros H. unfold writeOutputFileTrailer in H.
  destruct s as [p0 pk0 ec0 fz0 tr0]. st_unfold H.
  split_ifs; to_prop; silent_path.
Qed.

Lemma processInput_cleanup_silent a b c d e f r s x s' :
  processInput_cleanup a b c d e f r s = (x, s') ->
  exists evs, trace s' = trace s ++ evs /\ diagnostics evs = [].
Proof.
  intros H. unfold processInput_cleanup in H.
  destruct s as [p0 pk0 ec0 fz0 tr0].
  destruct a, b, c, d, e, f; cbv [is_set] in H; st_unfold H;
    inversion H; subst; clear H; cbn [trace]; eexists;
    (split; [rewrite <- ?app_assoc; cbn [app]; try reflexivity;
             symmetry; apply app_nil_r|]); reflexivity.
Qed.

Lemma initInputFrame_silent ok s r p s' :
  initInputFrame ok s = (r, p, s') ->
  exists evs, trace s' = trace s ++ evs /\ (r = 0 -> diagnostics evs = []).
Proof.
  intros H. destruct s as [p0 pk0 ec0 fz0 tr0]. st_unfold H.
  split_ifs; to_prop; silent_path.
Qed.

Lemma decodeAudioFrame_silent c dp fin s r dp' fin' s' :
  decodeAudioFrame c dp fin s = (r, dp', fin', s') ->
  exists evs, trace s' = trace s ++ evs /\ (r = 0 -> diagnostics evs = []).
Proof.
  intros H. unfold decodeAudioFrame in H.
  destruct s as [p0 pk0 ec0 fz0 tr0]. st_unfold H.
  split_ifs; to_prop; silent_path.
Qed.

Lemma initConvertedSamples_silent c s r p d s' :
  initConvertedSamples c s = (r, p, d, s') ->
  exists evs, trace s' = trace s ++ evs /\ (r = 0 -> diagnostics evs = []).
Proof.
  intros H. unfold initConvertedSamples in H.
  destruct s as [p0 pk0 ec0 fz0 tr0]. st_unfold H.
  split_ifs; to_prop; silent_path.
Qed.

Lemma convertSamples_silent c s r s' :
  convertSamples c s = (r, s') ->
  exists evs, trace s' = trace s ++ evs /\ (r = 0 -> diagnostics evs = []).
Proof.
  intros H. unfold convertSamples in H.
  destruct s as [p0 pk0 ec0 fz0 tr0]. st_unfold H.
  split_ifs; to_prop; silent_path.
Qed.

Lemma addSamplesToFifo_silent c n s r s' :
  addSamplesToFifo c n s = (r, s') ->
  exists evs, trace s' = trace s ++ evs /\ (r = 0 -> diagnostics evs = []).
Proof.
  intros H. unfold addSamplesToFifo in H.
  destruct s as [p0 pk0 ec0 fz0 tr0]. st_unfold H.
  split_ifs; to_prop; silent_path.
Qed.

Lemma readDecodeConvertAndStore_cleanup_silent p q r fin s x s' :
  readDecodeConvertAndStore_cleanup p q r fin s = (x, s') ->
  x = (r, fin) /\
  exists evs, trace s' = trace s ++ evs /\ diagnostics evs = [].
Proof.
  intros H. unfold readDecodeConvertAndStore_cleanup in H.
  destruct s as [p0 pk0 ec0 fz0 tr0]. st_unfold H.
  destruct p, q; inversion H; subst; clear H; (split; [reflexivity|]);
    cbn [trace]; eexists;
    (split; [rewrite <- ?app_assoc; cbn [app]; try reflexivity;
             symmetry; apply app_nil_r|]); reflexivity.
Qed.

Lemma encodeAudioFrame_silent o frame dp s r dp' s' :
  encodeAudioFrame o frame dp s = (r, dp', s') ->
  exists evs, trace s' = trace s ++ evs /\ (r = 0 -> diagnostics evs = []).
Proof.
  intros H. unfold encodeAudioFrame in H.
  destruct s as [p0 pk0 ec0 fz0 tr0]. st_unfold H.
  split_ifs; to_prop; silent_path.
Qed.

Lemma loadEncodeAndWrite_silent o occ s r s' :
  loadEncodeAndWrite o occ s = (r, s') ->
  exists evs, trace s' = trace s ++ evs /\ (r = 0 -> diagnostics evs = []).
Proof.
  intros H.
  unfold loadEncodeAndWrite, encodeAudioFrame, initOutputFrame in H.
  destruct s as [p0 pk0 ec0 fz0 tr0]. st_unfold H.
  cbn [fifo_samples pts trace packets encoder_calls] in *.
  split_ifs; to_prop; silent_path.
Qed.

Lemma readDecodeConvertAndStore_silent f fin s r fin' s' :
  readDecodeConvertAndStore f fin s = (r, fin', s') ->
  exists evs, trace s' = trace s ++ evs /\ (r = 0 -> diagnostics evs = []).
Proof.
  intros H. rdcas_walk H.
  all: apply initInputFrame_silent in E1 as (ev1 & T1 & D1).
  all: try apply decodeAudioFrame_silent in E2 as (ev2 & T2 & D2).
  all: try apply initConvertedSamples_silent in E3 as (ev3 & T3 & D3).
  all: try apply convertSamples_silent in E4 as (ev4 & T4 & D4).
  all: try apply addSamplesToFifo_silent in E5 as (ev5 & T5 & D5).
  all: apply readDecodeConvertAndStore_cleanup_silent in H
         as (Hx & evc & Tc & Dc).
  all: inversion Hx; subst; clear Hx.
  all: eexists; (split; [trace_chain|]).
  all: try (intros Hx; unfold AVERROR_EXIT in Hx; discriminate Hx).
  all: intros _; rewrite !diagnostics_app.
  all: repeat match goal with
       | B : negb (_ =? 0) = false |- _ => apply negb_false_iff, Z.eqb_eq in B
       end.
  all: repeat match goal with
       | D : ?x = 0 -> diagnostics _ = [] , B : ?x = 0 |- _ =>
           rewrite (D B); clear D
       | D : 0 = 0 -> diagnostics _ = [] |- _ => rewrite (D eq_refl); clear D
       end.
  all: rewrite ?Dc; reflexivity.
Qed.

Lemma main_loop_silent fuel e occ s s' :
  main_loop fuel e occ s = Some (0, s') ->
  exists evs, trace s' = trace s ++ evs /\ diagnostics evs = [].
Proof.
  intros H.
  apply (main_loop_success e occ
           (fun s s' => exists evs, trace s' = trace s ++ evs /\
                          diagnostics evs = [])) in H; auto.
  - intros s0. exists []. rewrite app_nil_r. auto.
  - intros s1 s2 s3 (e1 & T1 & D1) (e2 & T2 & D2).
    exists (e1 ++ e2). split; [rewrite T2, T1; symmetry; apply app_assoc|].
    rewrite diagnostics_app, D1, D2. reflexivity.
  - intros s0 fin' s0' E.
    apply readDecodeConvertAndStore_silent in E as (evs & T & D). eauto.
  - intros s0 s0' E.
    apply loadEncodeAndWrite_silent in E as (evs & T & D). eauto.
  - intros s0 dw s0' E.
    apply encodeAudioFrame_silent in E as (evs & T & D). eauto.
Qed.

(** X14.  A run that answers 0 has written no diagnostic. *)
Theorem success_is_silent fuel e s s' evs :
  processInput fuel e s = Some (Returned 0, s') ->
  trace s' = trace s ++ evs ->
  diagnostics evs = [].
Proof.
  intros H T.
  processInput_walk H.
  all: pose proof (processInput_cleanup_spec _ _ _ _ _ _ _ _ _ _ Ec) as (Hx & _).
  all: try (unfold AVERROR_EXIT in Hx; discriminate Hx).
  apply openInputFile_silent in E1 as (ev1 & T1 & D1).
  apply openOutputFile_silent in E2 as (ev2 & T2 & D2).
  apply initResampler_silent in E3 as (ev3 & T3 & D3).
  apply initFifo_silent in E4 as (ev4 & T4 & D4).
  apply writeOutputFileHeader_silent in E5 as (ev5 & T5 & D5).
  apply main_loop_silent in E6 as (ev6 & T6 & D6).
  apply writeOutputFileTrailer_silent in E7 as (ev7 & T7 & D7).
  apply processInput_cleanup_silent in Ec as (evc & Tc & Dc).
  apply negb_false_iff, Z.eqb_eq in B7.
  run_events T. subst evs.
  rewrite !diagnostics_app, (D1 eq_refl), (D2 eq_refl), (D3 eq_refl),
    (D4 eq_refl), (D5 eq_refl), D6, (D7 B7), Dc. reflexivity.
Qed.

Lemma success_is_silent_witness :
  processInput 10 Scenario.plain process_start
    = Some (Returned 0, final_state 10 Scenario.plain process_start) /\
  diagnostics (trace (final_state 10 Scenario.plain process_start)) = [].
Proof.
  assert (H : processInput 10 Scenario.plain process_start
              = Some (Returned 0, final_state 10 Scenario.plain process_start))
    by (vm_compute; reflexivity).
  split; [exact H|].
  apply (success_is_silent 10 Scenario.plain process_start
           (final_state 10 Scenario.plain process_start)
           (trace (final_state 10 Scenario.plain process_start)) H).
  vm_compute. reflexivity.
Defined.
